(** * Imaginary-time finite-difference relaxation solver (DirichletSystem)

    A shallow embedding of the [DirichletSystem] class of the notebooks
    "2d free" and "3d columb", and the properties of its grid builder,
    deflation step, stepping loop and convergence monitor.

    Conventions of the embedding.

    - float64 values are idealised as real numbers ([R]): rounding, overflow
      and NaN are outside the model, and "equal within floating tolerance"
      reads as equality of reals.  Python float division raises on a zero
      divisor and is modelled by [py_div]; numpy division never raises and is
      modelled by real division.
    - A numpy array is a shape together with a function from multi-indices to
      values ([ndarray]); only the values at indices inside the shape matter.
      Element-wise operations follow numpy's right-aligned broadcasting,
      including its [ValueError]; integer indexing follows Python's negative
      index rule, including its [IndexError].
    - The two notebooks hold the same class except for [normalize]; the
      constructor of the model takes the notebook as a tag ([notebook]).
    - Progress bars, printing and the periodic [np.save] of "3d columb" are
      not modelled.  The arrays in [priors] are taken to be objects distinct
      from the solution buffer.
    - Arrays are passed by value, except in the last part of the
      definitions, which follows the array object the solution is held
      in. *)

From Stdlib Require Import Reals Lra Lia List ZArith Bool Arith.
From Stdlib Require Import FunctionalExtensionality.
Import ListNotations.

Open Scope R_scope.

(** ** Exceptions *)

Inductive exn : Type :=
| IndexError
| ValueError
| ZeroDivisionError
| AttributeError.

Inductive result (A : Type) : Type :=
| Ok (a : A)
| Raise (e : exn).

Arguments Ok {A} a.
Arguments Raise {A} e.

Definition bind {A B : Type} (m : result A) (k : A -> result B) : result B :=
  match m with
  | Ok a => k a
  | Raise e => Raise e
  end.

Notation "x <- m ;; k" := (bind m (fun x => k))
  (at level 61, m at next level, right associativity).

Fixpoint mapM {A B : Type} (f : A -> result B) (l : list A) : result (list B) :=
  match l with
  | [] => Ok []
  | a :: l' => b <- f a ;; bs <- mapM f l' ;; Ok (b :: bs)
  end.

Fixpoint foldM {A S : Type} (f : S -> A -> result S) (l : list A) (s : S)
  : result S :=
  match l with
  | [] => Ok s
  | a :: l' => s' <- f s a ;; foldM f l' s'
  end.

(** ** Python scalars *)

(** [int(x)] on a float: truncation toward zero. *)
Definition py_int (x : R) : Z :=
  if Rle_dec 0 x then Int_part x else (- Int_part (- x))%Z.

(** [a / b] on Python floats. *)
Definition py_div (a b : R) : result R :=
  if Req_dec_T b 0 then Raise ZeroDivisionError else Ok (a / b).

(** Python's rule for an integer index [k] into an axis of extent [m]. *)
Definition norm_index (k : Z) (m : nat) : option nat :=
  if (0 <=? k)%Z then
    if (k <? Z.of_nat m)%Z then Some (Z.to_nat k) else None
  else
    if (- Z.of_nat m <=? k)%Z then Some (Z.to_nat (Z.of_nat m + k)) else None.

(** ** numpy arrays *)

Definition index := list nat.

Record ndarray : Type := mk_ndarray {
  shape : list nat;
  data : index -> R
}.

Definition in_shape (idx : index) (sh : list nat) : Prop := Forall2 lt idx sh.

Fixpoint sum_upto (n : nat) (f : nat -> R) : R :=
  match n with
  | O => 0
  | S k => sum_upto k f + f k
  end.

Fixpoint sum_over (sh : list nat) (f : index -> R) : R :=
  match sh with
  | [] => f []
  | n :: sh' => sum_upto n (fun i => sum_over sh' (fun idx => f (i :: idx)))
  end.

(** [np.sum(a)] *)
Definition np_sum (a : ndarray) : R := sum_over (shape a) (data a).

(** [np.zeros(sh)] *)
Definition np_zeros (sh : list nat) : ndarray :=
  {| shape := sh; data := fun _ => 0 |}.

(** An operation with a scalar: [c * a], [1.0 + a], [a / c], ... *)
Definition np_map (f : R -> R) (a : ndarray) : ndarray :=
  {| shape := shape a; data := fun idx => f (data a idx) |}.

Definition pad_shape (n : nat) (s : list nat) : list nat :=
  repeat 1%nat (n - length s) ++ s.

Fixpoint bc_zip (s t : list nat) : option (list nat) :=
  match s, t with
  | [], [] => Some []
  | a :: s', b :: t' =>
      match bc_zip s' t' with
      | None => None
      | Some r =>
          if (a =? b)%nat then Some (a :: r)
          else if (a =? 1)%nat then Some (b :: r)
          else if (b =? 1)%nat then Some (a :: r)
          else None
      end
  | _, _ => None
  end.

(** The shape two operands broadcast to, when they do. *)
Definition broadcast_shapes (s t : list nat) : option (list nat) :=
  let n := Nat.max (length s) (length t) in
  bc_zip (pad_shape n s) (pad_shape n t).

Fixpoint bc_index_aux (s : list nat) (idx : index) : index :=
  match s, idx with
  | n :: s', i :: idx' => (if (n =? 1)%nat then O else i) :: bc_index_aux s' idx'
  | _, _ => []
  end.

(** The index into an operand of shape [s] that an index of the broadcast
    result reads. *)
Definition bc_index (s : list nat) (idx : index) : index :=
  bc_index_aux s (skipn (length idx - length s) idx).

Definition shape_eqb (s t : list nat) : bool :=
  if list_eq_dec Nat.eq_dec s t then true else false.

(** [a op b] producing a new array. *)
Definition np_binop (f : R -> R -> R) (a b : ndarray) : result ndarray :=
  match broadcast_shapes (shape a) (shape b) with
  | Some t =>
      Ok {| shape := t;
            data := fun idx => f (data a (bc_index (shape a) idx))
                                 (data b (bc_index (shape b) idx)) |}
  | None => Raise ValueError
  end.

(** [a op= b]: the result must have the shape of [a]. *)
Definition np_inplace (f : R -> R -> R) (a b : ndarray) : result ndarray :=
  match broadcast_shapes (shape a) (shape b) with
  | Some t =>
      if shape_eqb t (shape a) then
        Ok {| shape := shape a;
              data := fun idx => f (data a idx)
                                   (data b (bc_index (shape b) idx)) |}
      else Raise ValueError
  | None => Raise ValueError
  end.

Definition remove_at (i : nat) (l : list nat) : list nat :=
  firstn i l ++ skipn (S i) l.

Definition insert_at (i k : nat) (l : list nat) : list nat :=
  firstn i l ++ k :: skipn i l.

Definition replace_at (i k : nat) (l : list nat) : list nat :=
  firstn i l ++ k :: skipn (S i) l.

(** The extent an index tuple of length [nd] sees along axis [i], after the
    checks numpy makes on the tuple. *)
Definition axis_extent (nd i : nat) (a : ndarray) : result nat :=
  if (length (shape a) <? nd)%nat then Raise IndexError
  else Ok (nth i (shape a) O).

(** [a[ind]] for [ind] the tuple of length [nd] that holds the integer [k] at
    position [i] and full slices elsewhere. *)
Definition take (nd i : nat) (k : Z) (a : ndarray) : result ndarray :=
  m <- axis_extent nd i a ;;
  match norm_index k m with
  | None => Raise IndexError
  | Some k' =>
      Ok {| shape := remove_at i (shape a);
            data := fun idx => data a (insert_at i k' idx) |}
  end.

(** [a[ind] = v] for the same tuple and an array [v]. *)
Definition put (nd i : nat) (k : Z) (a v : ndarray) : result ndarray :=
  m <- axis_extent nd i a ;;
  match norm_index k m with
  | None => Raise IndexError
  | Some k' =>
      match broadcast_shapes (remove_at i (shape a)) (shape v) with
      | Some t =>
          if shape_eqb t (remove_at i (shape a)) then
            Ok {| shape := shape a;
                  data := fun idx =>
                    if (nth i idx O =? k')%nat
                    then data v (bc_index (shape v) (remove_at i idx))
                    else data a idx |}
          else Raise ValueError
      | None => Raise ValueError
      end
  end.

(** [a[ind] = c] for the same tuple and a scalar [c]. *)
Definition put_scalar (nd i : nat) (k : Z) (a : ndarray) (c : R)
  : result ndarray :=
  m <- axis_extent nd i a ;;
  match norm_index k m with
  | None => Raise IndexError
  | Some k' =>
      Ok {| shape := shape a;
            data := fun idx =>
              if (nth i idx O =? k')%nat then c else data a idx |}
  end.

(** The three slices of the stencil, [slice(1, -1)], [slice(0, -2)] and
    [slice(2, None)], are [slice(lo, m - back)] on an axis of extent [m];
    Python clamps the bounds, which leaves [m - back - lo] elements
    (truncated subtraction). *)
Definition slice_len (lo back m : nat) : nat := (m - back - lo)%nat.

Definition shift_at (i lo : nat) (idx : index) : index :=
  replace_at i (nth i idx O + lo)%nat idx.

Definition unshift_at (i lo : nat) (idx : index) : index :=
  replace_at i (nth i idx O - lo)%nat idx.

(** [a[ind]] for [ind] the tuple of length [nd] that holds
    [slice(lo, -back)] at position [i] and full slices elsewhere. *)
Definition slice (nd i lo back : nat) (a : ndarray) : result ndarray :=
  m <- axis_extent nd i a ;;
  Ok {| shape := replace_at i (slice_len lo back m) (shape a);
        data := fun idx => data a (shift_at i lo idx) |}.

(** [a[ind] += v] for the same tuple. *)
Definition iadd_slice (nd i lo back : nat) (a v : ndarray) : result ndarray :=
  m <- axis_extent nd i a ;;
  let vs := replace_at i (slice_len lo back m) (shape a) in
  match broadcast_shapes vs (shape v) with
  | Some t =>
      if shape_eqb t vs then
        Ok {| shape := shape a;
              data := fun idx =>
                if ((lo <=? nth i idx O) && (nth i idx O <? m - back))%nat
                then data a idx
                     + data v (bc_index (shape v) (unshift_at i lo idx))
                else data a idx |}
      else Raise ValueError
  | None => Raise ValueError
  end.

Fixpoint set_last (l : list R) (x : R) : list R :=
  match l with
  | [] => []
  | [_] => [x]
  | y :: l' => y :: set_last l' x
  end.

(** [np.linspace(start, stop, num)] *)
Definition np_linspace (start stop : R) (num : Z) : result (list R) :=
  if (num <? 0)%Z then Raise ValueError
  else
    let n := Z.to_nat num in
    let delta := (stop - start) / INR (n - 1) in
    let y := map (fun i => INR i * delta + start) (seq 0 n) in
    Ok (if (1 <? n)%nat then set_last y stop else y).

(** [np.meshgrid( *spaces, indexing='ij')] *)
Definition np_meshgrid (spaces : list (list R)) : list ndarray :=
  map (fun k => {| shape := map (@length R) spaces;
                   data := fun idx => nth (nth k idx O) (nth k spaces []) 0 |})
      (seq 0 (length spaces)).

(** [l[n] = x] on a one-dimensional array held as a list. *)
Fixpoint list_set (l : list R) (n : nat) (x : R) : list R :=
  match l, n with
  | [], _ => []
  | _ :: l', O => x :: l'
  | y :: l', S n' => y :: list_set l' n' x
  end.

(** ** The solver state *)

(** The class of "2d free" and the class of "3d columb" differ in
    [normalize] only. *)
Inductive notebook : Type :=
| Free2D
| Columb3D.

(** [Boundary(start, end, step)]; [end] is reserved in Rocq. *)
Record Boundary : Type := mk_Boundary {
  start : R;
  end_ : R;
  step : R
}.

Record DirichletSystem : Type := mk_DirichletSystem {
  variant : notebook;
  pbc : bool;
  priors : list ndarray;
  pot : list R -> R;
  time_dom : Boundary;
  spat_dom : list Boundary;
  vol : R;
  time_len : Z;
  spaces : list (list R);
  sol_mesh : ndarray;
  sol_shape : list nat;
  space_meshs : list ndarray;
  ndim : nat;
  (* an opaque object that is only ever compared with [None] *)
  bd_cond : option unit;
  counter : nat;
  stop_tol : option R;
  max_iter : option Z;
  logs : list R;
  (* absent until [_initialize] has run *)
  pot_grid : option ndarray;
  energy_series : list R
}.

Definition set_mesh (self : DirichletSystem) (sp : list (list R))
  (sm : ndarray) (ss : list nat) (ms : list ndarray) (nd : nat)
  : DirichletSystem :=
  mk_DirichletSystem (variant self) (pbc self) (priors self) (pot self)
    (time_dom self) (spat_dom self) (vol self) (time_len self)
    sp sm ss ms nd
    (bd_cond self) (counter self) (stop_tol self) (max_iter self)
    (logs self) (pot_grid self) (energy_series self).

Definition set_sol_mesh (self : DirichletSystem) (a : ndarray)
  : DirichletSystem :=
  set_mesh self (spaces self) a (sol_shape self) (space_meshs self)
    (ndim self).

Definition set_run (self : DirichletSystem) (c : nat) (lg : list R)
  (pg : option ndarray) (es : list R) : DirichletSystem :=
  mk_DirichletSystem (variant self) (pbc self) (priors self) (pot self)
    (time_dom self) (spat_dom self) (vol self) (time_len self)
    (spaces self) (sol_mesh self) (sol_shape self) (space_meshs self)
    (ndim self)
    (bd_cond self) c (stop_tol self) (max_iter self) lg pg es.

Definition set_counter (self : DirichletSystem) (n : nat) : DirichletSystem :=
  set_run self n (logs self) (pot_grid self) (energy_series self).

Definition set_logs (self : DirichletSystem) (lg : list R) : DirichletSystem :=
  set_run self (counter self) lg (pot_grid self) (energy_series self).

Definition set_pot_grid (self : DirichletSystem) (pg : ndarray)
  : DirichletSystem :=
  set_run self (counter self) (logs self) (Some pg) (energy_series self).

Definition set_energy_series (self : DirichletSystem) (es : list R)
  : DirichletSystem :=
  set_run self (counter self) (logs self) (pot_grid self) es.

(** ** Grid builder *)

(** [int((dom.end - dom.start) / dom.step) + 1] *)
Definition point_count (dom : Boundary) : result Z :=
  q <- py_div (end_ dom - start dom) (step dom) ;;
  Ok (py_int q + 1)%Z.

Definition _init_mesh (self : DirichletSystem) : result DirichletSystem :=
  sp <- mapM (fun dom =>
                n <- point_count dom ;;
                np_linspace (start dom) (end_ dom) n)
             (spat_dom self) ;;
  let meshs := np_meshgrid sp in
  match meshs with
  | [] => Raise IndexError
  | m0 :: _ =>
      let sm := np_zeros (shape m0) in
      Ok (set_mesh self sp sm (shape sm) meshs (length (shape sm)))
  end.

Definition __init__ (nb : notebook) (pot' : list R -> R) (time_dom' : Boundary)
  (spatial_doms : list Boundary) (bd_cond' : option unit)
  (max_iter' : option Z) (stop_tol' : option R)
  (prior_vecs : option (list ndarray)) : result DirichletSystem :=
  let prs := match prior_vecs with None => [] | Some l => l end in
  let v := fold_right Rmult 1 (map step spatial_doms) in
  tl <- point_count time_dom' ;;
  self <- _init_mesh
            (mk_DirichletSystem nb false prs pot' time_dom' spatial_doms v tl
               [] (np_zeros []) [] [] O
               None O None None [] None []) ;;
  Ok (mk_DirichletSystem (variant self) (pbc self) (priors self) (pot self)
        (time_dom self) (spat_dom self) (vol self) (time_len self)
        (spaces self) (sol_mesh self) (sol_shape self) (space_meshs self)
        (ndim self)
        bd_cond' O stop_tol' max_iter' [] None []).

(** The default of the [stop_tol] argument. *)
Definition default_stop_tol : R := 1 / 100000.

(** ** Normalisation, ingestion and deflation *)

Definition normalize (self : DirichletSystem) (psi : ndarray)
  : result ndarray :=
  sq <- np_binop Rmult psi psi ;;
  let nn := match variant self with
            | Free2D => sqrt (np_sum sq)
            | Columb3D => sqrt (np_sum sq * vol self)
            end in
  let nn := 1 / nn in
  Ok (np_map (fun x => x * nn) psi).

Definition _apply_boundary (self : DirichletSystem) : result DirichletSystem :=
  match bd_cond self, pbc self with
  | None, false =>
      sm <- foldM (fun sm (il : nat * nat) =>
                     let (i, l) := il in
                     sm <- put_scalar (ndim self) i 0 sm 0 ;;
                     put_scalar (ndim self) i (Z.of_nat l - 1) sm 0)
                  (combine (seq 0 (length (sol_shape self))) (sol_shape self))
                  (sol_mesh self) ;;
      Ok (set_sol_mesh self sm)
  | _, _ => Ok self
  end.

Definition _initialize (self : DirichletSystem) (psi0_grid : ndarray)
  : result DirichletSystem :=
  let self := set_sol_mesh self psi0_grid in
  self <- _apply_boundary self ;;
  let pot_grid :=
    {| shape := sol_shape self;
       data := fun idx => pot self (map (fun m => data m idx)
                                        (space_meshs self)) |} in
  Ok (set_pot_grid self pot_grid).

Definition set_psi0_by_grid (self : DirichletSystem) (psi0_grid : ndarray)
  : result DirichletSystem :=
  _initialize self psi0_grid.

(** The body of the loop of [_prepare] for the prior [vec]; [psi] aliases
    [self.sol_mesh], which the loop updates in place. *)
Definition deflate (self : DirichletSystem) (psi vec : ndarray)
  : result ndarray :=
  nv <- normalize self vec ;;
  pv <- np_binop Rmult psi nv ;;
  let inner := np_sum (np_map (fun x => x * vol self) pv) in
  np_inplace Rminus psi (np_map (fun x => inner * x) vec).

Definition _prepare (self : DirichletSystem) : result DirichletSystem :=
  sm <- foldM (deflate self) (priors self) (sol_mesh self) ;;
  Ok (set_sol_mesh self sm).

(** ** The stepping loop *)

(** [px[ind2] = px[ind0] + (1/3) * px[ind3] - (1/3) * px[ind1]], the
    extrapolation of the periodic branch along axis [i]. *)
Definition extrapolate (nd i : nat) (px : ndarray) : result ndarray :=
  p0 <- take nd i 0 px ;;
  p3 <- take nd i (-2) px ;;
  p1 <- take nd i 1 px ;;
  s <- np_binop Rplus p0 (np_map (fun x => 1 / 3 * x) p3) ;;
  rhs <- np_binop Rminus s (np_map (fun x => 1 / 3 * x) p1) ;;
  put nd i (-1) px rhs.

(** [term = px[ind2] + px[ind3] - 2.0 * px[ind1]] on the three slices. *)
Definition stencil (nd i : nat) (px : ndarray) : result ndarray :=
  x2 <- slice nd i 0 2 px ;;
  x3 <- slice nd i 2 0 px ;;
  s <- np_binop Rplus x2 x3 ;;
  x1 <- slice nd i 1 1 px ;;
  np_binop Rminus s (np_map (fun x => 2 * x) x1).

(** The four in-place updates of [term] in the periodic branch. *)
Definition wrap_around (nd i : nat) (px term : ndarray) : result ndarray :=
  p3 <- take nd i (-2) px ;;
  term <- np_inplace Rplus term p3 ;;
  p1 <- take nd i 1 px ;;
  term <- np_inplace Rplus term p1 ;;
  p0 <- take nd i 0 px ;;
  term <- np_inplace Rminus term p0 ;;
  p2 <- take nd i (-1) px ;;
  np_inplace Rminus term p2.

(** One pass of the loop over the axes: the periodic extrapolation of [px],
    the second difference [term] along axis [i], and its accumulation into
    the interior of [kine].  [px] aliases [self.sol_mesh]. *)
Definition kinetic_axis (self : DirichletSystem) (acc : ndarray * ndarray)
  (i : nat) : result (ndarray * ndarray) :=
  let nd := ndim self in
  px <- (if pbc self then extrapolate nd i (fst acc) else Ok (fst acc)) ;;
  term <- stencil nd i px ;;
  term <- (if pbc self then wrap_around nd i px term else Ok term) ;;
  match nth_error (spat_dom self) i with
  | None => Raise IndexError
  | Some dom =>
      let term := np_map (fun x => x / (2 * step dom ^ 2)) term in
      kine <- iadd_slice nd i 1 1 (snd acc) term ;;
      Ok (px, kine)
  end.

(** The axis loop of one iteration, started from the zero-filled [kine]. *)
Definition kinetic (self : DirichletSystem) : result (ndarray * ndarray) :=
  foldM (kinetic_axis self) (seq 0 (ndim self))
        (sol_mesh self, np_zeros (sol_shape self)).

(** The part of the loop body before the energy estimate: the counter, the
    deflation and the axis loop.  It yields the state holding the pre-update
    solution, and the kinetic term. *)
Definition pre_update (self : DirichletSystem) (n : nat)
  : result (DirichletSystem * ndarray) :=
  let self := set_counter self n in
  self <- _prepare self ;;
  pk <- kinetic self ;;
  Ok (set_sol_mesh self (fst pk), snd pk).

(** [energy_before] *)
Definition energy (pg px kine : ndarray) : result R :=
  a <- np_binop Rmult pg px ;;
  a <- np_binop Rmult a px ;;
  b <- np_binop Rmult kine px ;;
  c <- np_binop Rmult px px ;;
  Ok ((np_sum a - np_sum b) / np_sum c).

(** [self.sol_mesh = alpha * self.sol_mesh; self.sol_mesh += dt * beta * kine] *)
Definition update (alpha beta : ndarray) (dt : R) (px kine : ndarray)
  : result ndarray :=
  sm <- np_binop Rmult alpha px ;;
  dbk <- np_binop Rmult (np_map (fun x => dt * x) beta) kine ;;
  np_inplace Rplus sm dbk.

(** The logging of the norm and the rescaling that follow the update. *)
Definition renormalize (self : DirichletSystem) : result DirichletSystem :=
  let psi := sol_mesh self in
  sq <- np_binop Rmult psi psi ;;
  let nn2 := np_sum sq * vol self in
  let self := set_logs self (logs self ++ [sqrt nn2]) in
  sm <- normalize self (sol_mesh self) ;;
  Ok (set_sol_mesh self sm).

Definition setitem (l : list R) (n : nat) (x : R) : result (list R) :=
  if (n <? length l)%nat then Ok (list_set l n x) else Raise IndexError.

(** The test that ends the loop early after iteration [n]. *)
Definition stop_test (self : DirichletSystem) (n : nat) (energy_before : R)
  : bool :=
  match n, stop_tol self with
  | S m, Some tol =>
      let error := Rabs (1 - nth m (energy_series self) 0 / energy_before) in
      if Rlt_dec error tol then true else false
  | _, _ => false
  end.

(** The body of the loop for the counter value [n]; the boolean tells
    whether the body ended in [break]. *)
Definition iteration (alpha beta pg : ndarray) (dt : R)
  (self : DirichletSystem) (n : nat) : result (DirichletSystem * bool) :=
  sk <- pre_update self n ;;
  let self := fst sk in
  let kine := snd sk in
  energy_before <- energy pg (sol_mesh self) kine ;;
  es <- setitem (energy_series self) n energy_before ;;
  let self := set_energy_series self es in
  self <- (if (Z.of_nat n + 1 <? time_len self)%Z then
             sm <- update alpha beta dt (sol_mesh self) kine ;;
             renormalize (set_sol_mesh self sm)
           else Ok self) ;;
  Ok (self, stop_test self n energy_before).

(** [for n in range(0, t_len)], entered at counter value [n] with [fuel]
    values left in the range.  The second component of the result counts the
    iterations completed so far; it is a ghost value, not held by the
    program. *)
Fixpoint solve_loop (alpha beta pg : ndarray) (dt : R) (fuel n : nat)
  (self : DirichletSystem) : result (DirichletSystem * nat) :=
  match fuel with
  | O => Ok (self, n)
  | S fuel' =>
      sb <- iteration alpha beta pg dt self n ;;
      if snd sb then Ok (fst sb, S n)
      else solve_loop alpha beta pg dt fuel' (S n) (fst sb)
  end.

(** The bound of the loop. *)
Definition t_len (self : DirichletSystem) : Z :=
  match max_iter self with
  | Some m => if (m <? time_len self)%Z then m else time_len self
  | None => time_len self
  end.

Definition get_pot_grid (self : DirichletSystem) : result ndarray :=
  match pot_grid self with
  | Some pg => Ok pg
  | None => Raise AttributeError
  end.

Definition beta_of (dt : R) (pg : ndarray) : ndarray :=
  np_map (fun v => 1 / (1 + 0.5 * dt * v)) pg.

Definition alpha_of (dt : R) (pg beta : ndarray) : result ndarray :=
  np_binop Rmult (np_map (fun v => 1 - 0.5 * dt * v) pg) beta.

Definition solve (self : DirichletSystem) : result (DirichletSystem * nat) :=
  let dt := step (time_dom self) in
  es <- (if (time_len self <? 0)%Z then Raise ValueError
         else Ok (repeat 0 (Z.to_nat (time_len self)))) ;;
  let self := set_energy_series self es in
  pg <- get_pot_grid self ;;
  let beta := beta_of dt pg in
  alpha <- alpha_of dt pg beta ;;
  self <- _prepare self ;;
  solve_loop alpha beta pg dt (Z.to_nat (t_len self)) 0 self.

Definition get_solution (self : DirichletSystem) : list (list R) * ndarray :=
  (spaces self, sol_mesh self).

Definition get_energy (self : DirichletSystem) : list R :=
  energy_series self.

(** ** Notions used to state the properties *)

(** The volume-weighted inner product of two fields over the grid [sh]. *)
Definition winner (w : R) (sh : list nat) (f g : index -> R) : R :=
  sum_over sh (fun idx => f idx * g idx) * w.

(** The volume-weighted L2 norm, [sqrt(sum(a^2) * w)]. *)
Definition wnorm (w : R) (a : ndarray) : R :=
  sqrt (sum_over (shape a) (fun idx => data a idx * data a idx) * w).

(** A point of the grid [sh] with index 0 or index extent-1 along an axis. *)
Definition boundary_point (sh : list nat) (idx : index) : Prop :=
  exists i, (i < length sh)%nat /\
            (nth i idx O = O \/ nth i idx O = (nth i sh O - 1)%nat).

(** A field that is zero at every boundary point of the grid [sh]. *)
Definition vanishes_on_boundary (sh : list nat) (f : index -> R) : Prop :=
  forall idx, in_shape idx sh -> boundary_point sh idx -> f idx = 0.

Definition zero_on_boundary (a : ndarray) : Prop :=
  vanishes_on_boundary (shape a) (data a).

(** The second difference of [px] along axis [i] at [idx], over twice the
    squared step, on the interior of that axis and 0 elsewhere. *)
Definition second_diff (sh : list nat) (h : R) (px : index -> R) (i : nat)
  (idx : index) : R :=
  if ((1 <=? nth i idx O) && (nth i idx O <? nth i sh O - 1))%nat
  then (px (replace_at i (nth i idx O - 1)%nat idx)
        + px (replace_at i (nth i idx O + 1)%nat idx)
        - 2 * px idx) / (2 * h ^ 2)
  else 0.

(** The Rayleigh quotient that [energy] computes on arrays of one shape. *)
Definition rayleigh (sh : list nat) (v px kine : index -> R) : R :=
  (sum_over sh (fun idx => v idx * px idx * px idx)
   - sum_over sh (fun idx => kine idx * px idx))
  / sum_over sh (fun idx => px idx * px idx).

(** The arrays of a solver all have the shape of its grid. *)
Record well_shaped (self : DirichletSystem) : Prop := mk_well_shaped {
  ws_ndim : ndim self = length (sol_shape self);
  ws_doms : length (spat_dom self) = ndim self;
  ws_sol : shape (sol_mesh self) = sol_shape self;
  ws_priors : Forall (fun v => shape v = sol_shape self) (priors self)
}.

(** The state after the first [k] passes through the loop body, when none of
    them is cut short by [break]. *)
Fixpoint iterate (alpha beta pg : ndarray) (dt : R) (k : nat)
  (self : DirichletSystem) : result DirichletSystem :=
  match k with
  | O => Ok self
  | S k' =>
      s <- iterate alpha beta pg dt k' self ;;
      sb <- iteration alpha beta pg dt s k' ;;
      Ok (fst sb)
  end.

(** [a] has shape [sh] and holds the values of [f] there. *)
Definition agrees (a : ndarray) (sh : list nat) (f : index -> R) : Prop :=
  shape a = sh /\ forall idx, in_shape idx sh -> data a idx = f idx.

(** The norm that [normalize] divides by, for a field [f] over [sh]. *)
Definition norm_of (nb : notebook) (w : R) (sh : list nat) (f : index -> R)
  : R :=
  match nb with
  | Free2D => sqrt (sum_over sh (fun idx => f idx * f idx))
  | Columb3D => sqrt (sum_over sh (fun idx => f idx * f idx) * w)
  end.

(** What [deflate] leaves in the solution [fs] for the prior [fv]. *)
Definition deflated (nb : notebook) (w : R) (sh : list nat)
  (fs fv : index -> R) : index -> R :=
  fun idx =>
    fs idx
    - sum_over sh (fun j => fs j * (fv j * (1 / norm_of nb w sh fv)) * w)
      * fv idx.

(** The kinetic term accumulated over the first [k] axes in Dirichlet mode. *)
Fixpoint kinetic_term (sh : list nat) (hs : list R) (px : index -> R)
  (k : nat) (idx : index) : R :=
  match k with
  | O => 0
  | S k' => kinetic_term sh hs px k' idx
            + second_diff sh (nth k' hs 0) px k' idx
  end.

(** [|1 - E[n-1] / E[n]|], the relative change of the energy after
    iteration [n]. *)
Definition relative_change (E : list R) (n : nat) : R :=
  Rabs (1 - nth (n - 1) E 0 / nth n E 0).

(** The smaller of the step count of the time domain and the override. *)
Definition scheduled (self : DirichletSystem) : Z :=
  match max_iter self with
  | Some m => Z.min (time_len self) m
  | None => time_len self
  end.

(** The state [solve] enters its loop with. *)
Definition loop_entry (self : DirichletSystem) : result DirichletSystem :=
  _prepare (set_energy_series self (repeat 0 (Z.to_nat (time_len self)))).

(** The state [solve] holds when it enters the pass for the counter value
    [n], provided no earlier pass ended in [break]; for [n + 1] it is the
    state the pass for [n] leaves. *)
Definition state_before (self : DirichletSystem) (n : nat)
  : result DirichletSystem :=
  let dt := step (time_dom self) in
  pg <- get_pot_grid self ;;
  alpha <- alpha_of dt pg (beta_of dt pg) ;;
  s0 <- loop_entry self ;;
  iterate alpha (beta_of dt pg) pg dt n s0.

(** A solver whose last scheduled pass, when it runs, leaves the solution it
    held before the update and logs no norm. *)
Definition final_pass_skips_update (self : DirichletSystem) : Prop :=
  forall self' K n sn px kine,
    solve self = Ok (self', K) ->
    Z.of_nat (S n) = scheduled self -> (n < K)%nat ->
    state_before self n = Ok sn ->
    pre_update sn n = Ok (set_sol_mesh (set_counter sn n) px, kine) ->
    sol_mesh self' = px /\ logs self' = logs sn.

(** The solution a pass leaves in Dirichlet mode when it updates: with [P]
    the deflated solution, [U = alpha * P + dt * beta * kinetic term of P]
    scaled by the reciprocal of its norm. *)
Definition deflated_all (nb : notebook) (w : R) (sh : list nat)
  (vs : list ndarray) (f : index -> R) : index -> R :=
  fold_left (deflated nb w sh) (map data vs) f.

Definition updated (sh : list nat) (hs : list R) (dt : R)
  (fa fb P : index -> R) : index -> R :=
  fun idx => fa idx * P idx
             + dt * fb idx * kinetic_term sh hs P (length sh) idx.

Definition normalized (nb : notebook) (w : R) (sh : list nat)
  (U : index -> R) : index -> R :=
  fun idx => U idx * (1 / norm_of nb w sh U).



(** A solver that reports a field of another shape than its grid when the
    field is handed to it. *)
Definition rejects_shape_mismatch (self : DirichletSystem) : Prop :=
  forall psi0, shape psi0 <> sol_shape self ->
               exists e, set_psi0_by_grid self psi0 = Raise e.

(** The field [f] after the periodic extrapolation along axis [i]. *)
Definition extrapolated (sh : list nat) (i : nat) (f : index -> R)
  : index -> R :=
  fun idx =>
    if (nth i idx O =? nth i sh O - 1)%nat
    then f (replace_at i 0 idx)
         + 1 / 3 * f (replace_at i (nth i sh O - 2) idx)
         - 1 / 3 * f (replace_at i 1 idx)
    else f idx.

(** The value of [f] at the last point along axis [i] is
    [f[0] + (1/3) f[-2] - (1/3) f[1]], on every line along that axis. *)
Definition periodic_along (sh : list nat) (i : nat) (f : index -> R) : Prop :=
  forall idx, in_shape idx sh -> nth i idx O = (nth i sh O - 1)%nat ->
    f idx = f (replace_at i 0 idx)
            + 1 / 3 * f (replace_at i (nth i sh O - 2) idx)
            - 1 / 3 * f (replace_at i 1 idx).

(** A solver for which the solution every pass holds before its update is
    periodic along every axis. *)
Definition periodic_every_pass (self : DirichletSystem) : Prop :=
  forall n sn s1 kine,
    state_before self n = Ok sn -> pre_update sn n = Ok (s1, kine) ->
    forall i, (i < length (sol_shape self))%nat ->
      periodic_along (sol_shape self) i (data (sol_mesh s1)).

(** ** Concrete solvers

    One-dimensional solvers on three-point grids, written as the states the
    constructor and [set_psi0_by_grid] leave. *)

(** [np.array([0., 1., 0.])] *)
Definition bump3 : ndarray :=
  {| shape := [3%nat];
     data := fun idx => match idx with [1%nat] => 1 | _ => 0 end |}.

(** A solver for the zero potential on the grid of the points [xs] of
    [dom_x], after the ingestion of [psi]. *)
Definition line_solver (nb : notebook) (per : bool) (prs : list ndarray)
  (dom_t dom_x : Boundary) (tl : Z) (xs : list R) (psi : ndarray)
  (mi : option Z) : DirichletSystem :=
  mk_DirichletSystem nb per prs (fun _ => 0) dom_t [dom_x]
    (step dom_x * 1) tl [xs] psi [length xs] (np_meshgrid [xs]) 1
    None O None mi [] (Some (np_zeros [length xs])) [].

(** [DirichletSystem(pot, Boundary(0, 0.5, 0.25), [Boundary(0, 2, 1)],
    stop_tol=None, max_iter=1)] of "2d free" after
    [set_psi0_by_grid(np.array([0., 1., 0.]))]: three time steps, of which
    the override schedules one. *)
Definition capped_solver : DirichletSystem :=
  line_solver Free2D false [] (mk_Boundary 0 (1 / 2) (1 / 4))
    (mk_Boundary 0 2 1) 3 [0; 1; 2] bump3 (Some 1%Z).

(** [DirichletSystem(pot, Boundary(0, 1, 0.125), [Boundary(0, 1, 0.5)],
    stop_tol=None)] of "2d free" after
    [set_psi0_by_grid(np.array([0., 1., 0.]))]: the volume element is 1/2. *)
Definition half_step_solver : DirichletSystem :=
  line_solver Free2D false [] (mk_Boundary 0 1 (1 / 8))
    (mk_Boundary 0 1 (1 / 2)) 9 [0; 1 / 2; 1] bump3 None.

(** [DirichletSystem(pot, Boundary(0, 0, 1), [Boundary(0, 2, 1)],
    stop_tol=None, prior_vecs=prs)] before any ingestion; one time step. *)
Definition fresh_solver (nb : notebook) (prs : list ndarray)
  : DirichletSystem :=
  mk_DirichletSystem nb false prs (fun _ => 0) (mk_Boundary 0 0 1)
    [mk_Boundary 0 2 1] (1 * 1) 1 [[0; 1; 2]] (np_zeros [3%nat]) [3%nat]
    (np_meshgrid [[0; 1; 2]]) 1 None O None None [] None [].

(** [np.array([0.6, 0.8, 0.])]: unit norm, not zero at index 0. *)
Definition edge_prior : ndarray :=
  {| shape := [3%nat];
     data := fun idx => match idx with
                        | [0%nat] => 3 / 5
                        | [1%nat] => 4 / 5
                        | _ => 0
                        end |}.

(** [np.array([0., 2., 0.])]: zero on the boundary, norm 2. *)
Definition double_bump : ndarray :=
  {| shape := [3%nat];
     data := fun idx => match idx with [1%nat] => 2 | _ => 0 end |}.

(** [np.array([0., 1., 0., 0.])], one point longer than the grid. *)
Definition long_bump : ndarray :=
  {| shape := [4%nat];
     data := fun idx => match idx with [1%nat] => 1 | _ => 0 end |}.

(** The solver of "3d columb" on the three-point grid, holding
    [np.array([0., 1., 0.])], with the prior [double_bump]. *)
Definition double_prior_solver : DirichletSystem :=
  line_solver Columb3D false [double_bump] (mk_Boundary 0 0 1)
    (mk_Boundary 0 2 1) 1 [0; 1; 2] bump3 None.

(** [np.array([1., 0.])] *)
Definition step2 : ndarray :=
  {| shape := [2%nat];
     data := fun idx => match idx with [0%nat] => 1 | _ => 0 end |}.

(** [np.array([1., 0., 0., 0.])] *)
Definition step4 : ndarray :=
  {| shape := [4%nat];
     data := fun idx => match idx with [0%nat] => 1 | _ => 0 end |}.

(** A solver on a two-point grid whose [pbc] attribute was set. *)
Definition two_point_wrap : DirichletSystem :=
  line_solver Free2D true [] (mk_Boundary 0 0 1) (mk_Boundary 0 1 1) 1
    [0; 1] step2 None.

(** A solver on a four-point grid whose [pbc] attribute was set. *)
Definition four_point_wrap : DirichletSystem :=
  line_solver Free2D true [] (mk_Boundary 0 0 1) (mk_Boundary 0 3 1) 1
    [0; 1; 2; 3] step4 None.




(** Priors of unit weighted norm that are mutually orthogonal. *)
Definition orthonormal_priors (self : DirichletSystem) : Prop :=
  Forall (fun v => winner (vol self) (sol_shape self) (data v) (data v) = 1)
         (priors self) /\
  ForallOrdPairs
    (fun u v => winner (vol self) (sol_shape self) (data u) (data v) = 0)
    (priors self).

(** The solver of "3d columb" on the three-point grid, holding
    [np.array([0., 2., 0.])], with the unit prior [np.array([0., 1., 0.])]. *)
Definition unit_prior_solver : DirichletSystem :=
  line_solver Columb3D false [bump3] (mk_Boundary 0 0 1)
    (mk_Boundary 0 2 1) 1 [0; 1; 2] double_bump None.

(** ** The remaining accessor, the potential of "3d columb", and further
    solvers *)

(** The coordinates of the grid point at [idx] on the axes [sp]. *)
Definition grid_point (sp : list (list R)) (idx : index) : list R :=
  map (fun k => nth (nth k idx O) (nth k sp []) 0) (seq 0 (length sp)).

(** [get_full_mesh] *)
Definition get_full_mesh (self : DirichletSystem) : list (list R) * ndarray :=
  (spaces self, sol_mesh self).

(** [DirichletSystem(pot, Boundary(0, 0.5, 0.25), [Boundary(0, 2, 1)],
    stop_tol=0.0)] of "2d free" after
    [set_psi0_by_grid(np.array([0., 1., 0.]))]: three time steps. *)
Definition zero_tol_solver : DirichletSystem :=
  mk_DirichletSystem Free2D false [] (fun _ => 0)
    (mk_Boundary 0 (1 / 2) (1 / 4)) [mk_Boundary 0 2 1] (1 * 1) 3
    [[0; 1; 2]] bump3 [3%nat] (np_meshgrid [[0; 1; 2]]) 1
    None O (Some 0) None [] (Some (np_zeros [3%nat])) [].

(** A solver of "2d free" on the 2 x 2 grid of [Boundary(0, 1, 1)] per
    axis, holding zeros, whose [pbc] attribute was set. *)
Definition square_wrap : DirichletSystem :=
  mk_DirichletSystem Free2D true [] (fun _ => 0) (mk_Boundary 0 0 1)
    [mk_Boundary 0 1 1; mk_Boundary 0 1 1] (1 * (1 * 1)) 1
    [[0; 1]; [0; 1]] (np_zeros [2%nat; 2%nat]) [2%nat; 2%nat]
    (np_meshgrid [[0; 1]; [0; 1]]) 2
    None O None None [] (Some (np_zeros [2%nat; 2%nat])) [].

(** [DirichletSystem(pot, Boundary(0, 0, 1), [Boundary(0, 1, 1)],
    stop_tol=None)] of "2d free" before any ingestion: a grid of two
    points. *)
Definition two_point_line : DirichletSystem :=
  mk_DirichletSystem Free2D false [] (fun _ => 0) (mk_Boundary 0 0 1)
    [mk_Boundary 0 1 1] (1 * 1) 1 [[0; 1]] (np_zeros [2%nat]) [2%nat]
    (np_meshgrid [[0; 1]]) 1 None O None None [] None [].

(** What the periodic branch accumulates on one axis of [m] points with
    step [h], for the extrapolated field [f]: at an interior point the
    second difference plus the wrap-around terms
    [f[-2] + f[1] - f[0] - f[-1]], over twice the squared step; 0 at the
    two end points. *)
Definition wrap_second_diff (m : nat) (h : R) (f : index -> R)
  (idx : index) : R :=
  let j := nth 0 idx O in
  if ((1 <=? j) && (j <? m - 1))%nat
  then (f [(j - 1)%nat] + f [(j + 1)%nat] - 2 * f [j]
        + f [(m - 2)%nat] + f [1%nat] - f [O] - f [(m - 1)%nat])
       / (2 * h ^ 2)
  else 0.

Module Columb.

(** [pot(x, y, z, eps, cut)] of "3d columb"; [cut] defaults to [1.0 / dx].
    [r] is a numpy scalar, [cut] a Python float. *)
Definition pot (x y z eps cut : R) : result R :=
  let r := sqrt (x * x + y * y + z * z) in
  q <- py_div 1 cut ;;
  Ok (if Rlt_dec r q then 0 else cut - 1 / r).

End Columb.

(** ** Array objects and aliasing

    The definitions above pass arrays by value.  The class holds its
    solution in an array object that the caller supplied and that other
    names may refer to; the definitions below follow the objects.  A heap
    lists the array objects, an object is named by its position, and
    [sol_ref] is the object [self.sol_mesh] is bound to.  An in-place
    operation ([a[ind] = v], [a -= b], [a += b]) stores into the object; an
    assignment of a computed array ([a = b * c]) binds the attribute to a
    new object.  Only the objects [self.sol_mesh] is bound to at some time
    are followed; the priors are taken to be other objects. *)

Definition loc := nat.

Definition heap := list ndarray.

Definition deref (h : heap) (p : loc) : ndarray := nth p h (np_zeros []).

Fixpoint store (h : heap) (p : loc) (a : ndarray) : heap :=
  match h, p with
  | [], _ => []
  | _ :: h', O => a :: h'
  | b :: h', S p' => b :: store h' p' a
  end.

Definition alloc (h : heap) (a : ndarray) : heap * loc :=
  (h ++ [a], length h).

(** A solver object: the attributes other than [sol_mesh] are those of
    [attrs]; the solution is the content of the object [sol_ref]. *)
Record object : Type := mk_object {
  attrs : DirichletSystem;
  sol_ref : loc
}.

(** The attributes of [o] with the solution read from the heap. *)
Definition view (h : heap) (o : object) : DirichletSystem :=
  set_sol_mesh (attrs o) (deref h (sol_ref o)).

(** A method that changes [self.sol_mesh] by in-place operations only:
    [_apply_boundary] and [_prepare]. *)
Definition in_place (f : DirichletSystem -> result DirichletSystem)
  (h : heap) (o : object) : result (heap * object) :=
  s <- f (view h o) ;;
  Ok (store h (sol_ref o) (sol_mesh s), mk_object s (sol_ref o)).

(** [set_psi0_by_grid(psi0_grid)] for the array object [p]:
    [self.sol_mesh = psi0_grid] binds the attribute to that object, and
    [_apply_boundary] stores into it. *)
Definition set_psi0_by_grid_obj (h : heap) (o : object) (p : loc)
  : result (heap * object) :=
  ho <- in_place _apply_boundary h (mk_object (attrs o) p) ;;
  let self := attrs (snd ho) in
  let pot_grid :=
    {| shape := sol_shape self;
       data := fun idx => pot self (map (fun m => data m idx)
                                        (space_meshs self)) |} in
  Ok (fst ho, mk_object (set_pot_grid self pot_grid) (sol_ref (snd ho))).

(** The body of the loop on objects.  [_prepare] and the periodic
    extrapolation store into the object of the solution;
    [self.sol_mesh = alpha * self.sol_mesh] binds a new object, which
    [+=] stores into, and [self.sol_mesh = self.normalize(self.sol_mesh)]
    binds another. *)
Definition iteration_obj (alpha beta pg : ndarray) (dt : R) (h : heap)
  (o : object) (n : nat) : result (heap * object * bool) :=
  sk <- pre_update (view h o) n ;;
  let self := fst sk in
  let kine := snd sk in
  let h := store h (sol_ref o) (sol_mesh self) in
  energy_before <- energy pg (sol_mesh self) kine ;;
  es <- setitem (energy_series self) n energy_before ;;
  let self := set_energy_series self es in
  if (Z.of_nat n + 1 <? time_len self)%Z then
    sm <- update alpha beta dt (sol_mesh self) kine ;;
    let h := fst (alloc h sm) in
    self <- renormalize (set_sol_mesh self sm) ;;
    let hp := alloc h (sol_mesh self) in
    Ok (fst hp, mk_object self (snd hp), stop_test self n energy_before)
  else
    Ok (h, mk_object self (sol_ref o), stop_test self n energy_before).

Fixpoint solve_loop_obj (alpha beta pg : ndarray) (dt : R) (fuel n : nat)
  (h : heap) (o : object) : result (heap * object * nat) :=
  match fuel with
  | O => Ok (h, o, n)
  | S fuel' =>
      r <- iteration_obj alpha beta pg dt h o n ;;
      let ho := fst r in
      if snd r then Ok (ho, S n)
      else solve_loop_obj alpha beta pg dt fuel' (S n) (fst ho) (snd ho)
  end.

(** [solve] on objects. *)
Definition solve_obj (h : heap) (o : object)
  : result (heap * object * nat) :=
  let self := attrs o in
  let dt := step (time_dom self) in
  es <- (if (time_len self <? 0)%Z then Raise ValueError
         else Ok (repeat 0 (Z.to_nat (time_len self)))) ;;
  let o := mk_object (set_energy_series self es) (sol_ref o) in
  pg <- get_pot_grid (attrs o) ;;
  let beta := beta_of dt pg in
  alpha <- alpha_of dt pg beta ;;
  ho <- in_place _prepare h o ;;
  solve_loop_obj alpha beta pg dt (Z.to_nat (t_len (attrs (snd ho)))) 0
    (fst ho) (snd ho).

(** [get_solution] on objects: the axes and the object of the solution. *)
Definition get_solution_obj (o : object) : list (list R) * loc :=
  (spaces (attrs o), sol_ref o).

(** * Properties *)

(** ** Sums over a grid *)

Lemma sum_upto_ext (n : nat) (f g : nat -> R) :
  (forall i, (i < n)%nat -> f i = g i) -> sum_upto n f = sum_upto n g.
Proof.
  induction n as [|n IH]; intros H; simpl; [reflexivity|].
  rewrite IH by (intros; apply H; lia).
  rewrite (H n) by lia. reflexivity.
Qed.

Lemma sum_upto_plus (n : nat) (f g : nat -> R) :
  sum_upto n (fun i => f i + g i) = sum_upto n f + sum_upto n g.
Proof. induction n as [|n IH]; simpl; [lra|rewrite IH; lra]. Qed.

Lemma sum_upto_scal (n : nat) (c : R) (f : nat -> R) :
  sum_upto n (fun i => c * f i) = c * sum_upto n f.
Proof. induction n as [|n IH]; simpl; [lra|rewrite IH; lra]. Qed.


Lemma sum_over_ext (sh : list nat) (f g : index -> R) :
  (forall idx, in_shape idx sh -> f idx = g idx) ->
  sum_over sh f = sum_over sh g.
Proof.
  revert f g. induction sh as [|n sh IH]; intros f g H; simpl.
  - apply H. constructor.
  - apply sum_upto_ext. intros i Hi. apply IH.
    intros idx Hidx. apply H. constructor; assumption.
Qed.

Lemma sum_over_plus (sh : list nat) (f g : index -> R) :
  sum_over sh (fun idx => f idx + g idx) = sum_over sh f + sum_over sh g.
Proof.
  revert f g. induction sh as [|n sh IH]; intros f g; simpl; [reflexivity|].
  rewrite <- sum_upto_plus. apply sum_upto_ext. intros i _. apply IH.
Qed.

Lemma sum_over_scal (sh : list nat) (c : R) (f : index -> R) :
  sum_over sh (fun idx => c * f idx) = c * sum_over sh f.
Proof.
  revert f. induction sh as [|n sh IH]; intros f; simpl; [reflexivity|].
  rewrite <- sum_upto_scal. apply sum_upto_ext. intros i _. apply IH.
Qed.

Lemma sum_over_minus (sh : list nat) (f g : index -> R) :
  sum_over sh (fun idx => f idx - g idx) = sum_over sh f - sum_over sh g.
Proof.
  unfold Rminus. rewrite sum_over_plus. f_equal.
  rewrite <- (Rmult_1_l (sum_over sh g)), Ropp_mult_distr_l.
  rewrite <- sum_over_scal. apply sum_over_ext. intros; lra.
Qed.

(** ** Indices and shapes *)

Lemma in_shape_length (idx : index) (sh : list nat) :
  in_shape idx sh -> length idx = length sh.
Proof. intros H. induction H; simpl; congruence. Qed.

Lemma in_shape_nth (idx : index) (sh : list nat) (i : nat) :
  in_shape idx sh -> (i < length sh)%nat -> (nth i idx O < nth i sh O)%nat.
Proof.
  intros H. revert i. induction H as [|a b idx sh Hab H IH]; intros i Hi.
  - simpl in Hi. lia.
  - destruct i; simpl in *; [assumption|apply IH; lia].
Qed.

Lemma bc_index_aux_id (s : list nat) (idx : index) :
  in_shape idx s -> bc_index_aux s idx = idx.
Proof.
  intros H. induction H as [|a b idx s Hab H IH]; simpl; [reflexivity|].
  rewrite IH. destruct (Nat.eqb_spec b 1); [f_equal; lia|reflexivity].
Qed.

Lemma bc_index_id (s : list nat) (idx : index) :
  in_shape idx s -> bc_index s idx = idx.
Proof.
  intros H. unfold bc_index. rewrite (in_shape_length _ _ H), Nat.sub_diag.
  simpl. apply bc_index_aux_id, H.
Qed.

Lemma bc_zip_same (s : list nat) : bc_zip s s = Some s.
Proof.
  induction s as [|a s IH]; simpl; [reflexivity|].
  rewrite IH, Nat.eqb_refl. reflexivity.
Qed.

Lemma broadcast_shapes_same (s : list nat) : broadcast_shapes s s = Some s.
Proof.
  unfold broadcast_shapes, pad_shape.
  rewrite Nat.max_id, Nat.sub_diag. simpl. apply bc_zip_same.
Qed.

Lemma shape_eqb_refl (s : list nat) : shape_eqb s s = true.
Proof. unfold shape_eqb. destruct (list_eq_dec Nat.eq_dec s s); congruence. Qed.

Lemma shape_eqb_eq (s t : list nat) : shape_eqb s t = true -> s = t.
Proof. unfold shape_eqb. destruct (list_eq_dec Nat.eq_dec s t); congruence. Qed.

Lemma firstn_in_shape (i : nat) (idx : index) (sh : list nat) :
  in_shape idx sh -> in_shape (firstn i idx) (firstn i sh).
Proof.
  intros H. revert i.
  induction H as [|a b idx sh Hab H IH]; intros [|i]; simpl;
    constructor; auto.
  apply IH.
Qed.

Lemma skipn_in_shape (i : nat) (idx : index) (sh : list nat) :
  in_shape idx sh -> in_shape (skipn i idx) (skipn i sh).
Proof.
  intros H. revert i.
  induction H as [|a b idx sh Hab H IH]; intros [|i]; simpl.
  - constructor.
  - constructor.
  - constructor; assumption.
  - apply IH.
Qed.

Lemma app_in_shape (i1 i2 : index) (s1 s2 : list nat) :
  in_shape i1 s1 -> in_shape i2 s2 -> in_shape (i1 ++ i2) (s1 ++ s2).
Proof. intros H1 H2. apply Forall2_app; assumption. Qed.

Lemma replace_at_in_shape (i k m : nat) (idx : index) (sh : list nat) :
  in_shape idx sh -> (k < m)%nat ->
  in_shape (replace_at i k idx) (replace_at i m sh).
Proof.
  intros H Hk. unfold replace_at. apply app_in_shape.
  - apply firstn_in_shape, H.
  - constructor; [assumption|apply skipn_in_shape, H].
Qed.

Lemma remove_at_in_shape (i : nat) (idx : index) (sh : list nat) :
  in_shape idx sh -> in_shape (remove_at i idx) (remove_at i sh).
Proof.
  intros H. unfold remove_at. apply app_in_shape.
  - apply firstn_in_shape, H.
  - apply skipn_in_shape, H.
Qed.

Lemma replace_at_length (i k : nat) (l : list nat) :
  (i < length l)%nat -> length (replace_at i k l) = length l.
Proof.
  revert i. induction l as [|a l IH]; intros i H; simpl in H; [lia|].
  destruct i as [|i]; [reflexivity|].
  unfold replace_at in *. simpl. f_equal. apply IH. lia.
Qed.

Lemma nth_replace_at_eq (i k : nat) (l : list nat) :
  (i < length l)%nat -> nth i (replace_at i k l) O = k.
Proof.
  revert i. induction l as [|a l IH]; intros i H; simpl in H; [lia|].
  destruct i as [|i]; [reflexivity|].
  unfold replace_at in *. simpl. apply IH. lia.
Qed.

Lemma nth_replace_at_neq (i j k : nat) (l : list nat) :
  (i < length l)%nat -> i <> j -> nth j (replace_at i k l) O = nth j l O.
Proof.
  revert i j. induction l as [|a l IH]; intros i j H Hij; simpl in H; [lia|].
  destruct i as [|i]; destruct j as [|j]; try lia; try reflexivity.
  unfold replace_at in *. simpl. apply (IH i j); lia.
Qed.

Lemma replace_at_nth (i : nat) (l : list nat) :
  (i < length l)%nat -> replace_at i (nth i l O) l = l.
Proof.
  revert i. induction l as [|a l IH]; intros i H; simpl in H; [lia|].
  destruct i as [|i]; [reflexivity|].
  unfold replace_at in *. simpl. f_equal. apply IH. lia.
Qed.

Lemma replace_at_twice (i a b : nat) (l : list nat) :
  (i < length l)%nat -> replace_at i a (replace_at i b l) = replace_at i a l.
Proof.
  revert i. induction l as [|c l IH]; intros i H; simpl in H; [lia|].
  destruct i as [|i]; [reflexivity|].
  unfold replace_at in *. simpl. f_equal. apply IH. lia.
Qed.

Lemma replace_at_comm (i j a b : nat) (l : list nat) :
  (i < length l)%nat -> (j < length l)%nat -> i <> j ->
  replace_at i a (replace_at j b l) = replace_at j b (replace_at i a l).
Proof.
  revert i j. induction l as [|c l IH]; intros i j Hi Hj H; simpl in Hi, Hj;
    [lia|].
  destruct i as [|i]; destruct j as [|j]; try lia; try reflexivity.
  unfold replace_at in *. simpl. f_equal. apply IH; lia.
Qed.

Lemma insert_remove_at (i k : nat) (l : list nat) :
  (i < length l)%nat -> insert_at i k (remove_at i l) = replace_at i k l.
Proof.
  revert i. induction l as [|c l IH]; intros i H; simpl in H; [lia|].
  destruct i as [|i]; [reflexivity|].
  unfold insert_at, remove_at, replace_at in *. simpl. f_equal.
  apply IH. lia.
Qed.

Lemma remove_replace_at (i k : nat) (l : list nat) :
  (i < length l)%nat -> remove_at i (replace_at i k l) = remove_at i l.
Proof.
  revert i. induction l as [|c l IH]; intros i H; simpl in H; [lia|].
  destruct i as [|i]; [reflexivity|].
  unfold remove_at, replace_at in *. simpl. f_equal. apply IH. lia.
Qed.

(** ** The error monad *)

Lemma bind_ok {A B : Type} (m : result A) (k : A -> result B) (b : B) :
  bind m k = Ok b -> exists a, m = Ok a /\ k a = Ok b.
Proof. destruct m as [a|e]; simpl; intros H; [eauto|discriminate]. Qed.

Ltac inv_bind H :=
  let a := fresh "r" in
  let Ha := fresh "E" in
  apply bind_ok in H; destruct H as (a & Ha & H).

Tactic Notation "bind_inv" hyp(H) "as" ident(a) ident(Ha) :=
  apply bind_ok in H; destruct H as (a & Ha & H).

(** ** Array operations on operands of one shape *)

Section SameShape.

Variable sh : list nat.

Lemma np_map_agrees (f : R -> R) (a : ndarray) (fa : index -> R) :
  agrees a sh fa -> agrees (np_map f a) sh (fun idx => f (fa idx)).
Proof.
  intros [Hs Hd]. split; [exact Hs|].
  intros idx Hidx. simpl. rewrite Hd by assumption. reflexivity.
Qed.

Lemma np_zeros_agrees : agrees (np_zeros sh) sh (fun _ => 0).
Proof. split; reflexivity. Qed.

Lemma np_sum_agrees (a : ndarray) (fa : index -> R) :
  agrees a sh fa -> np_sum a = sum_over sh fa.
Proof.
  intros [Hs Hd]. unfold np_sum. rewrite Hs. apply sum_over_ext, Hd.
Qed.

Lemma np_binop_agrees (f : R -> R -> R) (a b : ndarray)
  (fa fb : index -> R) :
  agrees a sh fa -> agrees b sh fb ->
  exists c, np_binop f a b = Ok c /\
            agrees c sh (fun idx => f (fa idx) (fb idx)).
Proof.
  intros [Hsa Hda] [Hsb Hdb]. unfold np_binop.
  rewrite Hsa, Hsb, broadcast_shapes_same.
  eexists. split; [reflexivity|]. split; [reflexivity|].
  intros idx Hidx. simpl. rewrite bc_index_id by assumption.
  rewrite Hda, Hdb by assumption. reflexivity.
Qed.

Lemma np_inplace_agrees (f : R -> R -> R) (a b : ndarray)
  (fa fb : index -> R) :
  agrees a sh fa -> agrees b sh fb ->
  exists c, np_inplace f a b = Ok c /\
            agrees c sh (fun idx => f (fa idx) (fb idx)).
Proof.
  intros [Hsa Hda] [Hsb Hdb]. unfold np_inplace.
  rewrite Hsa, Hsb, broadcast_shapes_same, shape_eqb_refl.
  eexists. split; [reflexivity|]. split; [reflexivity|].
  intros idx Hidx. simpl. rewrite bc_index_id by assumption.
  rewrite Hda, Hdb by assumption. reflexivity.
Qed.

Lemma agrees_self (a : ndarray) : shape a = sh -> agrees a sh (data a).
Proof. intros H. split; [exact H|reflexivity]. Qed.

Lemma agrees_ext (a : ndarray) (f g : index -> R) :
  agrees a sh f -> (forall idx, in_shape idx sh -> f idx = g idx) ->
  agrees a sh g.
Proof.
  intros [Hs Hd] H. split; [exact Hs|].
  intros idx Hidx. rewrite Hd, H by assumption. reflexivity.
Qed.

End SameShape.

(** Whatever the operands, an in-place operation keeps the shape of its
    target. *)
Lemma np_inplace_shape (f : R -> R -> R) (a b c : ndarray) :
  np_inplace f a b = Ok c -> shape c = shape a.
Proof.
  unfold np_inplace. destruct (broadcast_shapes _ _); [|discriminate].
  destruct (shape_eqb _ _); [|discriminate].
  intros H. injection H as <-. reflexivity.
Qed.

Lemma put_shape (nd i : nat) (k : Z) (a v c : ndarray) :
  put nd i k a v = Ok c -> shape c = shape a.
Proof.
  unfold put. intros H. inv_bind H.
  destruct (norm_index _ _); [|discriminate].
  destruct (broadcast_shapes _ _); [|discriminate].
  destruct (shape_eqb _ _); [|discriminate].
  injection H as <-. reflexivity.
Qed.

Lemma put_scalar_shape (nd i : nat) (k : Z) (a c : ndarray) (x : R) :
  put_scalar nd i k a x = Ok c -> shape c = shape a.
Proof.
  unfold put_scalar. intros H. inv_bind H.
  destruct (norm_index _ _); [|discriminate].
  injection H as <-. reflexivity.
Qed.

Lemma iadd_slice_shape (nd i lo back : nat) (a v c : ndarray) :
  iadd_slice nd i lo back a v = Ok c -> shape c = shape a.
Proof.
  unfold iadd_slice. intros H. inv_bind H.
  destruct (broadcast_shapes _ _); [|discriminate].
  destruct (shape_eqb _ _); [|discriminate].
  injection H as <-. reflexivity.
Qed.

Lemma axis_extent_ok (nd i : nat) (a : ndarray) :
  (nd <= length (shape a))%nat ->
  axis_extent nd i a = Ok (nth i (shape a) O).
Proof.
  intros H. unfold axis_extent.
  destruct (Nat.ltb_spec (length (shape a)) nd); [lia|reflexivity].
Qed.

(** ** Slices along one axis *)

Section AxisOps.

Variables (sh : list nat) (nd i : nat).
Hypothesis Hnd : nd = length sh.
Hypothesis Hi : (i < nd)%nat.

Let m := nth i sh O.

Lemma slice_agrees (lo back : nat) (a : ndarray) (fa : index -> R) :
  agrees a sh fa ->
  exists c, slice nd i lo back a = Ok c /\
            agrees c (replace_at i (slice_len lo back m) sh)
                   (fun idx => fa (replace_at i (nth i idx O + lo)%nat idx)).
Proof.
  intros [Hs Hd]. unfold slice.
  rewrite axis_extent_ok by (rewrite Hs; lia). simpl.
  eexists. split; [reflexivity|]. split; [simpl; rewrite Hs; reflexivity|].
  intros idx Hidx. simpl. unfold shift_at. apply Hd.
  assert (Hl : length idx = length sh).
  { rewrite (in_shape_length _ _ Hidx). apply replace_at_length. lia. }
  assert (Hn : (nth i idx O < slice_len lo back m)%nat).
  { pose proof (in_shape_nth _ _ i Hidx) as Hn.
    rewrite replace_at_length, nth_replace_at_eq in Hn by lia.
    apply Hn. lia. }
  rewrite <- (replace_at_nth i sh) by lia.
  rewrite <- (replace_at_twice i _ (nth i idx O) idx) by lia.
  rewrite <- (replace_at_twice i (nth i sh O) (slice_len lo back m) sh) by lia.
  apply replace_at_in_shape.
  - rewrite replace_at_nth by lia. exact Hidx.
  - fold m. unfold slice_len in Hn. lia.
Qed.

Lemma iadd_slice_agrees (lo back : nat) (a v : ndarray)
  (fa fv : index -> R) :
  agrees a sh fa ->
  agrees v (replace_at i (slice_len lo back m) sh) fv ->
  exists c, iadd_slice nd i lo back a v = Ok c /\
            agrees c sh
              (fun idx =>
                 if ((lo <=? nth i idx O) && (nth i idx O <? m - back))%nat
                 then fa idx + fv (replace_at i (nth i idx O - lo)%nat idx)
                 else fa idx).
Proof.
  intros [Hs Hd] [Hsv Hdv]. unfold iadd_slice.
  rewrite axis_extent_ok by (rewrite Hs; lia). simpl.
  rewrite Hs, Hsv. fold m.
  rewrite broadcast_shapes_same, shape_eqb_refl.
  eexists. split; [reflexivity|]. split; [reflexivity|].
  intros idx Hidx. simpl.
  destruct ((lo <=? nth i idx O) && (nth i idx O <? m - back))%nat eqn:Hc;
    [|apply Hd, Hidx].
  apply andb_prop in Hc. destruct Hc as [H1 H2].
  apply Nat.leb_le in H1. apply Nat.ltb_lt in H2.
  assert (Hin : in_shape (unshift_at i lo idx)
                         (replace_at i (slice_len lo back m) sh)).
  { unfold unshift_at. apply replace_at_in_shape; [exact Hidx|].
    unfold slice_len. lia. }
  rewrite bc_index_id by exact Hin.
  rewrite Hd, Hdv by assumption. reflexivity.
Qed.

End AxisOps.

(** ** The axis loop in Dirichlet mode *)

Section Stencil.

Variables (sh : list nat) (nd i : nat).
Hypothesis Hnd : nd = length sh.
Hypothesis Hi : (i < nd)%nat.

Lemma stencil_agrees (px : ndarray) (fp : index -> R) :
  agrees px sh fp ->
  exists t, stencil nd i px = Ok t /\
            agrees t (replace_at i (nth i sh O - 2)%nat sh)
              (fun idx =>
                 fp (replace_at i (nth i idx O + 0)%nat idx)
                 + fp (replace_at i (nth i idx O + 2)%nat idx)
                 - 2 * fp (replace_at i (nth i idx O + 1)%nat idx)).
Proof.
  intros Hpx. unfold stencil.
  destruct (slice_agrees sh nd i Hnd Hi 0 2 px fp Hpx) as (x2 & E2 & A2).
  destruct (slice_agrees sh nd i Hnd Hi 2 0 px fp Hpx) as (x3 & E3 & A3).
  destruct (slice_agrees sh nd i Hnd Hi 1 1 px fp Hpx) as (x1 & E1 & A1).
  replace (slice_len 0 2 (nth i sh O)) with (nth i sh O - 2)%nat in A2
    by (unfold slice_len; lia).
  replace (slice_len 2 0 (nth i sh O)) with (nth i sh O - 2)%nat in A3
    by (unfold slice_len; lia).
  replace (slice_len 1 1 (nth i sh O)) with (nth i sh O - 2)%nat in A1
    by (unfold slice_len; lia).
  rewrite E2, E3. simpl.
  destruct (np_binop_agrees _ Rplus x2 x3 _ _ A2 A3) as (s & Es & As).
  rewrite Es, E1. simpl.
  apply (np_binop_agrees _ Rminus s _ _ _ As).
  apply (np_map_agrees _ (fun x => 2 * x) x1 _ A1).
Qed.

Lemma kinetic_axis_dirichlet (self : DirichletSystem) (dom : Boundary)
  (px kine : ndarray) (fp fk : index -> R) :
  pbc self = false -> ndim self = nd ->
  nth_error (spat_dom self) i = Some dom ->
  agrees px sh fp -> agrees kine sh fk ->
  exists kine',
    kinetic_axis self (px, kine) i = Ok (px, kine') /\
    agrees kine' sh
      (fun idx => fk idx + second_diff sh (step dom) fp i idx).
Proof.
  intros Hpbc Hndim Hdom Hpx Hk. unfold kinetic_axis.
  rewrite Hpbc, Hndim, Hdom. cbn [bind fst snd].
  destruct (stencil_agrees px fp Hpx) as (t & Et & At).
  rewrite Et. cbn [bind].
  pose proof (np_map_agrees _ (fun x => x / (2 * step dom ^ 2)) t _ At) as Au.
  replace (nth i sh O - 2)%nat with (slice_len 1 1 (nth i sh O)) in Au
    by (unfold slice_len; lia).
  destruct (iadd_slice_agrees sh nd i Hnd Hi 1 1 kine _ fk _ Hk Au)
    as (k' & Ek & Ak).
  rewrite Ek. cbn [bind]. exists k'. split; [reflexivity|].
  apply (agrees_ext _ _ _ _ Ak). intros idx Hidx.
  assert (Hl : (i < length idx)%nat)
    by (rewrite (in_shape_length _ _ Hidx); lia).
  unfold second_diff.
  destruct ((1 <=? nth i idx O) && (nth i idx O <? nth i sh O - 1))%nat
    eqn:Hc; [|lra].
  apply andb_prop in Hc. destruct Hc as [H1 H2].
  apply Nat.leb_le in H1. apply Nat.ltb_lt in H2.
  rewrite nth_replace_at_eq by exact Hl.
  rewrite !replace_at_twice by exact Hl.
  replace (nth i idx O - 1 + 0)%nat with (nth i idx O - 1)%nat by lia.
  replace (nth i idx O - 1 + 2)%nat with (nth i idx O + 1)%nat by lia.
  replace (nth i idx O - 1 + 1)%nat with (nth i idx O) by lia.
  rewrite replace_at_nth by exact Hl. reflexivity.
Qed.

End Stencil.

Lemma nth_error_map_step (doms : list Boundary) (k : nat) :
  (k < length doms)%nat ->
  exists dom, nth_error doms k = Some dom /\
              nth k (map step doms) 0 = step dom.
Proof.
  revert k. induction doms as [|d doms IH]; intros k H; simpl in H; [lia|].
  destruct k as [|k]; simpl; [eauto|]. apply IH. lia.
Qed.

Lemma kinetic_fold_dirichlet (self : DirichletSystem) (px : ndarray)
  (fp : index -> R) (n k : nat) (kine : ndarray) :
  pbc self = false -> ndim self = length (sol_shape self) ->
  length (spat_dom self) = ndim self ->
  agrees px (sol_shape self) fp ->
  (k + n <= ndim self)%nat ->
  agrees kine (sol_shape self)
    (kinetic_term (sol_shape self) (map step (spat_dom self)) fp k) ->
  exists kine',
    foldM (kinetic_axis self) (seq k n) (px, kine) = Ok (px, kine') /\
    agrees kine' (sol_shape self)
      (kinetic_term (sol_shape self) (map step (spat_dom self)) fp (k + n)).
Proof.
  intros Hpbc Hnd Hdoms Hpx. revert k kine.
  induction n as [|n IH]; intros k kine Hk Hkine; simpl.
  - exists kine. rewrite Nat.add_0_r. split; [reflexivity|exact Hkine].
  - destruct (nth_error_map_step (spat_dom self) k) as (dom & Ed & Es);
      [lia|].
    destruct (kinetic_axis_dirichlet (sol_shape self) (ndim self) k Hnd
                ltac:(lia) self dom px kine _ _ Hpbc eq_refl Ed Hpx Hkine)
      as (k1 & E1 & A1).
    rewrite E1. simpl.
    destruct (IH (S k) k1) as (k2 & E2 & A2); [lia| |].
    + simpl. rewrite Es. exact A1.
    + exists k2. split; [exact E2|].
      replace (k + S n)%nat with (S k + n)%nat by lia. exact A2.
Qed.

Lemma kinetic_dirichlet (self : DirichletSystem) :
  pbc self = false -> ndim self = length (sol_shape self) ->
  length (spat_dom self) = ndim self ->
  shape (sol_mesh self) = sol_shape self ->
  exists kine,
    kinetic self = Ok (sol_mesh self, kine) /\
    agrees kine (sol_shape self)
      (kinetic_term (sol_shape self) (map step (spat_dom self))
         (data (sol_mesh self)) (ndim self)).
Proof.
  intros Hpbc Hnd Hdoms Hs. unfold kinetic.
  apply (kinetic_fold_dirichlet self (sol_mesh self) _ (ndim self) 0);
    auto using agrees_self, np_zeros_agrees.
Qed.

(** ** Normalisation and deflation *)

Lemma normalize_agrees (self : DirichletSystem) (sh : list nat)
  (psi : ndarray) (f : index -> R) :
  agrees psi sh f ->
  exists c, normalize self psi = Ok c /\
            agrees c sh
              (fun idx => f idx * (1 / norm_of (variant self) (vol self) sh f)).
Proof.
  intros Hpsi. unfold normalize.
  destruct (np_binop_agrees sh Rmult psi psi _ _ Hpsi Hpsi) as (sq & E & A).
  rewrite E. cbn [bind]. eexists. split; [reflexivity|].
  rewrite (np_sum_agrees sh sq _ A).
  destruct (variant self); cbn [norm_of];
    exact (np_map_agrees sh (fun x => x * (1 / _)) psi f Hpsi).
Qed.

Lemma normalize_shape (self : DirichletSystem) (psi c : ndarray) :
  normalize self psi = Ok c -> shape c = shape psi.
Proof.
  unfold normalize. intros H. inv_bind H. injection H as <-. reflexivity.
Qed.

Lemma deflate_agrees (self : DirichletSystem) (sh : list nat)
  (psi vec : ndarray) (fs fv : index -> R) :
  agrees psi sh fs -> agrees vec sh fv ->
  exists c, deflate self psi vec = Ok c /\
            agrees c sh (deflated (variant self) (vol self) sh fs fv).
Proof.
  intros Hpsi Hvec. unfold deflate.
  destruct (normalize_agrees self sh vec fv Hvec) as (nv & En & An).
  rewrite En. cbn [bind].
  destruct (np_binop_agrees sh Rmult psi nv _ _ Hpsi An) as (pv & Ep & Ap).
  rewrite Ep. cbn [bind].
  rewrite (np_sum_agrees sh _ _
             (np_map_agrees sh (fun x => x * vol self) pv _ Ap)).
  apply (np_inplace_agrees sh Rminus psi _ fs _ Hpsi).
  exact (np_map_agrees sh (fun x => _ * x) vec fv Hvec).
Qed.

Lemma deflate_shape (self : DirichletSystem) (psi vec c : ndarray) :
  deflate self psi vec = Ok c -> shape c = shape psi.
Proof.
  unfold deflate. intros H. inv_bind H. inv_bind H.
  apply np_inplace_shape in H. exact H.
Qed.

Lemma deflate_fold_shape (self : DirichletSystem) (vs : list ndarray)
  (psi c : ndarray) :
  foldM (deflate self) vs psi = Ok c -> shape c = shape psi.
Proof.
  revert psi. induction vs as [|v vs IH]; intros psi H; simpl in H.
  - injection H as <-. reflexivity.
  - inv_bind H. apply IH in H. apply deflate_shape in E. congruence.
Qed.

Lemma deflate_fold_agrees (self : DirichletSystem) (sh : list nat)
  (vs : list ndarray) (psi : ndarray) (fs : index -> R) :
  Forall (fun v => shape v = sh) vs -> agrees psi sh fs ->
  exists c, foldM (deflate self) vs psi = Ok c /\
            agrees c sh
              (fold_left (deflated (variant self) (vol self) sh)
                         (map data vs) fs).
Proof.
  intros Hvs. revert psi fs.
  induction Hvs as [|v vs Hv Hvs IH]; intros psi fs Hpsi; simpl.
  - exists psi. split; [reflexivity|exact Hpsi].
  - destruct (deflate_agrees self sh psi v fs (data v) Hpsi
                (agrees_self sh v Hv)) as (c & E & A).
    rewrite E. cbn [bind]. apply IH, A.
Qed.

Lemma prepare_agrees (self : DirichletSystem) :
  well_shaped self ->
  exists sm, _prepare self = Ok (set_sol_mesh self sm) /\
             agrees sm (sol_shape self)
               (fold_left (deflated (variant self) (vol self) (sol_shape self))
                          (map data (priors self)) (data (sol_mesh self))).
Proof.
  intros [Hnd Hdoms Hs Hpr]. unfold _prepare.
  destruct (deflate_fold_agrees self _ _ _ _ Hpr (agrees_self _ _ Hs))
    as (c & E & A).
  rewrite E. cbn [bind]. exists c. split; [reflexivity|exact A].
Qed.

Lemma prepare_frame (self self' : DirichletSystem) :
  _prepare self = Ok self' ->
  exists sm, self' = set_sol_mesh self sm /\
             shape sm = shape (sol_mesh self).
Proof.
  unfold _prepare. intros H. inv_bind H. injection H as <-.
  exists r. split; [reflexivity|]. apply deflate_fold_shape in E. exact E.
Qed.

(** ** Energy, update and renormalisation *)

Lemma energy_agrees (sh : list nat) (pg px kine : ndarray)
  (fv fp fk : index -> R) :
  agrees pg sh fv -> agrees px sh fp -> agrees kine sh fk ->
  energy pg px kine = Ok (rayleigh sh fv fp fk).
Proof.
  intros Hv Hp Hk. unfold energy.
  destruct (np_binop_agrees sh Rmult pg px _ _ Hv Hp) as (a & Ea & Aa).
  rewrite Ea. cbn [bind].
  destruct (np_binop_agrees sh Rmult a px _ _ Aa Hp) as (a' & Ea' & Aa').
  rewrite Ea'. cbn [bind].
  destruct (np_binop_agrees sh Rmult kine px _ _ Hk Hp) as (b & Eb & Ab).
  rewrite Eb. cbn [bind].
  destruct (np_binop_agrees sh Rmult px px _ _ Hp Hp) as (c & Ec & Ac).
  rewrite Ec. cbn [bind].
  rewrite (np_sum_agrees sh _ _ Aa'), (np_sum_agrees sh _ _ Ab),
    (np_sum_agrees sh _ _ Ac).
  reflexivity.
Qed.

Lemma update_agrees (sh : list nat) (alpha beta : ndarray) (dt : R)
  (px kine : ndarray) (fa fb fp fk : index -> R) :
  agrees alpha sh fa -> agrees beta sh fb ->
  agrees px sh fp -> agrees kine sh fk ->
  exists u, update alpha beta dt px kine = Ok u /\
            agrees u sh
              (fun idx => fa idx * fp idx + dt * fb idx * fk idx).
Proof.
  intros Ha Hb Hp Hk. unfold update.
  destruct (np_binop_agrees sh Rmult alpha px _ _ Ha Hp) as (sm & Es & As).
  rewrite Es. cbn [bind].
  destruct (np_binop_agrees sh Rmult _ kine _ _
              (np_map_agrees sh (fun x => dt * x) beta _ Hb) Hk)
    as (dbk & Ed & Ad).
  rewrite Ed. cbn [bind].
  apply (np_inplace_agrees sh Rplus sm dbk _ _ As Ad).
Qed.

Lemma alpha_beta_agrees (sh : list nat) (dt : R) (pg : ndarray)
  (fv : index -> R) :
  agrees pg sh fv ->
  agrees (beta_of dt pg) sh (fun idx => 1 / (1 + 0.5 * dt * fv idx)) /\
  exists alpha,
    alpha_of dt pg (beta_of dt pg) = Ok alpha /\
    agrees alpha sh
      (fun idx => (1 - 0.5 * dt * fv idx) * (1 / (1 + 0.5 * dt * fv idx))).
Proof.
  intros Hv.
  pose proof (np_map_agrees sh (fun v => 1 / (1 + 0.5 * dt * v)) pg _ Hv)
    as Hb.
  split; [exact Hb|]. unfold alpha_of.
  apply (np_binop_agrees sh Rmult _ _ _ _
           (np_map_agrees sh (fun v => 1 - 0.5 * dt * v) pg _ Hv) Hb).
Qed.

Lemma renormalize_agrees (self : DirichletSystem) (f : index -> R) :
  agrees (sol_mesh self) (sol_shape self) f ->
  exists sm,
    renormalize self
    = Ok (set_sol_mesh
            (set_logs self
               (logs self
                ++ [sqrt (sum_over (sol_shape self)
                            (fun idx => f idx * f idx) * vol self)]))
            sm) /\
    agrees sm (sol_shape self)
      (fun idx => f idx * (1 / norm_of (variant self) (vol self)
                                       (sol_shape self) f)).
Proof.
  intros Hf. unfold renormalize.
  destruct (np_binop_agrees _ Rmult _ _ _ _ Hf Hf) as (sq & E & A).
  rewrite E. cbn [bind]. rewrite (np_sum_agrees _ _ _ A).
  destruct (normalize_agrees
              (set_logs self
                 (logs self
                  ++ [sqrt (sum_over (sol_shape self)
                              (fun idx => f idx * f idx) * vol self)]))
              (sol_shape self) (sol_mesh self) f Hf) as (sm & En & An).
  cbn [sol_mesh set_logs set_run] in *. rewrite En. cbn [bind].
  exists sm. split; [reflexivity|exact An].
Qed.

(** ** Shapes through the axis loop, in either boundary mode *)

Lemma kinetic_axis_shape (self : DirichletSystem) (acc acc' : ndarray * ndarray)
  (i : nat) :
  kinetic_axis self acc i = Ok acc' ->
  shape (fst acc') = shape (fst acc) /\ shape (snd acc') = shape (snd acc).
Proof.
  unfold kinetic_axis. intros H. inv_bind H. inv_bind H. inv_bind H.
  destruct (nth_error _ _); [|discriminate].
  inv_bind H. injection H as <-. cbn [fst snd]. split.
  - destruct (pbc self).
    + unfold extrapolate in E. do 5 inv_bind E.
      apply put_shape in E. exact E.
    + injection E as <-. reflexivity.
  - apply iadd_slice_shape in E2. exact E2.
Qed.

Lemma kinetic_fold_shape (self : DirichletSystem) (l : list nat)
  (acc acc' : ndarray * ndarray) :
  foldM (kinetic_axis self) l acc = Ok acc' ->
  shape (fst acc') = shape (fst acc) /\ shape (snd acc') = shape (snd acc).
Proof.
  revert acc. induction l as [|i l IH]; intros acc H; simpl in H.
  - injection H as <-. split; reflexivity.
  - inv_bind H. apply IH in H. apply kinetic_axis_shape in E.
    destruct H, E. split; congruence.
Qed.

Lemma pre_update_inv (self : DirichletSystem) (n : nat)
  (s1 : DirichletSystem) (kine : ndarray) :
  pre_update self n = Ok (s1, kine) ->
  exists sm px,
    _prepare (set_counter self n) = Ok (set_sol_mesh (set_counter self n) sm) /\
    kinetic (set_sol_mesh (set_counter self n) sm) = Ok (px, kine) /\
    s1 = set_sol_mesh (set_counter self n) px /\
    shape sm = shape (sol_mesh self) /\
    shape px = shape (sol_mesh self) /\
    shape kine = sol_shape self.
Proof.
  unfold pre_update. intros H. bind_inv H as s0 E.
  destruct (prepare_frame _ _ E) as (sm & -> & Hsm).
  bind_inv H as pk E0. injection H as <- <-.
  exists sm, (fst pk). destruct pk as [px kine]. cbn [fst snd].
  pose proof (kinetic_fold_shape _ _ _ _ E0) as [H1 H2].
  cbn [fst snd] in H1, H2.
  repeat split; try assumption; try reflexivity.
  rewrite H1. exact Hsm.
Qed.

Lemma setitem_inv (l es : list R) (n : nat) (x : R) :
  setitem l n x = Ok es -> (n < length l)%nat /\ es = list_set l n x.
Proof.
  unfold setitem. destruct (Nat.ltb_spec n (length l)) as [Hn|Hn];
    [|discriminate].
  intros Hs. injection Hs as <-. split; [assumption|reflexivity].
Qed.

Lemma list_set_length (l : list R) (n : nat) (x : R) :
  length (list_set l n x) = length l.
Proof.
  revert n. induction l as [|y l IH]; intros [|n]; simpl; auto.
Qed.

Lemma nth_list_set_eq (l : list R) (n : nat) (x : R) :
  (n < length l)%nat -> nth n (list_set l n x) 0 = x.
Proof.
  revert n. induction l as [|y l IH]; intros [|n] H; simpl in *;
    try lia; [reflexivity|apply IH; lia].
Qed.

Lemma nth_list_set_neq (l : list R) (n j : nat) (x : R) :
  n <> j -> nth j (list_set l n x) 0 = nth j l 0.
Proof.
  revert n j. induction l as [|y l IH]; intros [|n] [|j] H; simpl;
    try reflexivity; try lia.
  apply IH. lia.
Qed.

(** ** The loop body *)

(** What a completed pass through the loop body did, in either boundary
    mode. *)
Lemma iteration_inv (alpha beta pg : ndarray) (dt : R)
  (self self' : DirichletSystem) (n : nat) (b : bool) :
  iteration alpha beta pg dt self n = Ok (self', b) ->
  exists px kine e,
    pre_update self n = Ok (set_sol_mesh (set_counter self n) px, kine) /\
    shape px = shape (sol_mesh self) /\
    shape kine = sol_shape self /\
    energy pg px kine = Ok e /\
    (n < length (energy_series self))%nat /\
    energy_series self' = list_set (energy_series self) n e /\
    b = stop_test self' n e /\
    ((Z.of_nat n + 1 < time_len self)%Z ->
     exists u sq sm,
       update alpha beta dt px kine = Ok u /\
       np_binop Rmult u u = Ok sq /\
       normalize self u = Ok sm /\
       self' = set_run (set_sol_mesh self sm) n
                 (logs self ++ [sqrt (np_sum sq * vol self)])
                 (pot_grid self) (list_set (energy_series self) n e)) /\
    ((time_len self <= Z.of_nat n + 1)%Z ->
     self' = set_run (set_sol_mesh self px) n (logs self) (pot_grid self)
               (list_set (energy_series self) n e)).
Proof.
  unfold iteration. intros H. bind_inv H as sk E. destruct sk as [s1 kine].
  destruct (pre_update_inv _ _ _ _ E) as (sm & px & _ & _ & -> & _ & Hpx & Hk).
  cbn [fst snd] in H. bind_inv H as e E0. bind_inv H as es E1.
  apply setitem_inv in E1. destruct E1 as [Hn ->].
  cbn [energy_series set_sol_mesh set_mesh set_counter set_run] in Hn.
  cbn [sol_mesh set_sol_mesh set_mesh] in E0.
  bind_inv H as s2 E1. injection H as <- <-.
  exists px, kine, e. split; [exact E|].
  split; [exact Hpx|]. split; [exact Hk|]. split; [exact E0|].
  split; [exact Hn|].
  cbn [time_len set_energy_series set_sol_mesh set_mesh set_counter set_run]
    in E1.
  destruct (Z.ltb_spec (Z.of_nat n + 1) (time_len self)) as [Hlt|Hge].
  - bind_inv E1 as u Eu. unfold renormalize in E1.
    bind_inv E1 as sq Esq. bind_inv E1 as sm' Esm.
    injection E1 as <-.
    split; [reflexivity|]. split; [reflexivity|]. split; [|lia].
    intros _. exists u, sq, sm'. repeat split; assumption.
  - injection E1 as <-.
    split; [reflexivity|]. split; [reflexivity|]. split; [lia|].
    intros _. reflexivity.
Qed.

(** ** The loop body in Dirichlet mode *)

Lemma pre_update_dirichlet (self : DirichletSystem) (n : nat) :
  well_shaped self -> pbc self = false ->
  exists px kine,
    pre_update self n = Ok (set_sol_mesh (set_counter self n) px, kine) /\
    agrees px (sol_shape self)
      (fold_left (deflated (variant self) (vol self) (sol_shape self))
                 (map data (priors self)) (data (sol_mesh self))) /\
    agrees kine (sol_shape self)
      (kinetic_term (sol_shape self) (map step (spat_dom self)) (data px)
                    (ndim self)).
Proof.
  intros Hws Hpbc. unfold pre_update.
  assert (Hws' : well_shaped (set_counter self n))
    by (destruct Hws; constructor; assumption).
  destruct (prepare_agrees _ Hws') as (sm & E & A).
  rewrite E. cbn [bind].
  destruct Hws as [Hnd Hdoms Hs Hpr].
  destruct (kinetic_dirichlet (set_sol_mesh (set_counter self n) sm))
    as (kine & Ek & Ak); try assumption; [apply A|].
  rewrite Ek. cbn [bind fst snd].
  exists sm, kine. split; [reflexivity|]. split; [exact A|exact Ak].
Qed.

Lemma iteration_total (alpha beta pg : ndarray) (dt : R)
  (self : DirichletSystem) (n : nat) :
  well_shaped self -> pbc self = false ->
  shape pg = sol_shape self -> shape alpha = sol_shape self ->
  shape beta = sol_shape self ->
  (n < length (energy_series self))%nat ->
  exists self' b, iteration alpha beta pg dt self n = Ok (self', b).
Proof.
  intros Hws Hpbc Hpg Ha Hb Hn.
  destruct (pre_update_dirichlet self n Hws Hpbc) as (px & kine & E & Ap & Ak).
  unfold iteration. rewrite E. cbn [bind fst snd].
  cbn [sol_mesh set_sol_mesh set_mesh].
  rewrite (energy_agrees _ pg px kine _ _ _ (agrees_self _ _ Hpg)
             (agrees_self _ _ (proj1 Ap)) (agrees_self _ _ (proj1 Ak))).
  cbn [bind]. unfold setitem.
  cbn [energy_series set_sol_mesh set_mesh set_counter set_run].
  destruct (Nat.ltb_spec n (length (energy_series self))) as [_|Hc]; [|lia].
  cbn [bind time_len set_energy_series set_sol_mesh set_mesh set_counter
       set_run].
  destruct (Z.of_nat n + 1 <? time_len self)%Z.
  - destruct (update_agrees _ alpha beta dt px kine _ _ _ _
                (agrees_self _ _ Ha) (agrees_self _ _ Hb)
                (agrees_self _ _ (proj1 Ap)) (agrees_self _ _ (proj1 Ak)))
      as (u & Eu & Au).
    cbn [sol_mesh set_energy_series set_sol_mesh set_mesh set_counter set_run].
    rewrite Eu. cbn [bind].
    match goal with
    | |- context [renormalize ?s] =>
        destruct (renormalize_agrees s _ Au) as (sm & Er & _)
    end.
    rewrite Er. cbn [bind]. eauto.
  - cbn [bind]. eauto.
Qed.

Lemma iteration_well_shaped (alpha beta pg : ndarray) (dt : R)
  (self self' : DirichletSystem) (n : nat) (b : bool) :
  iteration alpha beta pg dt self n = Ok (self', b) ->
  shape alpha = sol_shape self -> shape beta = sol_shape self ->
  well_shaped self -> well_shaped self'.
Proof.
  intros H Ha Hb [Hnd Hdoms Hs Hpr].
  destruct (iteration_inv _ _ _ _ _ _ _ _ H)
    as (px & kine & e & _ & Hpx & Hk & _ & _ & _ & _ & Hup & Hskip).
  rewrite Hs in Hpx.
  destruct (Z.ltb_spec (Z.of_nat n + 1) (time_len self)) as [Hlt|Hge].
  - destruct (Hup Hlt) as (u & sq & sm & Eu & _ & En & ->).
    constructor; try assumption. cbn.
    apply normalize_shape in En. rewrite En.
    destruct (update_agrees _ alpha beta dt px kine _ _ _ _
                (agrees_self _ _ Ha) (agrees_self _ _ Hb)
                (agrees_self _ _ Hpx) (agrees_self _ _ Hk))
      as (u' & Eu' & Au).
    rewrite Eu in Eu'. injection Eu' as <-. apply Au.
  - rewrite (Hskip Hge). constructor; assumption.
Qed.

(** The fields a pass through the loop body leaves alone. *)
Lemma iteration_config (alpha beta pg : ndarray) (dt : R)
  (self self' : DirichletSystem) (n : nat) (b : bool) :
  iteration alpha beta pg dt self n = Ok (self', b) ->
  variant self' = variant self /\ pbc self' = pbc self /\
  priors self' = priors self /\ vol self' = vol self /\
  time_len self' = time_len self /\ sol_shape self' = sol_shape self /\
  stop_tol self' = stop_tol self /\ max_iter self' = max_iter self /\
  spat_dom self' = spat_dom self /\ ndim self' = ndim self /\
  pot_grid self' = pot_grid self /\
  length (energy_series self') = length (energy_series self).
Proof.
  intros H.
  destruct (iteration_inv _ _ _ _ _ _ _ _ H)
    as (px & kine & e & _ & _ & _ & _ & _ & Hes & _ & Hup & Hskip).
  assert (Hl : length (energy_series self') = length (energy_series self))
    by (rewrite Hes; apply list_set_length).
  destruct (Z.ltb_spec (Z.of_nat n + 1) (time_len self)) as [Hlt|Hge].
  - destruct (Hup Hlt) as (u & sq & sm & _ & _ & _ & E).
    rewrite E in *. repeat split; try reflexivity. exact Hl.
  - rewrite (Hskip Hge) in *. repeat split; try reflexivity. exact Hl.
Qed.

(** ** The loop *)

Section Loop.

Variables (alpha beta pg : ndarray) (dt : R).

Local Abbreviation iter := (iteration alpha beta pg dt).
Local Abbreviation iterN := (iterate alpha beta pg dt).
Local Abbreviation loop := (solve_loop alpha beta pg dt).

Lemma iterate_S (k : nat) (s0 s : DirichletSystem) (sb : DirichletSystem * bool) :
  iterN k s0 = Ok s -> iter s k = Ok sb -> iterN (S k) s0 = Ok (fst sb).
Proof. intros H1 H2. simpl. rewrite H1. simpl. rewrite H2. reflexivity. Qed.

Lemma iterate_S_inv (k : nat) (s0 s' : DirichletSystem) :
  iterN (S k) s0 = Ok s' ->
  exists s b, iterN k s0 = Ok s /\ iter s k = Ok (s', b).
Proof.
  simpl. intros H. bind_inv H as s E. bind_inv H as sb E'.
  injection H as <-. exists s, (snd sb). split; [exact E|].
  rewrite E'. destruct sb; reflexivity.
Qed.


(** The loop stops after [K] passes: it ran the body for the counter values
    below [K], and it left right after the pass for [m] exactly when that
    pass ended in [break] or [m] was the last value of the range. *)
Lemma solve_loop_spec (fuel n : nat) (s0 s s' : DirichletSystem) (K : nat) :
  iterN n s0 = Ok s -> loop fuel n s = Ok (s', K) ->
  (n <= K <= n + fuel)%nat /\ (0 < fuel -> n < K)%nat /\
  iterN K s0 = Ok s' /\
  forall m, (n <= m < K)%nat ->
    exists sm sm' b,
      iterN m s0 = Ok sm /\ iter sm m = Ok (sm', b) /\
      (S m = K <-> b = true \/ S m = (n + fuel)%nat).
Proof.
  revert n s. induction fuel as [|fuel IH]; intros n s Hs H; simpl in H.
  - injection H as <- <-.
    split; [lia|]. split; [lia|]. split; [exact Hs|]. intros m Hm. lia.
  - bind_inv H as sb E. destruct sb as [s1 b]. cbn [fst snd] in H.
    pose proof (iterate_S _ _ _ _ Hs E) as Hs1. cbn [fst] in Hs1.
    destruct b.
    + injection H as <- <-.
      split; [lia|]. split; [lia|]. split; [exact Hs1|].
      intros m Hm. assert (m = n) by lia. subst m.
      exists s, s1, true. repeat split; auto.
    + destruct (IH _ _ Hs1 H) as (Hr & Hpos & HK & Hall).
      split; [lia|]. split; [lia|]. split; [exact HK|].
      intros m Hm. destruct (Nat.eq_dec m n) as [->|Hne].
      * exists s, s1, false. split; [exact Hs|]. split; [exact E|].
        split.
        -- intros HSn. right. destruct fuel; [lia|].
           assert (S n < K)%nat by (apply Hpos; lia). lia.
        -- intros [Hf|Hl]; [discriminate|]. lia.
      * destruct (Hall m) as (sm & sm' & b & E1 & E2 & Hiff); [lia|].
        exists sm, sm', b. split; [exact E1|]. split; [exact E2|].
        rewrite Hiff. replace (S n + fuel)%nat with (n + S fuel)%nat by lia.
        reflexivity.
Qed.

Lemma iterate_config (k : nat) (s0 s' : DirichletSystem) :
  iterN k s0 = Ok s' ->
  variant s' = variant s0 /\ pbc s' = pbc s0 /\
  priors s' = priors s0 /\ vol s' = vol s0 /\
  time_len s' = time_len s0 /\ sol_shape s' = sol_shape s0 /\
  stop_tol s' = stop_tol s0 /\ max_iter s' = max_iter s0 /\
  spat_dom s' = spat_dom s0 /\ ndim s' = ndim s0 /\
  pot_grid s' = pot_grid s0 /\
  length (energy_series s') = length (energy_series s0).
Proof.
  revert s'. induction k as [|k IH]; intros s' H.
  - injection H as <-. repeat split; reflexivity.
  - destruct (iterate_S_inv _ _ _ H) as (s & b & E & E').
    apply IH in E. apply iteration_config in E'.
    repeat match goal with H : _ /\ _ |- _ => destruct H end.
    repeat split; congruence.
Qed.

(** An entry of the energy series is written by the pass for its own index
    and by no later one. *)
Lemma iterate_energy_persist (k j : nat) (s0 sk s' : DirichletSystem) :
  iterN k s0 = Ok sk -> iterN (k + j) s0 = Ok s' ->
  forall i, (i < k)%nat ->
    nth i (energy_series s') 0 = nth i (energy_series sk) 0.
Proof.
  intros Hk. revert s'. induction j as [|j IH]; intros s' H i Hi.
  - rewrite Nat.add_0_r in H. congruence.
  - replace (k + S j)%nat with (S (k + j)) in H by lia.
    destruct (iterate_S_inv _ _ _ H) as (s & b & E & E').
    rewrite <- (IH s E i Hi).
    destruct (iteration_inv _ _ _ _ _ _ _ _ E')
      as (px & kine & e & _ & _ & _ & _ & _ & Hes & _).
    rewrite Hes. apply nth_list_set_neq. lia.
Qed.

Lemma iterate_well_shaped (k : nat) (s0 s' : DirichletSystem) :
  iterN k s0 = Ok s' ->
  shape alpha = sol_shape s0 -> shape beta = sol_shape s0 ->
  well_shaped s0 -> well_shaped s'.
Proof.
  intros H Ha Hb Hws. revert s' H. induction k as [|k IH]; intros s' H.
  - injection H as <-. exact Hws.
  - destruct (iterate_S_inv _ _ _ H) as (s & b & E & E').
    pose proof (iterate_config _ _ _ E) as Hc.
    apply (iteration_well_shaped _ _ _ _ _ _ _ _ E'); [| |apply IH, E].
    + rewrite Ha. symmetry. apply Hc.
    + rewrite Hb. symmetry. apply Hc.
Qed.

(** In Dirichlet mode on well-shaped arrays the loop never raises. *)
Lemma solve_loop_total (fuel n : nat) (s : DirichletSystem) :
  well_shaped s -> pbc s = false ->
  shape pg = sol_shape s -> shape alpha = sol_shape s ->
  shape beta = sol_shape s ->
  (n + fuel <= length (energy_series s))%nat ->
  exists s' K, loop fuel n s = Ok (s', K).
Proof.
  revert n s. induction fuel as [|fuel IH]; intros n s Hws Hpbc Hpg Ha Hb Hn;
    simpl; [eauto|].
  destruct (iteration_total alpha beta pg dt s n Hws Hpbc Hpg Ha Hb)
    as (s1 & b & E); [lia|].
  rewrite E. cbn [bind fst snd]. destruct b; [eauto|].
  pose proof (iteration_config _ _ _ _ _ _ _ _ E) as Hc.
  repeat match type of Hc with _ /\ _ => destruct Hc as [? Hc] end.
  apply IH; try congruence.
  - apply (iteration_well_shaped _ _ _ _ _ _ _ _ E); assumption.
  - lia.
Qed.

End Loop.

(** ** [solve] *)

Lemma t_len_scheduled (self : DirichletSystem) : t_len self = scheduled self.
Proof.
  unfold t_len, scheduled. destruct (max_iter self) as [m|]; [|reflexivity].
  destruct (Z.ltb_spec m (time_len self)); lia.
Qed.

Lemma solve_inv (self self' : DirichletSystem) (K : nat) :
  solve self = Ok (self', K) ->
  exists pg alpha s0,
    (0 <= time_len self)%Z /\
    pot_grid self = Some pg /\
    alpha_of (step (time_dom self)) pg (beta_of (step (time_dom self)) pg)
    = Ok alpha /\
    loop_entry self = Ok s0 /\
    solve_loop alpha (beta_of (step (time_dom self)) pg) pg
      (step (time_dom self)) (Z.to_nat (scheduled self)) 0 s0
    = Ok (self', K).
Proof.
  unfold solve. intros H. bind_inv H as es Ees.
  destruct (Z.ltb_spec (time_len self) 0) as [Hlt|Hge]; [discriminate|].
  injection Ees as <-. bind_inv H as pg Epg. unfold get_pot_grid in Epg.
  cbn [pot_grid set_energy_series set_run] in Epg.
  destruct (pot_grid self) as [pg'|] eqn:Hpg; [|discriminate].
  injection Epg as ->. bind_inv H as alpha Ea. bind_inv H as s0 Es0.
  exists pg, alpha, s0. split; [exact Hge|]. split; [reflexivity|].
  split; [exact Ea|]. split; [exact Es0|].
  rewrite <- t_len_scheduled.
  destruct (prepare_frame _ _ Es0) as (sm & Hs0 & _).
  subst s0. exact H.
Qed.

Lemma loop_entry_inv (self s0 : DirichletSystem) :
  loop_entry self = Ok s0 ->
  exists sm,
    s0 = set_sol_mesh
           (set_energy_series self (repeat 0 (Z.to_nat (time_len self)))) sm /\
    shape sm = shape (sol_mesh self).
Proof. intros H. apply prepare_frame in H. exact H. Qed.

(** In Dirichlet mode, on well-shaped arrays and a time domain with a
    non-negative step count, [solve] returns. *)
Lemma solve_total (self : DirichletSystem) (pg : ndarray) :
  well_shaped self -> pbc self = false -> (0 <= time_len self)%Z ->
  pot_grid self = Some pg -> shape pg = sol_shape self ->
  exists self' K, solve self = Ok (self', K).
Proof.
  intros Hws Hpbc Htl Hpg Hsh. unfold solve.
  destruct (Z.ltb_spec (time_len self) 0) as [Hlt|_]; [lia|].
  cbn [bind]. unfold get_pot_grid.
  cbn [pot_grid set_energy_series set_run]. rewrite Hpg. cbn [bind].
  destruct (alpha_beta_agrees _ (step (time_dom self)) pg _
              (agrees_self _ _ Hsh)) as (Ab & alpha & Ea & Aa).
  rewrite Ea. cbn [bind].
  set (s := set_energy_series self (repeat 0 (Z.to_nat (time_len self)))).
  assert (Hws' : well_shaped s)
    by (destruct Hws; constructor; assumption).
  destruct (prepare_agrees s Hws') as (sm & Ep & Ap).
  rewrite Ep. cbn [bind].
  apply solve_loop_total.
  - destruct Hws. constructor; try assumption. apply Ap.
  - exact Hpbc.
  - exact Hsh.
  - apply Aa.
  - apply Ab.
  - cbn. rewrite repeat_length.
    change (t_len (set_sol_mesh s sm)) with (t_len self).
    rewrite t_len_scheduled. unfold scheduled.
    destruct (max_iter self); lia.
Qed.

Lemma stop_test_true (self : DirichletSystem) (n : nat) (e : R) :
  stop_test self n e = true <->
  (0 < n)%nat /\
  exists tol, stop_tol self = Some tol /\
              Rabs (1 - nth (n - 1) (energy_series self) 0 / e) < tol.
Proof.
  unfold stop_test. destruct n as [|m].
  - split; [discriminate|]. intros [H _]. lia.
  - replace (S m - 1)%nat with m by lia.
    destruct (stop_tol self) as [tol|].
    + destruct (Rlt_dec _ tol) as [Hlt|Hge].
      * split; [|reflexivity]. intros _. split; [lia|]. eauto.
      * split; [discriminate|]. intros (_ & tol' & Ht & Hlt).
        injection Ht as <-. contradiction.
    + split; [discriminate|]. intros (_ & tol & Ht & _). discriminate.
Qed.

(** The pass for [n] of a run of [K] passes, seen from the final state: the
    value it wrote is entry [n] of the final energy series, and it ended in
    [break] exactly when the relative change of the final series at [n] is
    below a configured tolerance. *)
Lemma pass_seen_from_end (alpha beta pg : ndarray) (dt : R)
  (s0 sn sn' self' : DirichletSystem) (K n : nat) (b : bool) :
  iterate alpha beta pg dt K s0 = Ok self' -> (n < K)%nat ->
  iterate alpha beta pg dt n s0 = Ok sn ->
  iteration alpha beta pg dt sn n = Ok (sn', b) ->
  (forall i, (i <= n)%nat ->
     nth i (energy_series self') 0 = nth i (energy_series sn') 0) /\
  (b = true <->
   (0 < n)%nat /\
   exists tol, stop_tol s0 = Some tol /\
               relative_change (energy_series self') n < tol).
Proof.
  intros HK Hn Hsn Hit.
  pose proof (iterate_S _ _ _ _ _ _ _ _ Hsn Hit) as HS. cbn [fst] in HS.
  assert (Hpers : forall i, (i <= n)%nat ->
            nth i (energy_series self') 0 = nth i (energy_series sn') 0).
  { intros i Hi.
    apply (iterate_energy_persist alpha beta pg dt (S n) (K - S n) s0);
      [exact HS| |lia].
    replace (S n + (K - S n))%nat with K by lia. exact HK. }
  split; [exact Hpers|].
  destruct (iteration_inv _ _ _ _ _ _ _ _ Hit)
    as (px & kine & e & _ & _ & _ & _ & Hlen & Hes & Hb & _).
  assert (He : nth n (energy_series self') 0 = e).
  { rewrite Hpers by lia. rewrite Hes. apply nth_list_set_eq, Hlen. }
  rewrite Hb, stop_test_true.
  pose proof (iterate_config _ _ _ _ _ _ _ HS) as Hc.
  replace (stop_tol sn') with (stop_tol s0) by (symmetry; apply Hc).
  unfold relative_change. rewrite He.
  destruct n as [|m]; [split; intros [H _]; lia|].
  rewrite (Hpers (S m - 1)%nat) by lia. reflexivity.
Qed.

(** A run of [solve] that completed [K] passes
    through the loop body completed no more than the smaller of the step
    count of the time domain and the iteration override; it left the loop
    right after the pass for [n] exactly when [n > 0], a stop tolerance is
    configured and [|1 - E[n-1]/E[n]|] is below it, or when [n] was the last
    scheduled value; and with neither tolerance nor override it ran for the
    whole step count of the time domain. *)
Lemma solve_halting_spec (self self' : DirichletSystem) (K : nat) :
  solve self = Ok (self', K) ->
  (K <= Z.to_nat (scheduled self))%nat /\
  (K = 0%nat -> Z.to_nat (scheduled self) = 0%nat) /\
  (forall n, (n < K)%nat ->
     (S n = K <->
      ((0 < n)%nat /\
       exists tol, stop_tol self = Some tol /\
                   relative_change (energy_series self') n < tol)
      \/ S n = Z.to_nat (scheduled self))) /\
  (stop_tol self = None -> K = Z.to_nat (scheduled self)) /\
  (stop_tol self = None -> max_iter self = None ->
   Z.of_nat K = time_len self).
Proof.
  intros H.
  destruct (solve_inv _ _ _ H) as (pg & alpha & s0 & Htl & _ & _ & Hs0 & Hl).
  destruct (loop_entry_inv _ _ Hs0) as (sm & Hs0' & _).
  assert (Htol : stop_tol s0 = stop_tol self) by (subst s0; reflexivity).
  destruct (solve_loop_spec _ _ _ _ _ 0 s0 s0 self' K eq_refl Hl)
    as (Hr & Hpos & HK & Hall).
  cbn [Nat.add] in Hr, Hall.
  assert (Hiff : forall n, (n < K)%nat ->
     (S n = K <->
      ((0 < n)%nat /\
       exists tol, stop_tol self = Some tol /\
                   relative_change (energy_series self') n < tol)
      \/ S n = Z.to_nat (scheduled self))).
  { intros n Hn. destruct (Hall n) as (sn & sn' & b & E1 & E2 & Hi); [lia|].
    destruct (pass_seen_from_end _ _ _ _ _ _ _ _ _ _ _ HK Hn E1 E2)
      as [_ Hb].
    rewrite Hi, Hb, Htol. reflexivity. }
  assert (HK' : stop_tol self = None -> K = Z.to_nat (scheduled self)).
  { intros Hnone. destruct K as [|k].
    - destruct (Z.to_nat (scheduled self)); [reflexivity|].
      assert (0 < 0)%nat by (apply Hpos; lia). lia.
    - destruct (proj1 (Hiff k ltac:(lia)) eq_refl)
        as [(_ & tol & Ht & _)|Hlast]; [congruence|exact Hlast]. }
  split; [lia|]. split; [|split; [exact Hiff|split; [exact HK'|]]].
  - intros ->. destruct (Z.to_nat (scheduled self)); [reflexivity|].
    assert (0 < 0)%nat by (apply Hpos; lia). lia.
  - intros Hnone Hmax. specialize (HK' Hnone).
    unfold scheduled in HK'. rewrite Hmax in HK'. lia.
Qed.

(** Every pass of a run of [solve], with the states around it. *)
Lemma solve_pass (self self' : DirichletSystem) (K n : nat) :
  solve self = Ok (self', K) -> (n < K)%nat ->
  exists pg alpha sn sn' b,
    pot_grid self = Some pg /\
    alpha_of (step (time_dom self)) pg (beta_of (step (time_dom self)) pg)
    = Ok alpha /\
    state_before self n = Ok sn /\
    state_before self (S n) = Ok sn' /\
    state_before self K = Ok self' /\
    iteration alpha (beta_of (step (time_dom self)) pg) pg
      (step (time_dom self)) sn n = Ok (sn', b) /\
    (forall i, (i <= n)%nat ->
       nth i (energy_series self') 0 = nth i (energy_series sn') 0) /\
    sol_shape sn = sol_shape self /\ time_len sn = time_len self /\
    vol sn = vol self /\ variant sn = variant self /\
    pbc sn = pbc self /\ priors sn = priors self /\
    spat_dom sn = spat_dom self /\ ndim sn = ndim self /\
    (shape pg = sol_shape self -> well_shaped self -> well_shaped sn).
Proof.
  intros H Hn.
  destruct (solve_inv _ _ _ H) as (pg & alpha & s0 & Htl & Hpg & Ha & Hs0 & Hl).
  destruct (solve_loop_spec _ _ _ _ _ 0 s0 s0 self' K eq_refl Hl)
    as (_ & _ & HK & Hall).
  destruct (Hall n) as (sn & sn' & b & E1 & E2 & _); [lia|].
  pose proof (iterate_S _ _ _ _ _ _ _ _ E1 E2) as ES. cbn [fst] in ES.
  assert (Hsb : forall k, state_before self k
                = iterate alpha (beta_of (step (time_dom self)) pg) pg
                    (step (time_dom self)) k s0).
  { intros k. unfold state_before, get_pot_grid.
    rewrite Hpg. cbn [bind]. rewrite Ha. cbn [bind]. rewrite Hs0.
    reflexivity. }
  exists pg, alpha, sn, sn', b.
  rewrite !Hsb.
  destruct (pass_seen_from_end _ _ _ _ _ _ _ _ _ _ _ HK Hn E1 E2)
    as [Hpers _].
  pose proof (iterate_config _ _ _ _ _ _ _ E1) as Hc.
  destruct (loop_entry_inv _ _ Hs0) as (sm & Hs0' & Hsm).
  repeat match type of Hc with _ /\ _ => destruct Hc as [? Hc] end.
  assert (Hcfg : sol_shape s0 = sol_shape self /\ time_len s0 = time_len self
                 /\ vol s0 = vol self /\ variant s0 = variant self
                 /\ pbc s0 = pbc self /\ priors s0 = priors self
                 /\ spat_dom s0 = spat_dom self /\ ndim s0 = ndim self)
    by (subst s0; repeat split; reflexivity).
  repeat match type of Hcfg with _ /\ _ => destruct Hcfg as [? Hcfg] end.
  repeat (split; [solve [assumption|congruence]|]).
  intros Hshape Hws.
  destruct (alpha_beta_agrees _ (step (time_dom self)) pg _
              (agrees_self _ _ Hshape)) as (Ab & alpha' & Ea' & Aa).
  rewrite Ha in Ea'. injection Ea' as <-.
  apply (iterate_well_shaped _ _ _ _ _ _ _ E1).
  - rewrite (proj1 Aa). congruence.
  - rewrite (proj1 Ab). congruence.
  - destruct Hws as [Hnd Hdoms Hs Hpr]. subst s0.
    constructor; try assumption. cbn. congruence.
Qed.

(** For every pass [n] of a run of [solve] on arrays
    of the grid shape, entry [n] of the energy series the run leaves is
    (sum of potential * solution^2 - sum of kinetic term * solution) over
    (sum of solution^2), taken on the solution and the kinetic term that
    pass holds before its update; in Dirichlet mode that kinetic term is the
    sum over the axes of the second differences of that solution. *)
Lemma pass_energy (self self' : DirichletSystem) (K : nat)
  (pg : ndarray) :
  well_shaped self -> pot_grid self = Some pg -> shape pg = sol_shape self ->
  solve self = Ok (self', K) ->
  forall n, (n < K)%nat ->
    exists sn px kine,
      state_before self n = Ok sn /\
      pre_update sn n = Ok (set_sol_mesh (set_counter sn n) px, kine) /\
      shape px = sol_shape self /\ shape kine = sol_shape self /\
      nth n (energy_series self') 0
      = rayleigh (sol_shape self) (data pg) (data px) (data kine) /\
      (pbc self = false ->
       agrees kine (sol_shape self)
         (kinetic_term (sol_shape self) (map step (spat_dom self)) (data px)
                       (length (sol_shape self)))).
Proof.
  intros Hws Hpg Hshape H n Hn.
  destruct (solve_pass _ _ _ _ H Hn)
    as (pg' & alpha & sn & sn' & b & Hpg' & Ha & Hsn & _ & _ & Hit & Hpers
        & Hsh & _ & _ & _ & Hpbc & _ & Hdom & Hnd & Hwsn).
  rewrite Hpg in Hpg'. injection Hpg' as <-.
  specialize (Hwsn Hshape Hws).
  destruct (iteration_inv _ _ _ _ _ _ _ _ Hit)
    as (px & kine & e & Hpre & Hpx & Hk & He & Hlen & Hes & _).
  assert (Hpx' : shape px = sol_shape self)
    by (rewrite Hpx, (ws_sol _ Hwsn); exact Hsh).
  assert (Hk' : shape kine = sol_shape self) by congruence.
  exists sn, px, kine.
  split; [exact Hsn|]. split; [exact Hpre|].
  split; [exact Hpx'|]. split; [exact Hk'|]. split.
  - rewrite (energy_agrees _ pg px kine _ _ _ (agrees_self _ _ Hshape)
               (agrees_self _ _ Hpx') (agrees_self _ _ Hk')) in He.
    injection He as <-.
    rewrite Hpers by lia. rewrite Hes. apply nth_list_set_eq, Hlen.
  - intros Hd.
    destruct (pre_update_dirichlet sn n Hwsn ltac:(congruence))
      as (px1 & kine1 & Hpre1 & _ & Ak).
    rewrite Hpre in Hpre1. injection Hpre1 as <- <-.
    rewrite Hsh, Hdom, Hnd in Ak. rewrite <- (ws_ndim _ Hws). exact Ak.
Qed.

Lemma normalize_config (s s' : DirichletSystem) (u : ndarray) :
  variant s = variant s' -> vol s = vol s' -> normalize s u = normalize s' u.
Proof. intros Hv Hw. unfold normalize. rewrite Hv, Hw. reflexivity. Qed.

Lemma pre_update_px_inj (s : DirichletSystem) (n : nat)
  (px px' kine kine' : ndarray) :
  Ok (set_sol_mesh (set_counter s n) px, kine)
  = Ok (set_sol_mesh (set_counter s n) px', kine') ->
  px = px' /\ kine = kine'.
Proof.
  intros H. injection H as H1 H2. split; assumption.
Qed.

(** On every pass [n] of a run of [solve] with
    [n + 1] below the step count of the time domain -- every non-final pass
    is one -- the solution is replaced by [normalize u], where at each grid
    point [u = alpha * px + dt * beta * kine] for the pre-update solution
    [px], the kinetic term [kine], [beta = 1 / (1 + 0.5 dt V)] and
    [alpha = (1 - 0.5 dt V) * beta], [V] the cached potential. *)
Lemma pass_update (self self' : DirichletSystem) (K : nat)
  (pg : ndarray) :
  well_shaped self -> pot_grid self = Some pg -> shape pg = sol_shape self ->
  solve self = Ok (self', K) ->
  forall n, (n < K)%nat -> (Z.of_nat n + 1 < time_len self)%Z ->
    exists sn px kine u sn',
      state_before self n = Ok sn /\
      pre_update sn n = Ok (set_sol_mesh (set_counter sn n) px, kine) /\
      state_before self (S n) = Ok sn' /\
      agrees u (sol_shape self)
        (fun idx =>
           let dt := step (time_dom self) in
           let beta := 1 / (1 + 0.5 * dt * data pg idx) in
           let alpha := (1 - 0.5 * dt * data pg idx) * beta in
           alpha * data px idx + dt * beta * data kine idx) /\
      normalize self u = Ok (sol_mesh sn').
Proof.
  intros Hws Hpg Hshape H n Hn Hlt.
  destruct (solve_pass _ _ _ _ H Hn)
    as (pg' & alpha & sn & sn' & b & Hpg' & Ha & Hsn & Hsn' & _ & Hit & _
        & Hsh & Htl & Hvol & Hvar & _ & _ & _ & _ & Hwsn).
  rewrite Hpg in Hpg'. injection Hpg' as <-.
  specialize (Hwsn Hshape Hws).
  destruct (alpha_beta_agrees _ (step (time_dom self)) pg _
              (agrees_self _ _ Hshape)) as (Ab & alpha' & Ea' & Aa).
  rewrite Ha in Ea'. injection Ea' as <-.
  destruct (iteration_inv _ _ _ _ _ _ _ _ Hit)
    as (px & kine & e & Hpre & Hpx & Hk & _ & _ & _ & _ & Hup & _).
  destruct (Hup ltac:(lia)) as (u & sq & sm & Eu & _ & En & Hsn'eq).
  assert (Hpx' : shape px = sol_shape self)
    by (rewrite Hpx, (ws_sol _ Hwsn); exact Hsh).
  assert (Hk' : shape kine = sol_shape self) by congruence.
  destruct (update_agrees _ alpha _ (step (time_dom self)) px kine _ _ _ _
              Aa Ab (agrees_self _ _ Hpx') (agrees_self _ _ Hk'))
    as (u' & Eu' & Au).
  rewrite Eu in Eu'. injection Eu' as <-.
  exists sn, px, kine, u, sn'.
  split; [exact Hsn|]. split; [exact Hpre|]. split; [exact Hsn'|].
  split; [exact Au|].
  rewrite <- (normalize_config sn self u Hvar Hvol), En, Hsn'eq.
  reflexivity.
Qed.

(** Every pass [n] of a run of [solve] records its
    energy from the pre-update solution.  The pass skips the update and the
    renormalisation when [n + 1] is the step count of the time domain, and
    then it is the last pass; on any other pass it appends a norm to the log,
    also when the pass is the last one under an iteration override.  So the
    last scheduled pass skips them whenever the schedule is the step count
    of the time domain. *)
Lemma pass_skip (self self' : DirichletSystem)
  (K : nat) (pg : ndarray) :
  well_shaped self -> pot_grid self = Some pg -> shape pg = sol_shape self ->
  solve self = Ok (self', K) ->
  (forall n, (n < K)%nat ->
     exists sn px kine sn',
       state_before self n = Ok sn /\
       pre_update sn n = Ok (set_sol_mesh (set_counter sn n) px, kine) /\
       state_before self (S n) = Ok sn' /\
       nth n (energy_series self') 0
       = rayleigh (sol_shape self) (data pg) (data px) (data kine) /\
       ((Z.of_nat n + 1 = time_len self)%Z ->
        sol_mesh sn' = px /\ logs sn' = logs sn /\ S n = K) /\
       ((Z.of_nat n + 1 <> time_len self)%Z ->
        length (logs sn') = S (length (logs sn)))) /\
  (scheduled self = time_len self -> final_pass_skips_update self).
Proof.
  intros Hws Hpg Hshape H.
  assert (Hpass : forall self' K, solve self = Ok (self', K) ->
    forall n, (n < K)%nat ->
     exists sn px kine sn',
       state_before self n = Ok sn /\
       pre_update sn n = Ok (set_sol_mesh (set_counter sn n) px, kine) /\
       state_before self (S n) = Ok sn' /\
       nth n (energy_series self') 0
       = rayleigh (sol_shape self) (data pg) (data px) (data kine) /\
       ((Z.of_nat n + 1 = time_len self)%Z ->
        sol_mesh sn' = px /\ logs sn' = logs sn /\ S n = K) /\
       ((Z.of_nat n + 1 <> time_len self)%Z ->
        length (logs sn') = S (length (logs sn)))).
  { clear self' K H. intros self' K H n Hn.
    destruct (pass_energy _ _ _ _ Hws Hpg Hshape H n Hn)
      as (sn & px & kine & Hsn & Hpre & _ & _ & He & _).
    destruct (solve_pass _ _ _ _ H Hn)
      as (pg' & alpha & sn1 & sn' & b & _ & _ & Hsn1 & Hsn' & _ & Hit & _
          & _ & Htl & _).
    rewrite Hsn in Hsn1. injection Hsn1 as <-.
    destruct (iteration_inv _ _ _ _ _ _ _ _ Hit)
      as (px1 & kine1 & e & Hpre1 & _ & _ & _ & _ & _ & _ & Hup & Hskip).
    rewrite Hpre in Hpre1. apply pre_update_px_inj in Hpre1.
    destruct Hpre1 as [<- <-].
    exists sn, px, kine, sn'.
    split; [exact Hsn|]. split; [exact Hpre|]. split; [exact Hsn'|].
    split; [exact He|].
    destruct (solve_halting_spec _ _ _ H) as (HK & _ & _ & _ & _).
    assert (Hsched : (scheduled self <= time_len self)%Z)
      by (unfold scheduled; destruct (max_iter self); lia).
    split.
    - intros Heq. rewrite (Hskip ltac:(lia)).
      split; [reflexivity|]. split; [reflexivity|]. lia.
    - intros Hne. destruct (Hup ltac:(lia)) as (u & sq & sm & _ & _ & _ & ->).
      cbn. rewrite length_app. simpl. lia. }
  split; [exact (Hpass self' K H)|].
  intros Hsched self1 K1 n sn px kine H1 Hlast Hn Hsn Hpre.
  destruct (Hpass self1 K1 H1 n Hn)
    as (sn1 & px1 & kine1 & sn' & Hsn1 & Hpre1 & Hsn' & _ & Hskip & _).
  rewrite Hsn in Hsn1. injection Hsn1 as <-.
  rewrite Hpre in Hpre1. apply pre_update_px_inj in Hpre1.
  destruct Hpre1 as [<- <-].
  destruct (Hskip ltac:(lia)) as (Hsol & Hlogs & HK).
  destruct (solve_pass _ _ _ _ H1 Hn)
    as (_ & _ & _ & sn2 & _ & _ & _ & _ & Hsn2 & HK1 & _).
  rewrite Hsn' in Hsn2. injection Hsn2 as <-.
  rewrite <- HK in HK1. rewrite Hsn' in HK1. injection HK1 as <-.
  split; assumption.
Qed.

(** ** The closed form of a pass in Dirichlet mode *)

Lemma nth_overflow_0 (l : list nat) (i : nat) :
  (length l <= i)%nat -> nth i l O = O.
Proof. intros H. apply nth_overflow, H. Qed.

Lemma replace_at_in_shape_same (i k : nat) (idx : index) (sh : list nat) :
  in_shape idx sh -> (k < nth i sh O)%nat -> in_shape (replace_at i k idx) sh.
Proof.
  intros Hidx Hk.
  assert (Hi : (i < length sh)%nat).
  { destruct (Nat.lt_ge_cases i (length sh)) as [H|H]; [exact H|].
    rewrite nth_overflow_0 in Hk by exact H. lia. }
  rewrite <- (replace_at_nth i sh Hi).
  apply replace_at_in_shape; assumption.
Qed.

Lemma second_diff_ext (sh : list nat) (h : R) (f g : index -> R) (i : nat)
  (idx : index) :
  (forall j, in_shape j sh -> f j = g j) -> in_shape idx sh ->
  second_diff sh h f i idx = second_diff sh h g i idx.
Proof.
  intros Hfg Hidx. unfold second_diff.
  destruct ((1 <=? nth i idx O) && (nth i idx O <? nth i sh O - 1))%nat
    eqn:Hc; [|reflexivity].
  apply andb_prop in Hc. destruct Hc as [H1 H2].
  apply Nat.leb_le in H1. apply Nat.ltb_lt in H2.
  rewrite !Hfg; [reflexivity|exact Hidx| |];
    apply replace_at_in_shape_same; try assumption; lia.
Qed.

Lemma kinetic_term_ext (sh : list nat) (hs : list R) (f g : index -> R)
  (k : nat) (idx : index) :
  (forall j, in_shape j sh -> f j = g j) -> in_shape idx sh ->
  kinetic_term sh hs f k idx = kinetic_term sh hs g k idx.
Proof.
  intros Hfg Hidx. induction k as [|k IH]; simpl; [reflexivity|].
  rewrite IH, (second_diff_ext sh _ f g k idx Hfg Hidx). reflexivity.
Qed.

Lemma norm_of_ext (nb : notebook) (w : R) (sh : list nat)
  (f g : index -> R) :
  (forall j, in_shape j sh -> f j = g j) ->
  norm_of nb w sh f = norm_of nb w sh g.
Proof.
  intros Hfg.
  assert (H : sum_over sh (fun idx => f idx * f idx)
              = sum_over sh (fun idx => g idx * g idx))
    by (apply sum_over_ext; intros j Hj; rewrite Hfg by exact Hj; reflexivity).
  destruct nb; simpl; rewrite H; reflexivity.
Qed.

(** A pass leaves the deflated solution when it skips the update, and the
    normalised update of the deflated solution when it does not. *)
Lemma pass_closed_form (alpha beta pg : ndarray) (dt : R)
  (fa fb : index -> R) (sn sn' : DirichletSystem) (n : nat) (b : bool) :
  well_shaped sn -> pbc sn = false ->
  agrees alpha (sol_shape sn) fa -> agrees beta (sol_shape sn) fb ->
  iteration alpha beta pg dt sn n = Ok (sn', b) ->
  let sh := sol_shape sn in
  let P := deflated_all (variant sn) (vol sn) sh (priors sn)
             (data (sol_mesh sn)) in
  ((Z.of_nat n + 1 < time_len sn)%Z ->
   agrees (sol_mesh sn') sh
     (normalized (variant sn) (vol sn) sh
        (updated sh (map step (spat_dom sn)) dt fa fb P))) /\
  ((time_len sn <= Z.of_nat n + 1)%Z -> agrees (sol_mesh sn') sh P).
Proof.
  intros Hws Hpbc Aa Ab Hit sh P.
  destruct (pre_update_dirichlet sn n Hws Hpbc) as (px & kine & Hpre & Ap & Ak).
  fold sh in Ap, Ak. fold (deflated_all (variant sn) (vol sn) sh (priors sn)
                             (data (sol_mesh sn))) in Ap. fold P in Ap.
  destruct (iteration_inv _ _ _ _ _ _ _ _ Hit)
    as (px1 & kine1 & e & Hpre1 & _ & _ & _ & _ & _ & _ & Hup & Hskip).
  rewrite Hpre in Hpre1. apply pre_update_px_inj in Hpre1.
  destruct Hpre1 as [<- <-].
  split.
  - intros Hlt. destruct (Hup Hlt) as (u & sq & sm & Eu & _ & En & ->).
    cbn [sol_mesh set_run set_sol_mesh set_mesh].
    assert (Ak' : agrees kine sh
                    (kinetic_term sh (map step (spat_dom sn)) P (length sh))).
    { apply (agrees_ext _ _ _ _ Ak). intros idx Hidx.
      rewrite (ws_ndim _ Hws). apply kinetic_term_ext; [|exact Hidx].
      apply Ap. }
    destruct (update_agrees sh alpha beta dt px kine _ _ _ _ Aa Ab Ap Ak')
      as (u' & Eu' & Au).
    rewrite Eu in Eu'. injection Eu' as <-.
    destruct (normalize_agrees sn sh u _ Au) as (sm' & En' & An).
    rewrite En in En'. injection En' as <-. exact An.
  - intros Hge. rewrite (Hskip Hge). exact Ap.
Qed.

(** ** Dirichlet boundary values *)








(** ** Ingestion of the initial condition *)

Lemma norm_index_zero (m k : nat) : norm_index 0 m = Some k -> k = O.
Proof.
  unfold norm_index. simpl.
  destruct (0 <? Z.of_nat m)%Z; [|discriminate].
  intros H. injection H as <-. reflexivity.
Qed.

Lemma norm_index_last (m k : nat) :
  norm_index (Z.of_nat m - 1) m = Some k -> k = (m - 1)%nat /\ (1 <= m)%nat.
Proof.
  unfold norm_index. intros H.
  destruct (Z.leb_spec 0 (Z.of_nat m - 1)) as [H0|H0].
  - destruct (Z.ltb_spec (Z.of_nat m - 1) (Z.of_nat m)); [|discriminate].
    injection H as <-. lia.
  - destruct (Z.leb_spec (- Z.of_nat m) (Z.of_nat m - 1)); [|discriminate].
    injection H as <-. lia.
Qed.

Lemma put_scalar_inv (nd i : nat) (k : Z) (a c : ndarray) (x : R) :
  put_scalar nd i k a x = Ok c ->
  exists k', norm_index k (nth i (shape a) O) = Some k' /\
             shape c = shape a /\
             forall idx, data c idx
                         = if (nth i idx O =? k')%nat then x else data a idx.
Proof.
  unfold put_scalar, axis_extent. intros H. bind_inv H as m Em.
  destruct (length (shape a) <? nd)%nat; [discriminate|].
  injection Em as <-.
  destruct (norm_index k (nth i (shape a) O)) as [k'|]; [|discriminate].
  injection H as <-. exists k'. repeat split; reflexivity.
Qed.

(** The loop of [_apply_boundary] over pairs of an axis and its extent. *)
Lemma apply_boundary_fold (nd : nat) (sh : list nat)
  (pairs : list (nat * nat)) (a a' : ndarray) :
  (forall i l, In (i, l) pairs -> l = nth i sh O) ->
  shape a = sh ->
  foldM (fun sm (il : nat * nat) =>
           let (i, l) := il in
           sm <- put_scalar nd i 0 sm 0 ;;
           put_scalar nd i (Z.of_nat l - 1) sm 0) pairs a = Ok a' ->
  shape a' = sh /\
  (forall idx, data a idx = 0 -> data a' idx = 0) /\
  (forall i l idx, In (i, l) pairs ->
     nth i idx O = O \/ nth i idx O = (l - 1)%nat -> data a' idx = 0).
Proof.
  intros Hp. revert a. induction pairs as [|[i l] pairs IH]; intros a Hs H;
    simpl in H.
  - injection H as <-. split; [exact Hs|]. split; [auto|].
    intros i l idx [].
  - bind_inv H as a2 E2. bind_inv E2 as a1 E1.
    destruct (put_scalar_inv _ _ _ _ _ _ E1) as (k1 & Hk1 & Hs1 & Hd1).
    destruct (put_scalar_inv _ _ _ _ _ _ E2) as (k2 & Hk2 & Hs2 & Hd2).
    apply norm_index_zero in Hk1. subst k1.
    rewrite Hs1, Hs in Hk2.
    rewrite (Hp i l (or_introl eq_refl)) in Hk2.
    apply norm_index_last in Hk2. destruct Hk2 as [Hk2 Hm].
    destruct (IH (fun i l H => Hp i l (or_intror H)) a2 ltac:(congruence) H)
      as (Hs' & Hz & Hb).
    split; [exact Hs'|]. split.
    + intros idx H0. apply Hz. rewrite Hd2, Hd1, H0.
      repeat match goal with
             | |- context [if ?c then _ else _] => destruct c
             end; reflexivity.
    + intros i' l' idx [Heq|Hin] Hbd.
      * injection Heq as <- <-. apply Hz. rewrite Hd2, Hd1.
        rewrite (Hp i l (or_introl eq_refl)) in Hbd.
        destruct Hbd as [Hbd|Hbd]; rewrite Hbd.
        -- rewrite Nat.eqb_refl. destruct (Nat.eqb O k2); reflexivity.
        -- subst k2. rewrite Nat.eqb_refl. reflexivity.
      * apply (Hb i' l' idx Hin Hbd).
Qed.

Lemma combine_seq_in (sh : list nat) (k i l : nat) :
  In (i, l) (combine (seq k (length sh)) sh) ->
  (k <= i < k + length sh)%nat /\ l = nth (i - k) sh O.
Proof.
  revert k. induction sh as [|a sh IH]; intros k H; simpl in H; [tauto|].
  destruct H as [H|H].
  - injection H as <- <-. rewrite Nat.sub_diag. simpl. split; [lia|reflexivity].
  - apply IH in H. destruct H as [Hk ->]. simpl. split; [lia|].
    replace (i - k)%nat with (S (i - S k)) by lia. reflexivity.
Qed.

Lemma in_combine_seq (sh : list nat) (k i : nat) :
  (i < length sh)%nat ->
  In ((k + i)%nat, nth i sh O) (combine (seq k (length sh)) sh).
Proof.
  revert k i. induction sh as [|a sh IH]; intros k i H; simpl in H; [lia|].
  destruct i as [|i]; simpl.
  - left. f_equal. lia.
  - right. replace (k + S i)%nat with (S k + i)%nat by lia.
    apply IH. lia.
Qed.

(** In Dirichlet mode an ingestion that succeeds on a field of the grid
    shape leaves it zero at every boundary point. *)
Lemma apply_boundary_zero (self s1 : DirichletSystem) :
  bd_cond self = None -> pbc self = false ->
  shape (sol_mesh self) = sol_shape self ->
  _apply_boundary self = Ok s1 ->
  exists sm, s1 = set_sol_mesh self sm /\ shape sm = sol_shape self /\
             zero_on_boundary sm.
Proof.
  intros Hbd Hpbc Hs H. unfold _apply_boundary in H.
  rewrite Hbd, Hpbc in H. bind_inv H as sm E. injection H as <-.
  exists sm. split; [reflexivity|].
  apply apply_boundary_fold with (sh := sol_shape self) in E;
    [|intros i l Hin; apply combine_seq_in in Hin; destruct Hin as [_ ->];
      rewrite Nat.sub_0_r; reflexivity|exact Hs].
  destruct E as (Hs' & _ & Hb). split; [exact Hs'|].
  unfold zero_on_boundary, vanishes_on_boundary. rewrite Hs'.
  intros idx Hidx (i & Hi & Hib).
  apply (Hb i (nth i (sol_shape self) O) idx); [|exact Hib].
  apply (in_combine_seq (sol_shape self) 0 i Hi).
Qed.

Lemma set_psi0_by_grid_inv (self s1 : DirichletSystem) (psi0 : ndarray) :
  set_psi0_by_grid self psi0 = Ok s1 ->
  exists s pg,
    _apply_boundary (set_sol_mesh self psi0) = Ok s /\
    s1 = set_pot_grid s pg /\ shape pg = sol_shape s.
Proof.
  unfold set_psi0_by_grid, _initialize. intros H. bind_inv H as s E.
  injection H as <-. eexists s, _. split; [exact E|].
  split; reflexivity.
Qed.







(** ** Volume-weighted inner products and norms *)

Lemma sum_over_scal_r (sh : list nat) (c : R) (f : index -> R) :
  sum_over sh (fun idx => f idx * c) = sum_over sh f * c.
Proof.
  rewrite Rmult_comm, <- sum_over_scal. apply sum_over_ext. intros; lra.
Qed.

Lemma sum_over_sq_nonneg (sh : list nat) (f : index -> R) :
  0 <= sum_over sh (fun idx => f idx * f idx).
Proof.
  revert f. induction sh as [|n sh IH]; intros f; simpl.
  - nra.
  - induction n as [|n IHn]; simpl; [lra|].
    pose proof (IH (fun idx => f (n :: idx))). simpl in *. lra.
Qed.

Lemma winner_ext (w : R) (sh : list nat) (f f' g g' : index -> R) :
  (forall idx, in_shape idx sh -> f idx = f' idx) ->
  (forall idx, in_shape idx sh -> g idx = g' idx) ->
  winner w sh f g = winner w sh f' g'.
Proof.
  intros Hf Hg. unfold winner. f_equal. apply sum_over_ext.
  intros idx Hidx. rewrite Hf, Hg by exact Hidx. reflexivity.
Qed.

Lemma winner_sym (w : R) (sh : list nat) (f g : index -> R) :
  winner w sh f g = winner w sh g f.
Proof.
  unfold winner. f_equal. apply sum_over_ext. intros; apply Rmult_comm.
Qed.


Lemma wnorm_agrees (w : R) (a : ndarray) (sh : list nat) (f : index -> R) :
  agrees a sh f ->
  wnorm w a = sqrt (sum_over sh (fun idx => f idx * f idx) * w).
Proof.
  intros [Hs Hd]. unfold wnorm. rewrite Hs. f_equal. f_equal.
  apply sum_over_ext. intros idx Hidx. rewrite Hd by exact Hidx. reflexivity.
Qed.

(** The weighted norm of a field rescaled by [normalize]: 1 when the norm
    that divides carries the weight, [sqrt w] when it does not. *)
Lemma normalized_wnorm_columb3d (w : R) (sh : list nat) (U : index -> R) :
  0 < sum_over sh (fun idx => U idx * U idx) * w ->
  sqrt (sum_over sh (fun idx =>
                       normalized Columb3D w sh U idx
                       * normalized Columb3D w sh U idx) * w) = 1.
Proof.
  intros Hpos. unfold normalized, norm_of.
  set (S := sum_over sh (fun idx => U idx * U idx)) in *.
  rewrite (sum_over_ext sh _
             (fun idx => U idx * U idx * (1 / sqrt (S * w) * (1 / sqrt (S * w)))))
    by (intros; unfold Rdiv; ring).
  rewrite sum_over_scal_r. fold S.
  assert (Hs : sqrt (S * w) * sqrt (S * w) = S * w)
    by (apply sqrt_sqrt; lra).
  assert (Hne : sqrt (S * w) <> 0).
  { intros H0. rewrite H0 in Hs. lra. }
  replace (S * (1 / sqrt (S * w) * (1 / sqrt (S * w))) * w)
    with ((S * w) / (sqrt (S * w) * sqrt (S * w))) by (field; exact Hne).
  rewrite Hs. unfold Rdiv. rewrite Rinv_r by lra.
  apply sqrt_1.
Qed.

Lemma normalized_wnorm_free2d (w : R) (sh : list nat) (U : index -> R) :
  0 < sum_over sh (fun idx => U idx * U idx) ->
  sqrt (sum_over sh (fun idx =>
                       normalized Free2D w sh U idx
                       * normalized Free2D w sh U idx) * w) = sqrt w.
Proof.
  intros Hpos. unfold normalized, norm_of.
  set (S := sum_over sh (fun idx => U idx * U idx)) in *.
  rewrite (sum_over_ext sh _
             (fun idx => U idx * U idx * (1 / sqrt S * (1 / sqrt S))))
    by (intros; unfold Rdiv; ring).
  rewrite sum_over_scal_r. fold S.
  assert (Hs : sqrt S * sqrt S = S) by (apply sqrt_sqrt; lra).
  assert (Hne : sqrt S <> 0).
  { intros H0. rewrite H0 in Hs. lra. }
  f_equal.
  replace (S * (1 / sqrt S * (1 / sqrt S)) * w)
    with (S / (sqrt S * sqrt S) * w) by (field; exact Hne).
  rewrite Hs. unfold Rdiv. rewrite Rinv_r by lra. lra.
Qed.

(** ** Deflation as a projection *)

Section Deflation.

Variables (w : R) (sh : list nat).

Local Abbreviation ip := (winner w sh).
Local Abbreviation D := (deflated Columb3D w sh).

Lemma winner_deflated (nb : notebook) (fs fv g : index -> R) :
  ip (deflated nb w sh fs fv) g
  = ip fs g
    - sum_over sh (fun j => fs j * (fv j * (1 / norm_of nb w sh fv)) * w)
      * ip fv g.
Proof.
  unfold winner, deflated.
  rewrite (sum_over_ext sh _
     (fun idx => fs idx * g idx
                 - sum_over sh
                     (fun j => fs j * (fv j * (1 / norm_of nb w sh fv)) * w)
                   * (fv idx * g idx))) by (intros; lra).
  rewrite sum_over_minus, sum_over_scal. lra.
Qed.

Lemma unit_norm_of (fv : index -> R) :
  ip fv fv = 1 -> norm_of Columb3D w sh fv = 1.
Proof.
  intros H. unfold norm_of. unfold winner in H. rewrite H. apply sqrt_1.
Qed.

(** Deflating against a prior of unit weighted norm subtracts the
    projection onto it. *)
Lemma winner_deflated_unit (fs fv g : index -> R) :
  ip fv fv = 1 -> ip (D fs fv) g = ip fs g - ip fs fv * ip fv g.
Proof.
  intros H. rewrite winner_deflated, (unit_norm_of fv H). f_equal. f_equal.
  unfold winner. rewrite <- sum_over_scal_r. apply sum_over_ext.
  intros; field.
Qed.

Lemma deflated_all_keeps_orthogonal (vs : list ndarray) (f g : index -> R) :
  Forall (fun v => ip (data v) (data v) = 1) vs ->
  Forall (fun v => ip (data v) g = 0) vs ->
  ip f g = 0 -> ip (deflated_all Columb3D w sh vs f) g = 0.
Proof.
  intros Hu. revert f. unfold deflated_all.
  induction Hu as [|v vs Hv Hu IH]; intros f Ho Hf; simpl; [exact Hf|].
  inversion Ho as [|? ? Hvg Ho']; subst.
  apply IH; [exact Ho'|].
  rewrite (winner_deflated_unit f (data v) g Hv), Hf, Hvg. lra.
Qed.

(** After deflating against orthonormal priors the field is orthogonal to
    each of them. *)
Lemma deflated_all_orthogonal (vs : list ndarray) (f : index -> R) :
  Forall (fun v => ip (data v) (data v) = 1) vs ->
  ForallOrdPairs (fun u v => ip (data u) (data v) = 0) vs ->
  Forall (fun v => ip (deflated_all Columb3D w sh vs f) (data v) = 0) vs.
Proof.
  intros Hu Ho. revert f. induction Ho as [|v vs Hv Ho IH]; intros f;
    [constructor|].
  inversion Hu as [|? ? Hv1 Hu']; subst.
  constructor.
  - unfold deflated_all. simpl.
    apply (deflated_all_keeps_orthogonal vs _ (data v) Hu').
    + apply Forall_forall. intros u Hin.
      rewrite winner_sym. revert u Hin. apply Forall_forall. exact Hv.
    + rewrite (winner_deflated_unit f (data v) (data v) Hv1), Hv1. lra.
  - apply (IH Hu' (D f (data v))).
Qed.

End Deflation.

(** ** The grid builder *)









(** ** Ingestion of a field of any shape *)

Lemma norm_index_zero_ok (m : nat) : (1 <= m)%nat -> norm_index 0 m = Some O.
Proof.
  intros H. unfold norm_index. simpl.
  destruct (Z.ltb_spec 0 (Z.of_nat m)); [reflexivity|lia].
Qed.

Lemma norm_index_last_ok (l m : nat) :
  (1 <= m)%nat -> (l <= m)%nat ->
  exists k, norm_index (Z.of_nat l - 1) m = Some k.
Proof.
  intros Hm Hl. unfold norm_index.
  destruct (Z.leb_spec 0 (Z.of_nat l - 1)).
  - destruct (Z.ltb_spec (Z.of_nat l - 1) (Z.of_nat m)); [eauto|lia].
  - destruct (Z.leb_spec (- Z.of_nat m) (Z.of_nat l - 1)); [eauto|lia].
Qed.

Lemma put_scalar_ok (nd i : nat) (k : Z) (k' : nat) (a : ndarray) (x : R) :
  (nd <= length (shape a))%nat ->
  norm_index k (nth i (shape a) O) = Some k' ->
  exists c, put_scalar nd i k a x = Ok c /\ shape c = shape a.
Proof.
  intros Hnd Hk. unfold put_scalar.
  rewrite axis_extent_ok by exact Hnd. cbn [bind]. rewrite Hk.
  eexists. split; reflexivity.
Qed.

Lemma apply_boundary_fold_ok (nd : nat) (m : list nat)
  (pairs : list (nat * nat)) (a : ndarray) :
  shape a = m -> (nd <= length m)%nat ->
  (forall i l, In (i, l) pairs ->
               (1 <= nth i m O)%nat /\ (l <= nth i m O)%nat) ->
  exists a',
    foldM (fun sm (il : nat * nat) =>
             let (i, l) := il in
             sm <- put_scalar nd i 0 sm 0 ;;
             put_scalar nd i (Z.of_nat l - 1) sm 0) pairs a = Ok a' /\
    shape a' = m.
Proof.
  intros Hs Hnd. revert a Hs.
  induction pairs as [|[i l] pairs IH]; intros a Hs Hp; simpl.
  - exists a. split; [reflexivity|exact Hs].
  - destruct (Hp i l (or_introl eq_refl)) as [H1 Hl].
    destruct (put_scalar_ok nd i 0 O a 0) as (a1 & E1 & Hs1).
    { rewrite Hs. exact Hnd. }
    { rewrite Hs. apply norm_index_zero_ok, H1. }
    rewrite E1. cbn [bind].
    destruct (norm_index_last_ok l (nth i m O) H1 Hl) as (k & Hk).
    destruct (put_scalar_ok nd i (Z.of_nat l - 1) k a1 0) as (a2 & E2 & Hs2).
    { rewrite Hs1, Hs. exact Hnd. }
    { rewrite Hs1, Hs. exact Hk. }
    rewrite E2.
    apply IH; [congruence|]. intros i' l' Hin. apply Hp. right. exact Hin.
Qed.

(** What [set_psi0_by_grid] does with a field of any shape: the shape of the
    grid is not consulted.  A field that is stored keeps its own shape;
    outside Dirichlet mode every field is stored as it is; in Dirichlet mode
    every field is stored that has at least the axes of the grid and, along
    each of them, at least one point and at least the extent of the grid. *)
Lemma ingestion_spec (self : DirichletSystem) (psi0 : ndarray) :
  (forall s1, set_psi0_by_grid self psi0 = Ok s1 ->
              shape (sol_mesh s1) = shape psi0) /\
  (bd_cond self <> None \/ pbc self = true ->
   exists s1, set_psi0_by_grid self psi0 = Ok s1 /\ sol_mesh s1 = psi0) /\
  ((ndim self <= length (shape psi0))%nat ->
   (forall i, (i < length (sol_shape self))%nat ->
      (1 <= nth i (shape psi0) O)%nat /\
      (nth i (sol_shape self) O <= nth i (shape psi0) O)%nat) ->
   exists s1, set_psi0_by_grid self psi0 = Ok s1).
Proof.
  split; [|split].
  - intros s1 H.
    destruct (set_psi0_by_grid_inv _ _ _ H) as (s & pg & E & -> & _).
    cbn [sol_mesh set_pot_grid set_run].
    unfold _apply_boundary in E.
    cbn [bd_cond pbc ndim sol_shape sol_mesh set_sol_mesh set_mesh] in E.
    destruct (bd_cond self); [injection E as <-; reflexivity|].
    destruct (pbc self); [injection E as <-; reflexivity|].
    bind_inv E as sm Esm. injection E as <-.
    cbn [sol_mesh set_sol_mesh set_mesh].
    clear H. revert psi0 Esm.
    induction (combine (seq 0 (length (sol_shape self))) (sol_shape self))
      as [|[i l] pairs IH]; intros psi0 Esm; simpl in Esm.
    + injection Esm as <-. reflexivity.
    + bind_inv Esm as a2 E2. bind_inv E2 as a1 E1.
      apply put_scalar_shape in E1, E2. apply IH in Esm. congruence.
  - intros Hmode. unfold set_psi0_by_grid, _initialize, _apply_boundary.
    cbn [bd_cond pbc set_sol_mesh set_mesh].
    destruct (bd_cond self) as [u|].
    + cbn [bind]. eexists. split; reflexivity.
    + destruct (pbc self).
      * cbn [bind]. eexists. split; reflexivity.
      * destruct Hmode as [H|H]; [contradiction|discriminate].
  - intros Hnd Hext. unfold set_psi0_by_grid, _initialize, _apply_boundary.
    cbn [bd_cond pbc ndim sol_shape sol_mesh set_sol_mesh set_mesh].
    destruct (bd_cond self) as [u|]; [cbn [bind]; eauto|].
    destruct (pbc self); [cbn [bind]; eauto|].
    destruct (apply_boundary_fold_ok (ndim self) (shape psi0)
                (combine (seq 0 (length (sol_shape self))) (sol_shape self))
                psi0 eq_refl Hnd) as (a' & E & _).
    { intros i l Hin. apply combine_seq_in in Hin. destruct Hin as [Hi ->].
      rewrite Nat.sub_0_r. apply Hext. lia. }
    rewrite E. cbn [bind]. eauto.
Qed.

(** ** The periodic branch *)

Lemma insert_at_in_shape (i k : nat) (jdx : index) (sh : list nat) :
  (i < length sh)%nat -> (k < nth i sh O)%nat ->
  in_shape jdx (remove_at i sh) -> in_shape (insert_at i k jdx) sh.
Proof.
  revert i jdx. induction sh as [|m sh IH]; intros i jdx Hi Hk H;
    simpl in Hi; [lia|].
  destruct i as [|i].
  - unfold insert_at, remove_at in *. simpl in *. constructor; assumption.
  - unfold insert_at, remove_at in *. simpl in H, Hk.
    inversion H as [|a b jdx' sh' Hab H' E1 E2]; subst. simpl.
    constructor; [exact Hab|]. apply IH; [lia|exact Hk|exact H'].
Qed.

Section Periodic.

Variables (sh : list nat) (nd i : nat).
Hypothesis Hnd : nd = length sh.
Hypothesis Hi : (i < nd)%nat.

Lemma take_agrees (k : Z) (k' : nat) (a : ndarray) (f : index -> R) :
  agrees a sh f -> norm_index k (nth i sh O) = Some k' ->
  (k' < nth i sh O)%nat ->
  exists c, take nd i k a = Ok c /\
            agrees c (remove_at i sh) (fun jdx => f (insert_at i k' jdx)).
Proof.
  intros [Hs Hd] Hk Hlt. unfold take.
  rewrite axis_extent_ok by (rewrite Hs; lia). cbn [bind].
  rewrite Hs, Hk. eexists. split; [reflexivity|].
  split; [reflexivity|]. intros jdx Hj. simpl. apply Hd.
  apply insert_at_in_shape; [lia|exact Hlt|exact Hj].
Qed.

Lemma put_agrees (k : Z) (k' : nat) (a v : ndarray) (fa fv : index -> R) :
  agrees a sh fa -> agrees v (remove_at i sh) fv ->
  norm_index k (nth i sh O) = Some k' ->
  exists c, put nd i k a v = Ok c /\
            agrees c sh
              (fun idx => if (nth i idx O =? k')%nat
                          then fv (remove_at i idx) else fa idx).
Proof.
  intros [Hs Hd] [Hsv Hdv] Hk. unfold put.
  rewrite axis_extent_ok by (rewrite Hs; lia). cbn [bind].
  rewrite Hs, Hk, Hsv, broadcast_shapes_same, shape_eqb_refl.
  eexists. split; [reflexivity|]. split; [reflexivity|].
  intros idx Hidx. simpl.
  destruct (nth i idx O =? k')%nat; [|apply Hd, Hidx].
  rewrite bc_index_id by (apply remove_at_in_shape, Hidx).
  apply Hdv, remove_at_in_shape, Hidx.
Qed.

Lemma norm_index_neg2 (m : nat) :
  (2 <= m)%nat -> norm_index (-2) m = Some (m - 2)%nat.
Proof.
  intros H. unfold norm_index. simpl.
  destruct (Z.leb_spec (- Z.of_nat m) (-2)); [|lia].
  f_equal. lia.
Qed.

Lemma norm_index_neg1 (m : nat) :
  (1 <= m)%nat -> norm_index (-1) m = Some (m - 1)%nat.
Proof.
  intros H. unfold norm_index. simpl.
  destruct (Z.leb_spec (- Z.of_nat m) (-1)); [|lia].
  f_equal. lia.
Qed.

Lemma norm_index_one (m : nat) : (2 <= m)%nat -> norm_index 1 m = Some 1%nat.
Proof.
  intros H. unfold norm_index. simpl.
  destruct (Z.ltb_spec 1 (Z.of_nat m)); [reflexivity|lia].
Qed.

(** The extrapolation succeeds on an axis of two points or more. *)
Lemma extrapolate_agrees (px : ndarray) (f : index -> R) :
  agrees px sh f -> (2 <= nth i sh O)%nat ->
  exists px', extrapolate nd i px = Ok px' /\
              agrees px' sh (extrapolated sh i f).
Proof.
  intros Hpx Hm. unfold extrapolate.
  assert (H1 : (1 <= nth i sh O)%nat) by lia.
  assert (Hlt0 : (0 < nth i sh O)%nat) by lia.
  assert (Hlt3 : (nth i sh O - 2 < nth i sh O)%nat) by lia.
  assert (Hlt1 : (1 < nth i sh O)%nat) by lia.
  destruct (take_agrees 0 O px f Hpx (norm_index_zero_ok _ H1) Hlt0)
    as (p0 & E0 & A0).
  destruct (take_agrees (-2) _ px f Hpx (norm_index_neg2 _ Hm) Hlt3)
    as (p3 & E3 & A3).
  destruct (take_agrees 1 _ px f Hpx (norm_index_one _ Hm) Hlt1)
    as (p1 & E1 & A1).
  rewrite E0, E3, E1. cbn [bind].
  destruct (np_binop_agrees _ Rplus p0 _ _ _ A0
              (np_map_agrees _ (fun x => 1 / 3 * x) p3 _ A3))
    as (s & Es & As).
  rewrite Es. cbn [bind].
  destruct (np_binop_agrees _ Rminus s _ _ _ As
              (np_map_agrees _ (fun x => 1 / 3 * x) p1 _ A1))
    as (rhs & Er & Ar).
  rewrite Er. cbn [bind].
  destruct (put_agrees (-1) _ px rhs f _ Hpx Ar (norm_index_neg1 _ H1))
    as (px' & Ep & Ap).
  exists px'. split; [exact Ep|].
  apply (agrees_ext _ _ _ _ Ap). intros idx Hidx. unfold extrapolated.
  destruct (nth i idx O =? nth i sh O - 1)%nat; [|reflexivity].
  rewrite !insert_remove_at
    by (rewrite (in_shape_length _ _ Hidx); lia).
  reflexivity.
Qed.

Lemma extrapolated_periodic (f : index -> R) :
  (3 <= nth i sh O)%nat -> periodic_along sh i (extrapolated sh i f).
Proof.
  intros Hm idx Hidx Hlast.
  assert (Hl : (i < length idx)%nat)
    by (rewrite (in_shape_length _ _ Hidx); lia).
  unfold extrapolated. rewrite !nth_replace_at_eq by exact Hl.
  rewrite Hlast, Nat.eqb_refl.
  destruct (Nat.eqb_spec 0 (nth i sh O - 1)); [lia|].
  destruct (Nat.eqb_spec (nth i sh O - 2) (nth i sh O - 1)); [lia|].
  destruct (Nat.eqb_spec 1 (nth i sh O - 1)); [lia|].
  reflexivity.
Qed.

Lemma extrapolated_preserves (j : nat) (f : index -> R) :
  (j < nd)%nat -> i <> j -> (2 <= nth i sh O)%nat ->
  periodic_along sh j f -> periodic_along sh j (extrapolated sh i f).
Proof.
  intros Hj Hij Hm Hf idx Hidx Hlast.
  assert (Hli : (i < length idx)%nat)
    by (rewrite (in_shape_length _ _ Hidx); lia).
  assert (Hlj : (j < length idx)%nat)
    by (rewrite (in_shape_length _ _ Hidx); lia).
  unfold extrapolated.
  rewrite !(nth_replace_at_neq j i) by (try exact Hlj; auto).
  destruct (nth i idx O =? nth i sh O - 1)%nat.
  - rewrite !(replace_at_comm i j) by (try exact Hli; try exact Hlj; auto).
    assert (Hp : forall c, (c < nth i sh O)%nat ->
              f (replace_at i c idx)
              = f (replace_at j 0 (replace_at i c idx))
                + 1 / 3 * f (replace_at j (nth j sh O - 2) (replace_at i c idx))
                - 1 / 3 * f (replace_at j 1 (replace_at i c idx))).
    { intros c Hc. apply Hf.
      - apply replace_at_in_shape_same; assumption.
      - rewrite nth_replace_at_neq by (try exact Hli; auto). exact Hlast. }
    rewrite (Hp 0%nat), (Hp (nth i sh O - 2)%nat), (Hp 1%nat) by lia.
    lra.
  - apply Hf; assumption.
Qed.

End Periodic.

Lemma kinetic_axis_pbc (self : DirichletSystem) (sh : list nat)
  (acc acc' : ndarray * ndarray) (i : nat) (f : index -> R) :
  pbc self = true -> ndim self = length sh -> (i < ndim self)%nat ->
  (2 <= nth i sh O)%nat -> agrees (fst acc) sh f ->
  kinetic_axis self acc i = Ok acc' ->
  agrees (fst acc') sh (extrapolated sh i f).
Proof.
  intros Hpbc Hnd Hi Hm Hf H. unfold kinetic_axis in H. rewrite Hpbc in H.
  bind_inv H as px E. bind_inv H as t Et. bind_inv H as t' Et'.
  destruct (nth_error _ _); [|discriminate].
  bind_inv H as kine Ek. injection H as <-. cbn [fst].
  destruct (extrapolate_agrees sh (ndim self) i Hnd Hi (fst acc) f Hf Hm)
    as (px' & E' & A).
  rewrite E in E'. injection E' as <-. exact A.
Qed.

Lemma kinetic_fold_pbc (self : DirichletSystem) (sh : list nat) (n k : nat)
  (acc acc' : ndarray * ndarray) (f : index -> R) :
  pbc self = true -> ndim self = length sh ->
  (forall i, (i < length sh)%nat -> (3 <= nth i sh O)%nat) ->
  (k + n <= ndim self)%nat ->
  agrees (fst acc) sh f ->
  (forall j, (j < k)%nat -> periodic_along sh j f) ->
  foldM (kinetic_axis self) (seq k n) acc = Ok acc' ->
  exists f', agrees (fst acc') sh f' /\
             forall j, (j < k + n)%nat -> periodic_along sh j f'.
Proof.
  intros Hpbc Hnd Hext. revert k acc f.
  induction n as [|n IH]; intros k acc f Hk Hf Hper H; simpl in H.
  - injection H as <-. exists f. split; [exact Hf|].
    intros j Hj. apply Hper. lia.
  - bind_inv H as acc1 E.
    assert (Hm : (3 <= nth k sh O)%nat) by (apply Hext; lia).
    pose proof (kinetic_axis_pbc self sh acc acc1 k f Hpbc Hnd
                  ltac:(lia) ltac:(lia) Hf E) as A1.
    destruct (IH (S k) acc1 _ ltac:(lia) A1) with (2 := H) as (f' & A' & P').
    + intros j Hj. destruct (Nat.eq_dec j k) as [->|Hne].
      * apply (extrapolated_periodic sh (ndim self) k Hnd); lia.
      * apply (extrapolated_preserves sh (ndim self) k Hnd); try lia.
        apply Hper. lia.
    + exists f'. split; [exact A'|]. intros j Hj. apply P'. lia.
Qed.

Lemma periodic_along_agrees (a : ndarray) (sh : list nat) (f : index -> R)
  (i : nat) :
  agrees a sh f -> (2 <= nth i sh O)%nat ->
  periodic_along sh i f -> periodic_along sh i (data a).
Proof.
  intros [Hs Hd] Hm Hp idx Hidx Hlast.
  rewrite !Hd; [apply Hp; assumption|..];
    try apply replace_at_in_shape_same; try assumption; lia.
Qed.

(** In periodic mode, on a grid with three points or more along every axis,
    the solution a pass holds before its update is periodic along every
    axis. *)
Lemma pre_update_periodic (self s1 : DirichletSystem) (n : nat)
  (kine : ndarray) :
  pbc self = true -> ndim self = length (sol_shape self) ->
  shape (sol_mesh self) = sol_shape self ->
  (forall i, (i < length (sol_shape self))%nat ->
             (3 <= nth i (sol_shape self) O)%nat) ->
  pre_update self n = Ok (s1, kine) ->
  forall i, (i < length (sol_shape self))%nat ->
    periodic_along (sol_shape self) i (data (sol_mesh s1)).
Proof.
  intros Hpbc Hnd Hs Hext H i Hi.
  destruct (pre_update_inv _ _ _ _ H) as (sm & px & _ & Hk & -> & Hsm & _ & _).
  cbn [sol_mesh set_sol_mesh set_mesh]. unfold kinetic in Hk.
  assert (Hsm' : shape sm = sol_shape self) by congruence.
  assert (Hle : (0 + ndim self <= ndim self)%nat) by lia.
  assert (Hno : forall j, (j < 0)%nat ->
                          periodic_along (sol_shape self) j (data sm))
    by (intros j Hj; lia).
  destruct (kinetic_fold_pbc (set_sol_mesh (set_counter self n) sm)
              (sol_shape self) (ndim self) 0
              (sm, np_zeros (sol_shape self)) (px, kine) (data sm)
              Hpbc Hnd Hext Hle (agrees_self _ _ Hsm') Hno Hk)
    as (f' & A & P).
  cbn [fst] in A.
  apply (periodic_along_agrees px _ f' i A).
  - specialize (Hext i Hi). lia.
  - apply P. cbn. lia.
Qed.

(** ** The concrete solvers *)

Lemma line_solver_well_shaped (nb : notebook) (prs : list ndarray)
  (dom_t dom_x : Boundary) (tl : Z) (xs : list R) (psi : ndarray)
  (mi : option Z) (per : bool) :
  shape psi = [length xs] -> Forall (fun v => shape v = [length xs]) prs ->
  well_shaped (line_solver nb per prs dom_t dom_x tl xs psi mi).
Proof. intros Hs Hp. constructor; try reflexivity; assumption. Qed.

Lemma half_step_entry :
  state_before half_step_solver 0
  = Ok (set_sol_mesh
          (set_energy_series half_step_solver (repeat 0 9)) bump3).
Proof. reflexivity. Qed.

Lemma sqrt_half_neq_1 : sqrt (1 / 2) <> 1.
Proof.
  intros H. pose proof (sqrt_sqrt (1 / 2) ltac:(lra)) as Hs.
  rewrite H in Hs. lra.
Qed.

(** The first pass of [half_step_solver] leaves a solution whose
    volume-weighted norm is [sqrt (1/2)]. *)
Lemma half_step_first_pass :
  exists s1, state_before half_step_solver 1 = Ok s1 /\
             wnorm (vol half_step_solver) (sol_mesh s1) = sqrt (1 / 2).
Proof.
  assert (Hws : well_shaped half_step_solver)
    by (apply line_solver_well_shaped; [reflexivity|constructor]).
  destruct (solve_total half_step_solver (np_zeros [3%nat]) Hws eq_refl
              ltac:(simpl; lia) eq_refl eq_refl) as (self' & K & Hsolve).
  destruct (solve_halting_spec _ _ _ Hsolve) as (_ & _ & _ & _ & HK).
  specialize (HK eq_refl eq_refl). simpl in HK.
  destruct (solve_pass _ _ _ 0 Hsolve ltac:(lia))
    as (pg & alpha & sn & sn' & b & Hpg & Ha & Hsn & Hsn' & _ & Hit & _).
  injection Hpg as <-.
  rewrite half_step_entry in Hsn. injection Hsn as <-.
  destruct (alpha_beta_agrees [3%nat] (1 / 8) (np_zeros [3%nat]) _
              (np_zeros_agrees _)) as (Ab & alpha' & Ea & Aa).
  change (step (time_dom half_step_solver)) with (1 / 8) in Ha, Hit.
  rewrite Ha in Ea. injection Ea as <-.
  match type of Hit with
  | iteration _ _ _ _ ?s _ = _ =>
      assert (Hws0 : well_shaped s)
        by (destruct Hws; constructor; assumption);
      destruct (pass_closed_form _ _ _ _ _ _ s sn' 0 b Hws0 eq_refl Aa Ab Hit)
        as [Hup _]
  end.
  specialize (Hup ltac:(simpl; lia)).
  exists sn'. split; [exact Hsn'|].
  rewrite (wnorm_agrees _ _ _ _ Hup).
  cbn [vol sol_shape variant priors spat_dom set_sol_mesh set_mesh
       set_energy_series set_run half_step_solver line_solver sol_mesh
       deflated_all map fold_left length] in *.
  rewrite normalized_wnorm_free2d.
  - f_equal. cbn [step]. lra.
  - unfold updated. cbn.
    match goal with |- 0 < ?x => replace x with (1 / 4) by field end.
    lra.
Qed.

(** The last scheduled pass of [capped_solver] is pass 0, one of three time
    steps: it updates, renormalises and logs a norm. *)
Lemma capped_final_pass_updates : ~ final_pass_skips_update capped_solver.
Proof.
  intros Hskip.
  assert (Hws : well_shaped capped_solver)
    by (apply line_solver_well_shaped; [reflexivity|constructor]).
  destruct (solve_total capped_solver (np_zeros [3%nat]) Hws eq_refl
              ltac:(simpl; lia) eq_refl eq_refl) as (self' & K & Hsolve).
  destruct (solve_halting_spec _ _ _ Hsolve) as (_ & _ & _ & HK & _).
  specialize (HK eq_refl). change (K = 1%nat) in HK. subst K.
  destruct (pass_skip _ _ _ _ Hws eq_refl eq_refl Hsolve) as [Hpass _].
  destruct (Hpass 0%nat ltac:(lia))
    as (sn & px & kine & sn' & Hsn & Hpre & Hsn' & _ & _ & Hlog).
  destruct (solve_pass _ _ _ 0 Hsolve ltac:(lia))
    as (_ & _ & _ & _ & _ & _ & _ & _ & _ & Hend & _).
  rewrite Hsn' in Hend. injection Hend as <-.
  destruct (Hskip sn' 1%nat 0%nat sn px kine Hsolve eq_refl ltac:(lia)
              Hsn Hpre) as [_ Hlogs].
  specialize (Hlog ltac:(simpl; lia)). rewrite Hlogs in Hlog. lia.
Qed.

(** A field one point longer than the grid is stored without complaint. *)
Lemma long_field_accepted :
  ~ rejects_shape_mismatch (fresh_solver Free2D []).
Proof.
  intros Hrej.
  destruct (Hrej long_bump ltac:(discriminate)) as [e He].
  destruct (ingestion_spec (fresh_solver Free2D []) long_bump)
    as (_ & _ & Hok).
  destruct Hok as [s1 Hs1].
  - simpl. lia.
  - intros i Hi. simpl in Hi. assert (i = 0%nat) by lia. subst i.
    simpl. lia.
  - rewrite Hs1 in He. discriminate.
Qed.









(** On two points the extrapolation overwrites index 1, which is also the
    index the formula reads as [value[1]]: from [1, 0] the pass holds
    [1, 4/3], and [4/3 <> 1 + (1/3) * 1 - (1/3) * (4/3)]. *)
Lemma two_point_wrap_not_periodic : ~ periodic_every_pass two_point_wrap.
Proof.
  intros Hclaim.
  assert (E : exists s1 kine,
            pre_update (set_sol_mesh
                          (set_energy_series two_point_wrap (repeat 0 1))
                          step2) 0 = Ok (s1, kine) /\
            data (sol_mesh s1) [0%nat] = 1 /\
            data (sol_mesh s1) [1%nat] = 1 + 1 / 3 * 1 - 1 / 3 * 0).
  { eexists. eexists. split; [reflexivity|]. split; reflexivity. }
  destruct E as (s1 & kine & Hpre & D0 & D1).
  specialize (Hclaim 0%nat _ s1 kine eq_refl Hpre 0%nat ltac:(simpl; lia)
                [1%nat] ltac:(constructor; [simpl; lia|constructor])
                eq_refl).
  cbn in Hclaim. rewrite D0, D1 in Hclaim. lra.
Qed.

Lemma four_point_wrap_pre_update :
  exists s1 kine,
    pre_update (set_sol_mesh
                  (set_energy_series four_point_wrap (repeat 0 1)) step4) 0
    = Ok (s1, kine).
Proof. eexists. eexists. reflexivity. Qed.

Lemma state_before_inv (self sn : DirichletSystem) (n : nat) :
  state_before self n = Ok sn ->
  exists pg alpha s0,
    pot_grid self = Some pg /\
    alpha_of (step (time_dom self)) pg (beta_of (step (time_dom self)) pg)
    = Ok alpha /\
    loop_entry self = Ok s0 /\
    iterate alpha (beta_of (step (time_dom self)) pg) pg
      (step (time_dom self)) n s0 = Ok sn.
Proof.
  unfold state_before, get_pot_grid. intros H.
  destruct (pot_grid self) as [pg|]; [|discriminate].
  cbn [bind] in H. bind_inv H as alpha Ea. bind_inv H as s0 Es0.
  exists pg, alpha, s0. repeat split; assumption.
Qed.

(** The state on entry to a pass has the configuration of the solver and,
    for a potential field of the grid shape, arrays of the grid shape. *)
Lemma state_before_config (self sn : DirichletSystem) (n : nat)
  (pg : ndarray) :
  state_before self n = Ok sn ->
  pbc sn = pbc self /\ sol_shape sn = sol_shape self /\
  ndim sn = ndim self /\ variant sn = variant self /\ vol sn = vol self /\
  time_len sn = time_len self /\
  (pot_grid self = Some pg -> shape pg = sol_shape self ->
   well_shaped self -> well_shaped sn).
Proof.
  intros H.
  destruct (state_before_inv _ _ _ H) as (pg' & alpha & s0 & Hpg & Ha & Hs0 & Hit).
  pose proof (iterate_config _ _ _ _ _ _ _ Hit) as Hc.
  destruct (loop_entry_inv _ _ Hs0) as (sm & Hs0' & Hsm).
  repeat match type of Hc with _ /\ _ => destruct Hc as [? Hc] end.
  assert (Hcfg : pbc s0 = pbc self /\ sol_shape s0 = sol_shape self
                 /\ ndim s0 = ndim self /\ variant s0 = variant self
                 /\ vol s0 = vol self /\ time_len s0 = time_len self)
    by (subst s0; repeat split; reflexivity).
  repeat match type of Hcfg with _ /\ _ => destruct Hcfg as [? Hcfg] end.
  repeat (split; [congruence|]).
  intros Hpg' Hshape Hws. rewrite Hpg in Hpg'. injection Hpg' as ->.
  destruct (alpha_beta_agrees _ (step (time_dom self)) pg _
              (agrees_self _ _ Hshape)) as (Ab & alpha' & Ea' & Aa).
  rewrite Ha in Ea'. injection Ea' as <-.
  apply (iterate_well_shaped _ _ _ _ _ _ _ Hit).
  - rewrite (proj1 Aa). congruence.
  - rewrite (proj1 Ab). congruence.
  - destruct Hws as [Hnd Hdoms Hs Hpr]. subst s0.
    constructor; try assumption. cbn. congruence.
Qed.

(** In periodic mode, on a grid with three points or more along every
    axis, every pass holds a periodic solution before its update. *)
Lemma solve_periodic (self : DirichletSystem) (pg : ndarray) :
  well_shaped self -> pot_grid self = Some pg -> shape pg = sol_shape self ->
  pbc self = true ->
  (forall i, (i < length (sol_shape self))%nat ->
             (3 <= nth i (sol_shape self) O)%nat) ->
  periodic_every_pass self.
Proof.
  intros Hws Hpg Hshape Hpbc Hext n sn s1 kine Hsn Hpre i Hi.
  destruct (state_before_config _ _ _ pg Hsn)
    as (Hp & Hs & Hn & _ & _ & _ & Hwsn).
  specialize (Hwsn Hpg Hshape Hws).
  rewrite <- Hs in *.
  apply (pre_update_periodic sn s1 n kine); try assumption.
  - congruence.
  - apply (ws_ndim _ Hwsn).
  - apply (ws_sol _ Hwsn).
Qed.

(** ** The norm after a pass that updates *)

(** With the norm of "3d columb", a pass that updates the solution to a
    non-zero field [u] leaves a solution of volume-weighted norm 1. *)
Lemma pass_norm_columb3d (self self' : DirichletSystem) (K : nat)
  (pg : ndarray) :
  variant self = Columb3D ->
  well_shaped self -> pot_grid self = Some pg -> shape pg = sol_shape self ->
  solve self = Ok (self', K) ->
  forall n, (n < K)%nat -> (Z.of_nat n + 1 < time_len self)%Z ->
    exists sn' u,
      state_before self (S n) = Ok sn' /\
      normalize self u = Ok (sol_mesh sn') /\
      shape u = sol_shape self /\
      (0 < sum_over (sol_shape self) (fun idx => data u idx * data u idx)
           * vol self ->
       wnorm (vol self) (sol_mesh sn') = 1).
Proof.
  intros Hvar Hws Hpg Hshape Hsolve n Hn Hlt.
  destruct (pass_update _ _ _ _ Hws Hpg Hshape Hsolve n Hn Hlt)
    as (sn & px & kine & u & sn' & _ & _ & Hsn' & Au & Hnorm).
  exists sn', u. split; [exact Hsn'|]. split; [exact Hnorm|].
  split; [apply Au|]. intros Hpos.
  destruct (normalize_agrees self _ u _ (agrees_self _ _ (proj1 Au)))
    as (sm & En & An).
  rewrite Hnorm in En. injection En as <-.
  rewrite (wnorm_agrees _ _ _ _ An). rewrite Hvar.
  apply normalized_wnorm_columb3d. exact Hpos.
Qed.

(** With the norm of "2d free", a pass that updates the solution to a
    non-zero field [u] leaves a solution of volume-weighted norm
    [sqrt vol]. *)
Lemma pass_norm_free2d (self self' : DirichletSystem) (K : nat)
  (pg : ndarray) :
  variant self = Free2D ->
  well_shaped self -> pot_grid self = Some pg -> shape pg = sol_shape self ->
  solve self = Ok (self', K) ->
  forall n, (n < K)%nat -> (Z.of_nat n + 1 < time_len self)%Z ->
    exists sn' u,
      state_before self (S n) = Ok sn' /\
      normalize self u = Ok (sol_mesh sn') /\
      shape u = sol_shape self /\
      (0 < sum_over (sol_shape self) (fun idx => data u idx * data u idx) ->
       wnorm (vol self) (sol_mesh sn') = sqrt (vol self)).
Proof.
  intros Hvar Hws Hpg Hshape Hsolve n Hn Hlt.
  destruct (pass_update _ _ _ _ Hws Hpg Hshape Hsolve n Hn Hlt)
    as (sn & px & kine & u & sn' & _ & _ & Hsn' & Au & Hnorm).
  exists sn', u. split; [exact Hsn'|]. split; [exact Hnorm|].
  split; [apply Au|]. intros Hpos.
  destruct (normalize_agrees self _ u _ (agrees_self _ _ (proj1 Au)))
    as (sm & En & An).
  rewrite Hnorm in En. injection En as <-.
  rewrite (wnorm_agrees _ _ _ _ An). rewrite Hvar.
  apply normalized_wnorm_free2d. exact Hpos.
Qed.

(** ** The concrete solvers are states the class reaches *)

Lemma point_count_exact (dom : Boundary) (k : nat) :
  step dom <> 0 -> (end_ dom - start dom) / step dom = INR k ->
  point_count dom = Ok (Z.of_nat (S k)).
Proof.
  intros Hs Hq. unfold point_count, py_div.
  destruct (Req_dec_T (step dom) 0) as [Hz|_]; [contradiction|].
  cbn [bind]. unfold py_int. rewrite Hq.
  destruct (Rle_dec 0 (INR k)) as [_|Hn]; [|exfalso; apply Hn, pos_INR].
  rewrite Int_part_INR. f_equal. lia.
Qed.

Lemma linspace_0_2_3 : np_linspace 0 2 3 = Ok [0; 1; 2].
Proof.
  unfold np_linspace. simpl.
  replace (0 * ((2 - 0) / (1 + 1)) + 0) with 0 by field.
  replace (1 * ((2 - 0) / (1 + 1)) + 0) with 1 by field.
  reflexivity.
Qed.

Lemma linspace_0_1_3 : np_linspace 0 1 3 = Ok [0; 1 / 2; 1].
Proof.
  unfold np_linspace. simpl.
  replace (0 * ((1 - 0) / (1 + 1)) + 0) with 0 by field.
  replace (1 * ((1 - 0) / (1 + 1)) + 0) with (1 / 2) by field.
  reflexivity.
Qed.

(** The constructor on one spatial axis of three points and the zero
    potential. *)
Lemma init_line (nb : notebook) (prs : option (list ndarray))
  (dom_t dom_x : Boundary) (kt : nat) (xs : list R) (mi : option Z) :
  step dom_t <> 0 -> (end_ dom_t - start dom_t) / step dom_t = INR kt ->
  step dom_x <> 0 -> (end_ dom_x - start dom_x) / step dom_x = INR 2 ->
  np_linspace (start dom_x) (end_ dom_x) 3 = Ok xs ->
  __init__ nb (fun _ => 0) dom_t [dom_x] None mi None prs
  = Ok (mk_DirichletSystem nb false
          (match prs with None => [] | Some l => l end)
          (fun _ => 0) dom_t [dom_x] (step dom_x * 1) (Z.of_nat (S kt))
          [xs] (np_zeros [length xs]) [length xs] (np_meshgrid [xs]) 1
          None O None mi [] None []).
Proof.
  intros Ht Hqt Hx Hqx Hxs. unfold __init__.
  rewrite (point_count_exact dom_t kt Ht Hqt). cbn [bind].
  unfold _init_mesh. cbn [spat_dom mapM].
  rewrite (point_count_exact dom_x 2 Hx Hqx). cbn [bind].
  change (Z.of_nat 3) with 3%Z. rewrite Hxs. cbn [bind].
  reflexivity.
Qed.

Lemma ingest_bump3 (nb : notebook) (prs : list ndarray)
  (dom_t dom_x : Boundary) (tl : Z) (xs : list R) (mi : option Z) :
  length xs = 3%nat ->
  set_psi0_by_grid
    (mk_DirichletSystem nb false prs (fun _ => 0) dom_t [dom_x]
       (step dom_x * 1) tl [xs] (np_zeros [length xs]) [length xs]
       (np_meshgrid [xs]) 1 None O None mi [] None []) bump3
  = Ok (line_solver nb false prs dom_t dom_x tl xs bump3 mi).
Proof.
  intros Hl. unfold set_psi0_by_grid, _initialize, _apply_boundary.
  cbn [bd_cond pbc sol_shape sol_mesh ndim set_sol_mesh set_mesh].
  rewrite Hl. cbn.
  unfold line_solver, set_pot_grid, set_run, set_sol_mesh, set_mesh.
  rewrite Hl. cbn. f_equal.
  f_equal; try reflexivity; try (rewrite Hl; reflexivity).
  unfold bump3. f_equal.
  apply functional_extensionality. intros idx.
  destruct idx as [|[|[|[|a]]] rest]; reflexivity.
Qed.

(** [capped_solver] is what the constructor and [set_psi0_by_grid] leave. *)
Lemma capped_solver_constructed :
  exists s0,
    __init__ Free2D (fun _ => 0) (mk_Boundary 0 (1 / 2) (1 / 4))
      [mk_Boundary 0 2 1] None (Some 1%Z) None None = Ok s0 /\
    set_psi0_by_grid s0 bump3 = Ok capped_solver.
Proof.
  eexists. split.
  - apply (init_line Free2D None _ _ 2 [0; 1; 2]); simpl;
      try lra; try field. exact linspace_0_2_3.
  - apply (ingest_bump3 Free2D [] _ _ 3 [0; 1; 2]). reflexivity.
Qed.

(** [half_step_solver] is what the constructor and [set_psi0_by_grid]
    leave. *)
Lemma half_step_solver_constructed :
  exists s0,
    __init__ Free2D (fun _ => 0) (mk_Boundary 0 1 (1 / 8))
      [mk_Boundary 0 1 (1 / 2)] None None None None = Ok s0 /\
    set_psi0_by_grid s0 bump3 = Ok half_step_solver.
Proof.
  eexists. split.
  - apply (init_line Free2D None _ _ 8 [0; 1 / 2; 1]); simpl;
      try lra; try field. exact linspace_0_1_3.
  - apply (ingest_bump3 Free2D [] _ _ 9 [0; 1 / 2; 1]). reflexivity.
Qed.

(** [fresh_solver] is what the constructor leaves. *)
Lemma fresh_solver_constructed (nb : notebook) (prs : list ndarray) :
  __init__ nb (fun _ => 0) (mk_Boundary 0 0 1) [mk_Boundary 0 2 1]
    None None None (Some prs) = Ok (fresh_solver nb prs).
Proof.
  rewrite (init_line nb (Some prs) _ _ 0 [0; 1; 2]); simpl;
    try lra; try field; [reflexivity|exact linspace_0_2_3].
Qed.

(** [double_prior_solver] is what [set_psi0_by_grid] leaves of the
    constructed [fresh_solver]. *)
Lemma double_prior_solver_constructed :
  set_psi0_by_grid (fresh_solver Columb3D [double_bump]) bump3
  = Ok double_prior_solver.
Proof.
  exact (ingest_bump3 Columb3D [double_bump] (mk_Boundary 0 0 1)
           (mk_Boundary 0 2 1) 1 [0; 1; 2] None eq_refl).
Qed.

(** * The claims *)

Lemma capped_solver_well_shaped : well_shaped capped_solver.
Proof. apply line_solver_well_shaped; [reflexivity|constructor]. Qed.

(** The run of [capped_solver] returns after one pass. *)
Lemma capped_solver_one_pass :
  exists self', solve capped_solver = Ok (self', 1%nat).
Proof.
  destruct (solve_total capped_solver (np_zeros [3%nat])
              capped_solver_well_shaped eq_refl ltac:(simpl; lia)
              eq_refl eq_refl) as (self' & K & Hsolve).
  destruct (solve_halting_spec _ _ _ Hsolve) as (_ & _ & _ & HK & _).
  specialize (HK eq_refl). change (K = 1%nat) in HK. subst K.
  exists self'. exact Hsolve.
Qed.

(** C1, on the failing input.  In "2d free", whose [normalize] divides by
    the unweighted norm, take the solver the constructor builds for the time
    axis (0, 1, 1/8) and the spatial axis (0, 1, 1/2), volume element 1/2,
    and hand it [0, 1, 0].  Its first pass is not the last one, and the
    solution that pass leaves after the renormalisation has the
    volume-weighted L2 norm [sqrt (1/2)], not 1. *)
Theorem free2d_renormalized_norm_is_not_one :
  exists s0 s1,
    __init__ Free2D (fun _ => 0) (mk_Boundary 0 1 (1 / 8))
      [mk_Boundary 0 1 (1 / 2)] None None None None = Ok s0 /\
    set_psi0_by_grid s0 bump3 = Ok half_step_solver /\
    state_before half_step_solver 1 = Ok s1 /\
    (Z.of_nat 0 + 1 < time_len half_step_solver)%Z /\
    wnorm (vol half_step_solver) (sol_mesh s1) = sqrt (1 / 2) /\
    wnorm (vol half_step_solver) (sol_mesh s1) <> 1.
Proof.
  destruct half_step_solver_constructed as (s0 & Hs0 & Hs).
  destruct half_step_first_pass as (s1 & Hs1 & Hn).
  exists s0, s1. split; [exact Hs0|]. split; [exact Hs|].
  split; [exact Hs1|]. split; [simpl; lia|].
  split; [exact Hn|]. rewrite Hn. exact sqrt_half_neq_1.
Qed.





(** C4.  A run of [solve] that completed [K] passes completed no more than
    the smaller of the step count of the time domain and the iteration
    override; it left the loop right after the pass for [n] exactly when
    [n > 0], a stop tolerance is configured and [|1 - E[n-1]/E[n]|] is below
    it, or when [n] was the last scheduled value; without a tolerance it ran
    to the end of the schedule, and with neither tolerance nor override for
    the whole step count of the time domain. *)
Theorem solve_halting (self self' : DirichletSystem) (K : nat) :
  solve self = Ok (self', K) ->
  (K <= Z.to_nat (scheduled self))%nat /\
  (K = 0%nat -> Z.to_nat (scheduled self) = 0%nat) /\
  (forall n, (n < K)%nat ->
     (S n = K <->
      ((0 < n)%nat /\
       exists tol, stop_tol self = Some tol /\
                   relative_change (energy_series self') n < tol)
      \/ S n = Z.to_nat (scheduled self))) /\
  (stop_tol self = None -> K = Z.to_nat (scheduled self)) /\
  (stop_tol self = None -> max_iter self = None ->
   Z.of_nat K = time_len self).
Proof. exact (solve_halting_spec self self' K). Qed.

Lemma solve_halting_witness :
  exists self',
    solve capped_solver = Ok (self', 1%nat) /\
    (1 <= Z.to_nat (scheduled capped_solver))%nat /\
    Z.to_nat (scheduled capped_solver) = 1%nat.
Proof.
  destruct capped_solver_one_pass as (self' & H).
  exists self'. split; [exact H|].
  destruct (solve_halting capped_solver self' 1 H) as (HK & _ & _ & Hend & _).
  split; [exact HK|]. symmetry. exact (Hend eq_refl).
Defined.

(** C5, as the code has it.  Every pass [n] of a run of [solve] records its
    energy from the pre-update solution.  The pass skips the update and the
    renormalisation when [n + 1] is the step count of the time domain, and
    then it is the last pass; on any other pass it updates and appends a
    norm to the log, also when the pass is the last one under an iteration
    override.  So the last scheduled pass skips them whenever the schedule
    is the step count of the time domain. *)
Theorem update_skipped_at_end_of_time_domain (self self' : DirichletSystem)
  (K : nat) (pg : ndarray) :
  well_shaped self -> pot_grid self = Some pg -> shape pg = sol_shape self ->
  solve self = Ok (self', K) ->
  (forall n, (n < K)%nat ->
     exists sn px kine sn',
       state_before self n = Ok sn /\
       pre_update sn n = Ok (set_sol_mesh (set_counter sn n) px, kine) /\
       state_before self (S n) = Ok sn' /\
       nth n (energy_series self') 0
       = rayleigh (sol_shape self) (data pg) (data px) (data kine) /\
       ((Z.of_nat n + 1 = time_len self)%Z ->
        sol_mesh sn' = px /\ logs sn' = logs sn /\ S n = K) /\
       ((Z.of_nat n + 1 <> time_len self)%Z ->
        length (logs sn') = S (length (logs sn)))) /\
  (scheduled self = time_len self -> final_pass_skips_update self).
Proof. exact (pass_skip self self' K pg). Qed.

Lemma update_skipped_witness :
  exists self' K,
    solve capped_solver = Ok (self', K) /\
    exists sn px kine sn',
      state_before capped_solver 0 = Ok sn /\
      pre_update sn 0 = Ok (set_sol_mesh (set_counter sn 0) px, kine) /\
      state_before capped_solver 1 = Ok sn' /\
      length (logs sn') = S (length (logs sn)).
Proof.
  destruct capped_solver_one_pass as (self' & H).
  exists self', 1%nat. split; [exact H|].
  destruct (update_skipped_at_end_of_time_domain capped_solver self' 1
              (np_zeros [3%nat]) capped_solver_well_shaped eq_refl eq_refl H)
    as [Hpass _].
  destruct (Hpass 0%nat ltac:(lia))
    as (sn & px & kine & sn' & Hsn & Hpre & Hsn' & _ & _ & Hlog).
  exists sn, px, kine, sn'.
  split; [exact Hsn|]. split; [exact Hpre|]. split; [exact Hsn'|].
  apply Hlog. simpl. lia.
Defined.

(** C6.  For every pass [n] of a run of [solve] on arrays of the grid
    shape, entry [n] of the energy series the run leaves is
    (sum of potential * solution^2 - sum of kinetic term * solution) over
    (sum of solution^2), taken on the solution and the kinetic term that
    pass holds before its update; in Dirichlet mode that kinetic term is the
    sum over the axes of the second differences of that solution over twice
    the squared step. *)
Theorem energy_is_rayleigh_quotient (self self' : DirichletSystem) (K : nat)
  (pg : ndarray) :
  well_shaped self -> pot_grid self = Some pg -> shape pg = sol_shape self ->
  solve self = Ok (self', K) ->
  forall n, (n < K)%nat ->
    exists sn px kine,
      state_before self n = Ok sn /\
      pre_update sn n = Ok (set_sol_mesh (set_counter sn n) px, kine) /\
      shape px = sol_shape self /\ shape kine = sol_shape self /\
      nth n (energy_series self') 0
      = rayleigh (sol_shape self) (data pg) (data px) (data kine) /\
      (pbc self = false ->
       agrees kine (sol_shape self)
         (kinetic_term (sol_shape self) (map step (spat_dom self)) (data px)
                       (length (sol_shape self)))).
Proof. exact (pass_energy self self' K pg). Qed.

Lemma energy_is_rayleigh_quotient_witness :
  exists self' sn px kine,
    solve capped_solver = Ok (self', 1%nat) /\
    state_before capped_solver 0 = Ok sn /\
    pre_update sn 0 = Ok (set_sol_mesh (set_counter sn 0) px, kine) /\
    nth 0 (energy_series self') 0
    = rayleigh [3%nat] (fun _ => 0) (data px) (data kine).
Proof.
  destruct capped_solver_one_pass as (self' & H).
  destruct (energy_is_rayleigh_quotient capped_solver self' 1
              (np_zeros [3%nat]) capped_solver_well_shaped eq_refl eq_refl H
              0%nat ltac:(lia))
    as (sn & px & kine & Hsn & Hpre & _ & _ & He & _).
  exists self', sn, px, kine.
  split; [exact H|]. split; [exact Hsn|]. split; [exact Hpre|exact He].
Defined.

(** C7.  On every pass [n] of a run of [solve] with [n + 1] below the step
    count of the time domain -- every non-final pass is one -- the solution
    is replaced by [normalize u], where at each grid point
    [u = alpha * px + dt * beta * kine] for the pre-update solution [px],
    the kinetic term [kine], [beta = 1 / (1 + 0.5 dt V)] and
    [alpha = (1 - 0.5 dt V) * beta], [V] the cached potential. *)
Theorem update_is_semi_implicit (self self' : DirichletSystem) (K : nat)
  (pg : ndarray) :
  well_shaped self -> pot_grid self = Some pg -> shape pg = sol_shape self ->
  solve self = Ok (self', K) ->
  forall n, (n < K)%nat -> (Z.of_nat n + 1 < time_len self)%Z ->
    exists sn px kine u sn',
      state_before self n = Ok sn /\
      pre_update sn n = Ok (set_sol_mesh (set_counter sn n) px, kine) /\
      state_before self (S n) = Ok sn' /\
      agrees u (sol_shape self)
        (fun idx =>
           let dt := step (time_dom self) in
           let beta := 1 / (1 + 0.5 * dt * data pg idx) in
           let alpha := (1 - 0.5 * dt * data pg idx) * beta in
           alpha * data px idx + dt * beta * data kine idx) /\
      normalize self u = Ok (sol_mesh sn').
Proof. exact (pass_update self self' K pg). Qed.

Lemma update_is_semi_implicit_witness :
  exists self' sn px kine u sn',
    solve capped_solver = Ok (self', 1%nat) /\
    state_before capped_solver 0 = Ok sn /\
    pre_update sn 0 = Ok (set_sol_mesh (set_counter sn 0) px, kine) /\
    state_before capped_solver 1 = Ok sn' /\
    normalize capped_solver u = Ok (sol_mesh sn').
Proof.
  destruct capped_solver_one_pass as (self' & H).
  destruct (update_is_semi_implicit capped_solver self' 1
              (np_zeros [3%nat]) capped_solver_well_shaped eq_refl eq_refl H
              0%nat ltac:(lia) ltac:(simpl; lia))
    as (sn & px & kine & u & sn' & Hsn & Hpre & Hsn' & _ & Hn).
  exists self', sn, px, kine, u, sn'.
  split; [exact H|]. split; [exact Hsn|]. split; [exact Hpre|].
  split; [exact Hsn'|exact Hn].
Defined.

(** C8, as the code has it.  [set_psi0_by_grid] does not compare the shape
    of the supplied field with the shape of the grid.  A field that is
    stored keeps its own shape; outside Dirichlet mode every field is stored
    as it is; in Dirichlet mode every field is stored that has at least the
    axes of the grid and, along each of them, at least one point and at
    least the extent of the grid. *)
Theorem ingestion_ignores_grid_shape (self : DirichletSystem)
  (psi0 : ndarray) :
  (forall s1, set_psi0_by_grid self psi0 = Ok s1 ->
              shape (sol_mesh s1) = shape psi0) /\
  (bd_cond self <> None \/ pbc self = true ->
   exists s1, set_psi0_by_grid self psi0 = Ok s1 /\ sol_mesh s1 = psi0) /\
  ((ndim self <= length (shape psi0))%nat ->
   (forall i, (i < length (sol_shape self))%nat ->
      (1 <= nth i (shape psi0) O)%nat /\
      (nth i (sol_shape self) O <= nth i (shape psi0) O)%nat) ->
   exists s1, set_psi0_by_grid self psi0 = Ok s1).
Proof. exact (ingestion_spec self psi0). Qed.

Lemma ingestion_ignores_grid_shape_witness :
  exists s1,
    set_psi0_by_grid (fresh_solver Free2D []) long_bump = Ok s1 /\
    shape (sol_mesh s1) = [4%nat].
Proof.
  destruct (ingestion_ignores_grid_shape (fresh_solver Free2D []) long_bump)
    as (Hshape & _ & Hok).
  destruct Hok as [s1 Hs1].
  - simpl. lia.
  - intros i Hi. simpl in Hi. assert (i = 0%nat) by lia. subst i.
    simpl. lia.
  - exists s1. split; [exact Hs1|]. exact (Hshape s1 Hs1).
Defined.



(** C10, as the code has it.  When the periodic branch is in effect and
    every axis of the grid has three points or more, the solution every
    pass holds before its update -- the field the extrapolations of its
    axis loop leave -- has, at the last grid point along each axis, the
    value [value[0] + (1/3) value[-2] - (1/3) value[1]]. *)
Theorem periodic_extrapolation_holds (self : DirichletSystem)
  (pg : ndarray) :
  well_shaped self -> pot_grid self = Some pg -> shape pg = sol_shape self ->
  pbc self = true ->
  (forall i, (i < length (sol_shape self))%nat ->
             (3 <= nth i (sol_shape self) O)%nat) ->
  periodic_every_pass self.
Proof. exact (solve_periodic self pg). Qed.

Lemma periodic_extrapolation_witness :
  (exists s1 kine,
     pre_update (set_sol_mesh
                   (set_energy_series four_point_wrap (repeat 0 1)) step4) 0
     = Ok (s1, kine))
  /\ periodic_every_pass four_point_wrap.
Proof.
  split; [exact four_point_wrap_pre_update|].
  apply (periodic_extrapolation_holds four_point_wrap (np_zeros [4%nat])).
  - apply line_solver_well_shaped; [reflexivity|constructor].
  - reflexivity.
  - reflexivity.
  - reflexivity.
  - intros i Hi. simpl in Hi. assert (i = 0%nat) by lia. subst i.
    simpl. lia.
Defined.

(** * Further properties of the class *)

(** ** What the constructor leaves *)

Lemma mapM_length {A B : Type} (f : A -> result B) (l : list A)
  (bs : list B) :
  mapM f l = Ok bs -> length bs = length l.
Proof.
  revert bs. induction l as [|a l IH]; intros bs H; simpl in H.
  - injection H as <-. reflexivity.
  - bind_inv H as b Eb. bind_inv H as bs' Ebs. injection H as <-.
    simpl. f_equal. apply IH. exact Ebs.
Qed.

Lemma init_mesh_inv (self self' : DirichletSystem) :
  _init_mesh self = Ok self' ->
  exists sp,
    mapM (fun dom => n <- point_count dom ;;
                     np_linspace (start dom) (end_ dom) n)
         (spat_dom self) = Ok sp /\
    sp <> [] /\
    self' = set_mesh self sp (np_zeros (map (@length R) sp))
              (map (@length R) sp) (np_meshgrid sp) (length sp).
Proof.
  unfold _init_mesh. intros H. bind_inv H as sp E.
  exists sp. split; [exact E|].
  destruct sp as [|x sp]; [discriminate|].
  split; [discriminate|].
  unfold np_meshgrid in H. simpl seq in H. simpl map at 1 in H.
  cbv iota in H. injection H as <-.
  cbn [shape np_zeros]. rewrite length_map. reflexivity.
Qed.

(** The state [__init__] returns, when it returns. *)
Lemma init_inv (nb : notebook) (pot' : list R -> R) (td : Boundary)
  (sd : list Boundary) (bc : option unit) (mi : option Z) (tol : option R)
  (prs : option (list ndarray)) (s0 : DirichletSystem) :
  __init__ nb pot' td sd bc mi tol prs = Ok s0 ->
  exists tl sp,
    point_count td = Ok tl /\
    mapM (fun dom => n <- point_count dom ;;
                     np_linspace (start dom) (end_ dom) n) sd = Ok sp /\
    sp <> [] /\ length sp = length sd /\
    s0 = mk_DirichletSystem nb false
           (match prs with None => [] | Some l => l end) pot' td sd
           (fold_right Rmult 1 (map step sd)) tl sp
           (np_zeros (map (@length R) sp)) (map (@length R) sp)
           (np_meshgrid sp) (length sp) bc O tol mi [] None [].
Proof.
  unfold __init__. intros H. bind_inv H as tl Etl. bind_inv H as s Es.
  destruct (init_mesh_inv _ _ Es) as (sp & Esp & Hne & ->).
  cbn [spat_dom] in Esp. injection H as <-.
  exists tl, sp. split; [exact Etl|]. split; [exact Esp|].
  split; [exact Hne|]. split; [exact (mapM_length _ _ _ Esp)|reflexivity].
Qed.

Lemma apply_boundary_frame (self s : DirichletSystem) :
  _apply_boundary self = Ok s -> exists sm, s = set_sol_mesh self sm.
Proof.
  unfold _apply_boundary. intros H.
  destruct (bd_cond self).
  - injection H as <-. exists (sol_mesh self). destruct self; reflexivity.
  - destruct (pbc self).
    + injection H as <-. exists (sol_mesh self). destruct self; reflexivity.
    + bind_inv H as sm E. injection H as <-. exists sm. reflexivity.
Qed.

(** The constructed [fresh_solver] after the ingestion of [0, 1, 0]. *)
Lemma fresh_solver_ingests (nb : notebook) (prs : list ndarray) :
  set_psi0_by_grid (fresh_solver nb prs) bump3
  = Ok (line_solver nb false prs (mk_Boundary 0 0 1) (mk_Boundary 0 2 1) 1
          [0; 1; 2] bump3 None).
Proof.
  exact (ingest_bump3 nb prs (mk_Boundary 0 0 1) (mk_Boundary 0 2 1) 1
           [0; 1; 2] None eq_refl).
Qed.

(** ** A run needs an ingested field *)

(** [solve] on a solver that comes straight from the constructor does not
    run: the potential field is absent, and reading it raises
    [AttributeError] (after [np.zeros] has raised [ValueError] if the step
    count of the time domain is negative). *)
Theorem solve_before_ingestion_raises (nb : notebook) (pot' : list R -> R)
  (td : Boundary) (sd : list Boundary) (bc : option unit) (mi : option Z)
  (tol : option R) (prs : option (list ndarray)) (s0 : DirichletSystem) :
  __init__ nb pot' td sd bc mi tol prs = Ok s0 ->
  solve s0
  = Raise (if (time_len s0 <? 0)%Z then ValueError else AttributeError).
Proof.
  intros H.
  destruct (init_inv _ _ _ _ _ _ _ _ _ H)
    as (tl & sp & _ & _ & _ & _ & ->).
  unfold solve, get_pot_grid.
  cbn [time_len pot_grid set_energy_series set_run].
  destruct (tl <? 0)%Z; reflexivity.
Qed.

Lemma solve_before_ingestion_witness :
  solve (fresh_solver Columb3D [bump3]) = Raise AttributeError.
Proof.
  exact (solve_before_ingestion_raises Columb3D (fun _ => 0)
           (mk_Boundary 0 0 1) [mk_Boundary 0 2 1] None None None
           (Some [bump3]) (fresh_solver Columb3D [bump3])
           (fresh_solver_constructed Columb3D [bump3])).
Defined.

(** ** A run on a field of the grid shape returns *)

(** In the modes the constructor can leave (it sets [pbc] to [False]), on a
    grid with at least one point along every axis, with priors of the grid
    shape and a time domain of non-negative step count: a field of the grid
    shape is ingested, and the run that follows returns -- no operation of
    [set_psi0_by_grid] or [solve] raises. *)
Theorem constructed_solver_runs (nb : notebook) (pot' : list R -> R)
  (td : Boundary) (sd : list Boundary) (bc : option unit) (mi : option Z)
  (tol : option R) (prs : option (list ndarray)) (s0 : DirichletSystem)
  (psi0 : ndarray) :
  __init__ nb pot' td sd bc mi tol prs = Ok s0 ->
  (0 <= time_len s0)%Z ->
  Forall (fun m => (1 <= m)%nat) (sol_shape s0) ->
  Forall (fun v => shape v = sol_shape s0) (priors s0) ->
  shape psi0 = sol_shape s0 ->
  exists s1 self' K,
    set_psi0_by_grid s0 psi0 = Ok s1 /\ solve s1 = Ok (self', K).
Proof.
  intros H Htl Hext Hprs Hpsi.
  destruct (init_inv _ _ _ _ _ _ _ _ _ H)
    as (tl & sp & _ & _ & _ & Hlen & Hs0).
  assert (Hnd : ndim s0 = length (sol_shape s0))
    by (rewrite Hs0; cbn; rewrite length_map; reflexivity).
  assert (Hdoms : length (spat_dom s0) = ndim s0)
    by (rewrite Hs0; cbn; symmetry; exact Hlen).
  assert (Hpbc : pbc s0 = false) by (rewrite Hs0; reflexivity).
  destruct (ingestion_spec s0 psi0) as (Hshape & _ & Hok).
  destruct Hok as [s1 Hs1].
  { rewrite Hpsi, Hnd. lia. }
  { intros i Hi. rewrite Hpsi. split; [|lia].
    apply (proj1 (Forall_forall _ _) Hext). apply nth_In. exact Hi. }
  exists s1.
  destruct (set_psi0_by_grid_inv _ _ _ Hs1) as (s & pg & Happ & Hs1' & Hpg).
  destruct (apply_boundary_frame _ _ Happ) as (sm & Hs).
  pose proof (Hshape s1 Hs1) as Hsm.
  subst s1 s. cbn [sol_mesh set_pot_grid set_run set_sol_mesh set_mesh] in Hsm.
  cbn [sol_shape set_sol_mesh set_mesh] in Hpg.
  match goal with
  | |- exists self' K, _ /\ solve ?s1 = _ =>
      destruct (solve_total s1 pg) as (self' & K & Hsolve)
  end.
  - constructor; cbn; try assumption. congruence.
  - exact Hpbc.
  - exact Htl.
  - reflexivity.
  - exact Hpg.
  - exists self', K. split; [exact Hs1|exact Hsolve].
Qed.

Lemma constructed_solver_runs_witness :
  exists s1 self' K,
    set_psi0_by_grid (fresh_solver Free2D []) bump3 = Ok s1 /\
    solve s1 = Ok (self', K).
Proof.
  apply (constructed_solver_runs Free2D (fun _ => 0) (mk_Boundary 0 0 1)
           [mk_Boundary 0 2 1] None None None (Some [])
           (fresh_solver Free2D []) bump3).
  - exact (fresh_solver_constructed Free2D []).
  - simpl. lia.
  - constructor; [simpl; lia|constructor].
  - constructor.
  - reflexivity.
Defined.

(** ** What a run leaves in the energy series and in the log *)

(** The attributes one pass touches besides the solution: entry [n] of the
    energy series, the counter, and the log, which gains one norm exactly
    when the pass updates. *)
Lemma iteration_frame (alpha beta pg : ndarray) (dt : R)
  (s s' : DirichletSystem) (n : nat) (b : bool) :
  iteration alpha beta pg dt s n = Ok (s', b) ->
  (forall i, i <> n ->
     nth i (energy_series s') 0 = nth i (energy_series s) 0) /\
  counter s' = n /\ spaces s' = spaces s /\
  space_meshs s' = space_meshs s /\ time_dom s' = time_dom s /\
  bd_cond s' = bd_cond s /\
  exists l, logs s' = logs s ++ l /\ Forall (fun x => 0 <= x) l /\
            length l
            = (if (Z.of_nat n + 1 <? time_len s)%Z then 1 else 0)%nat.
Proof.
  intros H.
  destruct (iteration_inv _ _ _ _ _ _ _ _ H)
    as (px & kine & e & _ & _ & _ & _ & Hn & Hes & _ & Hup & Hskip).
  split.
  { intros i Hi. rewrite Hes. apply nth_list_set_neq. intros ->. apply Hi. reflexivity. }
  destruct (Z.ltb_spec (Z.of_nat n + 1) (time_len s)) as [Hlt|Hge].
  - destruct (Hup Hlt) as (u & sq & sm & _ & _ & _ & ->).
    repeat (split; [reflexivity|]).
    eexists. split; [reflexivity|]. split; [|reflexivity].
    constructor; [apply sqrt_pos|constructor].
  - rewrite (Hskip Hge). repeat (split; [reflexivity|]).
    exists []. split; [cbn; symmetry; apply app_nil_r|].
    split; [constructor|reflexivity].
Qed.

Lemma iterate_frame (alpha beta pg : ndarray) (dt : R) (k : nat)
  (s0 s : DirichletSystem) :
  iterate alpha beta pg dt k s0 = Ok s ->
  (forall i, (k <= i)%nat ->
     nth i (energy_series s) 0 = nth i (energy_series s0) 0) /\
  ((0 < k)%nat -> counter s = (k - 1)%nat) /\
  spaces s = spaces s0 /\ space_meshs s = space_meshs s0 /\
  time_dom s = time_dom s0 /\ bd_cond s = bd_cond s0 /\
  exists l, logs s = logs s0 ++ l /\ Forall (fun x => 0 <= x) l /\
            length l = Nat.min k (Z.to_nat (time_len s0) - 1).
Proof.
  revert s. induction k as [|k IH]; intros s H.
  - simpl in H. injection H as <-.
    split; [reflexivity|]. split; [lia|]. repeat (split; [reflexivity|]).
    exists []. split; [symmetry; apply app_nil_r|].
    split; [constructor|reflexivity].
  - destruct (iterate_S_inv _ _ _ _ _ _ _ H) as (sk & b & Hk & Hit).
    destruct (IH sk Hk) as (He & _ & Hsp & Hsm & Htd & Hbc & l & Hl & Hpos & Hlen).
    destruct (iteration_frame _ _ _ _ _ _ _ _ Hit)
      as (He' & Hc & Hsp' & Hsm' & Htd' & Hbc' & l' & Hl' & Hpos' & Hlen').
    pose proof (iterate_config _ _ _ _ _ _ _ Hk)
      as (_ & _ & _ & _ & Htl & _).
    split.
    { intros i Hi. rewrite He' by lia. apply He. lia. }
    split; [intros _; rewrite Hc; lia|].
    repeat (split; [congruence|]).
    exists (l ++ l'). split; [rewrite Hl', Hl; symmetry; apply app_assoc|].
    split; [apply Forall_app; split; assumption|].
    rewrite length_app, Hlen, Hlen', Htl.
    destruct (Z.ltb_spec (Z.of_nat k + 1) (time_len s0)); lia.
Qed.

(** The states a run goes through, from the solver it starts on. *)
Lemma solve_iterate (self self' : DirichletSystem) (K : nat) :
  solve self = Ok (self', K) ->
  exists pg alpha sm,
    (0 <= time_len self)%Z /\
    pot_grid self = Some pg /\
    alpha_of (step (time_dom self)) pg (beta_of (step (time_dom self)) pg)
    = Ok alpha /\
    shape sm = shape (sol_mesh self) /\
    iterate alpha (beta_of (step (time_dom self)) pg) pg
      (step (time_dom self)) K
      (set_sol_mesh
         (set_energy_series self (repeat 0 (Z.to_nat (time_len self)))) sm)
    = Ok self'.
Proof.
  intros H.
  destruct (solve_inv _ _ _ H)
    as (pg & alpha & s0 & Htl & Hpg & Ha & Hs0 & Hloop).
  destruct (loop_entry_inv _ _ Hs0) as (sm & -> & Hsm).
  match type of Hloop with
  | solve_loop ?a ?b ?g ?d ?f 0 ?s = _ =>
      destruct (solve_loop_spec a b g d f 0 s s self' K eq_refl Hloop)
        as (_ & _ & Hit & _)
  end.
  exists pg, alpha, sm. split; [exact Htl|]. split; [exact Hpg|].
  split; [exact Ha|]. split; [exact Hsm|exact Hit].
Qed.

Lemma last_nth {A : Type} (l : list A) (d : A) :
  last l d = nth (length l - 1) l d.
Proof.
  induction l as [|a [|b l] IH]; try reflexivity.
  change (last (a :: b :: l) d) with (last (b :: l) d). rewrite IH.
  simpl. rewrite Nat.sub_0_r. reflexivity.
Qed.

(** The energy series [get_energy] returns after a run of [K] passes has
    one entry per step of the time domain, and the entries from [K] on are
    the zeros [np.zeros] put there.  So after a run that ends before the
    step count of the time domain -- on the stop tolerance or on the
    iteration override -- the last entry, [get_energy()[-1]], is 0. *)
Theorem energy_series_tail_is_zero (self self' : DirichletSystem) (K : nat) :
  solve self = Ok (self', K) ->
  length (get_energy self') = Z.to_nat (time_len self) /\
  (forall n, (K <= n)%nat -> nth n (get_energy self') 0 = 0) /\
  ((Z.of_nat K < time_len self)%Z -> last (get_energy self') 0 = 0).
Proof.
  intros H. unfold get_energy.
  destruct (solve_iterate _ _ _ H)
    as (pg & alpha & sm & Htl & _ & _ & _ & Hit).
  pose proof (iterate_config _ _ _ _ _ _ _ Hit) as Hc.
  do 11 destruct Hc as [_ Hc].
  cbn [energy_series set_sol_mesh set_mesh set_energy_series set_run] in Hc.
  rewrite repeat_length in Hc.
  destruct (iterate_frame _ _ _ _ _ _ _ Hit) as (He & _).
  cbn [energy_series set_sol_mesh set_mesh set_energy_series set_run] in He.
  assert (Hz : forall n, (K <= n)%nat -> nth n (energy_series self') 0 = 0).
  { intros n Hn. rewrite (He n Hn).
    destruct (Nat.lt_ge_cases n (Z.to_nat (time_len self))) as [Hlt|Hge].
    - apply nth_repeat_lt. exact Hlt.
    - apply nth_overflow. rewrite repeat_length. exact Hge. }
  split; [exact Hc|]. split; [exact Hz|].
  intros HK. rewrite last_nth. apply Hz. lia.
Qed.

Lemma energy_series_tail_witness :
  exists self',
    solve capped_solver = Ok (self', 1%nat) /\
    length (get_energy self') = 3%nat /\
    last (get_energy self') 0 = 0.
Proof.
  destruct capped_solver_one_pass as (self' & H).
  exists self'. split; [exact H|].
  destruct (energy_series_tail_is_zero capped_solver self' 1 H)
    as (Hlen & _ & Hlast).
  split; [exact Hlen|]. apply Hlast. simpl. lia.
Defined.



(** ** When the constructor returns *)






(** ** The potential field *)

(** On a solver the constructor built, every ingestion caches the same
    potential field: it has the shape of the grid, at each index it holds
    the value of the potential function at the coordinates of that grid
    point, and it depends neither on the ingested field nor on the
    boundary mode. *)
Theorem potential_sampled_on_grid (nb : notebook) (pot' : list R -> R)
  (td : Boundary) (sd : list Boundary) (bc : option unit) (mi : option Z)
  (tol : option R) (prs : option (list ndarray))
  (s0 s1 : DirichletSystem) (psi0 : ndarray) :
  __init__ nb pot' td sd bc mi tol prs = Ok s0 ->
  set_psi0_by_grid s0 psi0 = Ok s1 ->
  exists pg,
    pot_grid s1 = Some pg /\
    shape pg = map (@length R) (spaces s0) /\
    (forall idx, data pg idx = pot' (grid_point (spaces s0) idx)) /\
    (forall psi1 s2, set_psi0_by_grid s1 psi1 = Ok s2 ->
                     pot_grid s2 = Some pg).
Proof.
  intros H0 H1.
  destruct (init_inv _ _ _ _ _ _ _ _ _ H0)
    as (tl & sp & _ & _ & _ & _ & Hs0).
  unfold set_psi0_by_grid, _initialize in H1. bind_inv H1 as s Es.
  destruct (apply_boundary_frame _ _ Es) as (sm & ->).
  injection H1 as <-.
  eexists. split; [reflexivity|]. subst s0. cbn. split; [reflexivity|].
  split.
  { intros idx. unfold grid_point, np_meshgrid. rewrite map_map.
    reflexivity. }
  intros psi1 s2 H2.
  unfold set_psi0_by_grid, _initialize in H2. bind_inv H2 as s' Es'.
  destruct (apply_boundary_frame _ _ Es') as (sm' & ->).
  injection H2 as <-. reflexivity.
Qed.

Lemma potential_sampled_witness :
  exists s1 pg,
    set_psi0_by_grid (fresh_solver Free2D []) bump3 = Ok s1 /\
    pot_grid s1 = Some pg /\ shape pg = [3%nat].
Proof.
  destruct (potential_sampled_on_grid Free2D (fun _ => 0) (mk_Boundary 0 0 1)
              [mk_Boundary 0 2 1] None None None (Some [])
              (fresh_solver Free2D []) _ bump3
              (fresh_solver_constructed Free2D [])
              (fresh_solver_ingests Free2D []))
    as (pg & Hpg & Hsh & _).
  eexists. exists pg. split; [exact (fresh_solver_ingests Free2D [])|].
  split; [exact Hpg|exact Hsh].
Defined.

(** ** What the ingestion changes *)

(** The loop of [_apply_boundary] leaves every value whose index is, along
    each axis of the loop, neither 0 nor the extent less one. *)
Lemma apply_boundary_fold_keeps (nd : nat) (sh : list nat)
  (pairs : list (nat * nat)) (a a' : ndarray) :
  (forall i l, In (i, l) pairs -> l = nth i sh O) ->
  shape a = sh ->
  foldM (fun sm (il : nat * nat) =>
           let (i, l) := il in
           sm <- put_scalar nd i 0 sm 0 ;;
           put_scalar nd i (Z.of_nat l - 1) sm 0) pairs a = Ok a' ->
  forall idx,
    (forall i l, In (i, l) pairs ->
       nth i idx O <> O /\ nth i idx O <> (l - 1)%nat) ->
    data a' idx = data a idx.
Proof.
  intros Hp. revert a. induction pairs as [|[i l] pairs IH];
    intros a Hs H idx Hidx; simpl in H.
  - injection H as <-. reflexivity.
  - bind_inv H as a2 E2. bind_inv E2 as a1 E1.
    destruct (put_scalar_inv _ _ _ _ _ _ E1) as (k1 & Hk1 & Hs1 & Hd1).
    destruct (put_scalar_inv _ _ _ _ _ _ E2) as (k2 & Hk2 & Hs2 & Hd2).
    apply norm_index_zero in Hk1. subst k1.
    rewrite Hs1, Hs in Hk2.
    rewrite (Hp i l (or_introl eq_refl)) in Hk2.
    apply norm_index_last in Hk2. destruct Hk2 as [Hk2 _].
    rewrite (IH (fun i l H => Hp i l (or_intror H)) a2
               ltac:(congruence) H idx
               (fun i l H => Hidx i l (or_intror H))).
    destruct (Hidx i l (or_introl eq_refl)) as [H0 Hl].
    rewrite (Hp i l (or_introl eq_refl)) in Hl.
    rewrite Hd2, Hd1.
    destruct (Nat.eqb_spec (nth i idx O) k2) as [He|_]; [congruence|].
    destruct (Nat.eqb_spec (nth i idx O) O) as [He|_]; [congruence|].
    reflexivity.
Qed.

(** In Dirichlet mode the ingestion of a field of the grid shape changes
    the boundary values and nothing else: the stored field has the grid
    shape, is zero at every boundary point, and holds the supplied values at
    every other point. *)
Theorem ingestion_zeroes_only_the_boundary (self s1 : DirichletSystem)
  (psi0 : ndarray) :
  bd_cond self = None -> pbc self = false ->
  shape psi0 = sol_shape self ->
  set_psi0_by_grid self psi0 = Ok s1 ->
  shape (sol_mesh s1) = sol_shape self /\
  forall idx, in_shape idx (sol_shape self) ->
    (boundary_point (sol_shape self) idx -> data (sol_mesh s1) idx = 0) /\
    (~ boundary_point (sol_shape self) idx ->
     data (sol_mesh s1) idx = data psi0 idx).
Proof.
  intros Hbd Hpbc Hpsi H.
  destruct (set_psi0_by_grid_inv _ _ _ H) as (s & pg & Happ & -> & _).
  destruct (apply_boundary_zero (set_sol_mesh self psi0) s Hbd Hpbc Hpsi Happ)
    as (sm & Hs & Hsm & Hz).
  unfold _apply_boundary in Happ.
  cbn [bd_cond pbc ndim sol_shape sol_mesh set_sol_mesh set_mesh] in Happ.
  rewrite Hbd, Hpbc in Happ. bind_inv Happ as sm' E.
  injection Happ as <-. cbn [sol_mesh set_pot_grid set_run set_sol_mesh set_mesh] in *.
  assert (Hsm' : shape sm' = sol_shape self).
  { apply apply_boundary_fold with (sh := sol_shape self) in E;
      [apply E| |exact Hpsi].
    intros i l Hin. apply combine_seq_in in Hin. destruct Hin as [_ ->].
    rewrite Nat.sub_0_r. reflexivity. }
  split; [exact Hsm'|]. intros idx Hidx. split.
  - intros Hb.
    injection Hs as ->.
    apply Hz; [rewrite Hsm; exact Hidx|rewrite Hsm; exact Hb].
  - intros Hnb.
    apply (apply_boundary_fold_keeps _ (sol_shape self) _ _ _
             ltac:(intros i l Hin; apply combine_seq_in in Hin;
                   destruct Hin as [_ ->]; rewrite Nat.sub_0_r; reflexivity)
             Hpsi E).
    intros i l Hin. apply combine_seq_in in Hin. destruct Hin as [Hi ->].
    rewrite Nat.sub_0_r.
    split; intros He; apply Hnb; exists i.
    + split; [lia|left; exact He].
    + split; [lia|right; exact He].
Qed.

Lemma ingestion_zeroes_only_the_boundary_witness :
  exists s1,
    set_psi0_by_grid (fresh_solver Free2D []) bump3 = Ok s1 /\
    data (sol_mesh s1) [0%nat] = 0 /\
    data (sol_mesh s1) [1%nat] = data bump3 [1%nat].
Proof.
  eexists. split; [exact (fresh_solver_ingests Free2D [])|].
  destruct (ingestion_zeroes_only_the_boundary (fresh_solver Free2D []) _
              bump3 eq_refl eq_refl eq_refl (fresh_solver_ingests Free2D []))
    as [_ Hall].
  assert (Hin : forall k, (k < 3)%nat ->
            in_shape [k] (sol_shape (fresh_solver Free2D [])))
    by (intros k Hk; constructor; [exact Hk|constructor]).
  split.
  - apply (proj1 (Hall [0%nat] (Hin 0%nat ltac:(lia)))).
    exists 0%nat. split; [simpl; lia|left; reflexivity].
  - apply (proj2 (Hall [1%nat] (Hin 1%nat ltac:(lia)))).
    intros (i & Hi & Hb). simpl in Hi.
    assert (i = 0%nat) by lia. subst i.
    destruct Hb as [Hb|Hb]; discriminate Hb.
Defined.

(** ** The potential of "3d columb" and the coefficients of the update *)

(** For a positive [cut] the potential of "3d columb" returns a value in
    [[0, cut)]: 0 inside the ball of radius [1 / cut], [cut - 1 / r]
    outside, and it is 0 exactly on the closed ball.  For [cut = 0] it
    raises [ZeroDivisionError]. *)
Theorem columb_pot_bounds (x y z eps cut : R) :
  (0 < cut ->
   exists v, Columb.pot x y z eps cut = Ok v /\
             0 <= v < cut /\
             (v = 0 <-> sqrt (x * x + y * y + z * z) <= 1 / cut)) /\
  (cut = 0 -> Columb.pot x y z eps cut = Raise ZeroDivisionError).
Proof.
  unfold Columb.pot, py_div. split.
  - intros Hc.
    destruct (Req_dec_T cut 0) as [Hz|_]; [lra|]. cbn [bind].
    set (r := sqrt (x * x + y * y + z * z)).
    assert (Hq : 0 < 1 / cut) by (apply Rdiv_lt_0_compat; lra).
    destruct (Rlt_dec r (1 / cut)) as [Hlt|Hge].
    + exists 0. split; [reflexivity|]. split; [lra|].
      split; [intros _; lra|reflexivity].
    + apply Rnot_lt_le in Hge.
      assert (Hr : 0 < r) by lra.
      assert (Hinv : 1 / r <= cut).
      { unfold Rdiv in *. rewrite Rmult_1_l in *.
        rewrite <- (Rinv_inv cut).
        apply Rinv_le_contravar; assumption. }
      assert (Hpos : 0 < 1 / r) by (apply Rdiv_lt_0_compat; lra).
      eexists. split; [reflexivity|]. split; [lra|].
      split.
      * intros Hv. assert (Heq : 1 / r = cut) by lra.
        rewrite <- Heq. unfold Rdiv. rewrite !Rmult_1_l, Rinv_inv. lra.
      * intros Hle. assert (Heq : r = 1 / cut) by lra.
        rewrite Heq. unfold Rdiv. rewrite !Rmult_1_l, Rinv_inv. lra.
  - intros ->. destruct (Req_dec_T 0 0) as [_|Hn]; [reflexivity|].
    exfalso. apply Hn. reflexivity.
Qed.

Lemma columb_pot_bounds_witness :
  exists v, Columb.pot 3 4 0 (1 / 100000) 1 = Ok v /\ 0 <= v < 1.
Proof.
  destruct (proj1 (columb_pot_bounds 3 4 0 (1 / 100000) 1) ltac:(lra))
    as (v & Hv & Hb & _).
  exists v. split; [exact Hv|exact Hb].
Defined.

(** For a time step that is not negative and a potential field without
    negative values, the coefficient arrays [solve] computes are defined
    at every grid point without a division by zero, [beta] lies in
    [(0, 1]] and [alpha] in [(-1, 1]]. *)
Theorem coefficients_bounded (sh : list nat) (dt : R) (pg : ndarray) :
  shape pg = sh -> 0 <= dt ->
  (forall idx, in_shape idx sh -> 0 <= data pg idx) ->
  exists alpha,
    alpha_of dt pg (beta_of dt pg) = Ok alpha /\
    shape alpha = sh /\ shape (beta_of dt pg) = sh /\
    forall idx, in_shape idx sh ->
      1 + 0.5 * dt * data pg idx <> 0 /\
      0 < data (beta_of dt pg) idx <= 1 /\
      -1 < data alpha idx <= 1.
Proof.
  intros Hs Hdt Hv.
  destruct (alpha_beta_agrees sh dt pg _ (agrees_self _ _ Hs))
    as ([Hbs Hb] & alpha & Ea & [Has Ha]).
  exists alpha. split; [exact Ea|]. split; [exact Has|].
  split; [exact Hbs|]. intros idx Hidx.
  rewrite (Hb idx Hidx), (Ha idx Hidx).
  specialize (Hv idx Hidx).
  assert (Hh : 0 <= 0.5 * dt * data pg idx).
  { apply Rmult_le_pos; [lra|exact Hv]. }
  set (h := 0.5 * dt * data pg idx) in *.
  assert (Hd : 0 < 1 + h) by lra.
  assert (Hi : 0 < 1 / (1 + h)) by (apply Rdiv_lt_0_compat; lra).
  assert (Hi1 : 1 / (1 + h) <= 1).
  { apply (Rmult_le_reg_r (1 + h)); [exact Hd|].
    unfold Rdiv. rewrite Rmult_assoc, Rinv_l by lra. lra. }
  split; [lra|]. split; [lra|].
  assert (Heq : (1 - h) * (1 / (1 + h)) = 2 * (1 / (1 + h)) - 1)
    by (field; lra).
  rewrite Heq. lra.
Qed.

Lemma coefficients_bounded_witness :
  exists alpha,
    alpha_of (1 / 4) (np_zeros [3%nat]) (beta_of (1 / 4) (np_zeros [3%nat]))
    = Ok alpha /\
    -1 < data alpha [1%nat] <= 1.
Proof.
  destruct (coefficients_bounded [3%nat] (1 / 4) (np_zeros [3%nat])
              eq_refl ltac:(lra) ltac:(intros idx _; simpl; lra))
    as (alpha & Ea & _ & _ & Hall).
  exists alpha. split; [exact Ea|].
  apply (Hall [1%nat]). constructor; [simpl; lia|constructor].
Defined.

(** ** A tolerance that is never met *)

(** The relative change of the energy is an absolute value, so a stop
    tolerance that is zero or negative is never met: the run goes through
    the whole schedule, as it does without a tolerance. *)
Theorem nonpositive_tolerance_runs_schedule (self self' : DirichletSystem)
  (K : nat) (tol : R) :
  stop_tol self = Some tol -> tol <= 0 ->
  solve self = Ok (self', K) ->
  K = Z.to_nat (scheduled self).
Proof.
  intros Htol Hle H.
  destruct (solve_inv _ _ _ H)
    as (pg & alpha & s0 & _ & _ & _ & Hs0 & Hloop).
  destruct (loop_entry_inv _ _ Hs0) as (sm & -> & _).
  match type of Hloop with
  | solve_loop ?a ?b ?g ?d ?f 0 ?s = _ =>
      destruct (solve_loop_spec a b g d f 0 s s self' K eq_refl Hloop)
        as (Hrange & Hpos & _ & Hall)
  end.
  destruct K as [|m].
  - destruct (Z.to_nat (scheduled self)); [reflexivity|].
    specialize (Hpos ltac:(lia)). lia.
  - destruct (Hall m ltac:(lia)) as (sk & sk' & b & Hk & Hit & Hiff).
    destruct (proj1 Hiff eq_refl) as [Hb|Hend]; [|lia].
    exfalso.
    destruct (iteration_inv _ _ _ _ _ _ _ _ Hit)
      as (px & kine & e & _ & _ & _ & _ & _ & _ & Hstop & _).
    pose proof (iteration_config _ _ _ _ _ _ _ _ Hit)
      as (_ & _ & _ & _ & _ & _ & Htol' & _).
    pose proof (iterate_config _ _ _ _ _ _ _ Hk)
      as (_ & _ & _ & _ & _ & _ & Htol0 & _).
    cbn [stop_tol set_sol_mesh set_mesh set_energy_series set_run] in Htol0.
    rewrite Hb in Hstop. unfold stop_test in Hstop.
    rewrite Htol', Htol0, Htol in Hstop.
    destruct m as [|m']; [discriminate|].
    match type of Hstop with
    | true = (if Rlt_dec ?x tol then _ else _) =>
        destruct (Rlt_dec x tol) as [Hlt|_]; [|discriminate];
        pose proof (Rabs_pos (1 - nth m' (energy_series sk') 0 / e))
    end.
    lra.
Qed.

(** [zero_tol_solver] is what the constructor and [set_psi0_by_grid]
    leave. *)
Lemma zero_tol_solver_constructed :
  exists s0,
    __init__ Free2D (fun _ => 0) (mk_Boundary 0 (1 / 2) (1 / 4))
      [mk_Boundary 0 2 1] None None (Some 0) None = Ok s0 /\
    set_psi0_by_grid s0 bump3 = Ok zero_tol_solver.
Proof.
  eexists. split.
  - unfold __init__.
    rewrite (point_count_exact (mk_Boundary 0 (1 / 2) (1 / 4)) 2)
      by (simpl; try lra; field).
    cbn [bind]. unfold _init_mesh. cbn [spat_dom mapM].
    rewrite (point_count_exact (mk_Boundary 0 2 1) 2)
      by (simpl; try lra; field).
    cbn [bind]. change (Z.of_nat 3) with 3%Z.
    cbn [start end_]. rewrite linspace_0_2_3. cbn [bind].
    reflexivity.
  - unfold set_psi0_by_grid, _initialize, _apply_boundary. cbn.
    unfold zero_tol_solver, set_pot_grid, set_run, set_sol_mesh, set_mesh.
    cbn. f_equal. f_equal.
    unfold bump3. f_equal.
    apply functional_extensionality. intros idx.
    destruct idx as [|[|[|[|a]]] rest]; reflexivity.
Qed.

Lemma zero_tol_solver_runs :
  exists self' K, solve zero_tol_solver = Ok (self', K).
Proof.
  apply (solve_total _ (np_zeros [3%nat])); try reflexivity.
  - constructor; try reflexivity. constructor.
  - simpl. lia.
Qed.

Lemma nonpositive_tolerance_witness :
  exists self', solve zero_tol_solver = Ok (self', 3%nat).
Proof.
  destruct zero_tol_solver_runs as (self' & K & H).
  exists self'.
  rewrite (nonpositive_tolerance_runs_schedule zero_tol_solver self' K 0
             eq_refl ltac:(lra) H) in H.
  exact H.
Defined.

(** ** What a run leaves of the grid *)

(** A run on arrays of the grid shape changes the solution, the counter,
    the log and the energy series, and nothing else.  What [get_solution]
    and [get_full_mesh] return afterwards are the coordinate axes the
    constructor built and a field of the grid shape; the priors, the
    potential field, the volume element and the schedule are those the run
    started with. *)
Theorem solve_keeps_grid (self self' : DirichletSystem) (K : nat)
  (pg : ndarray) :
  well_shaped self -> pot_grid self = Some pg -> shape pg = sol_shape self ->
  solve self = Ok (self', K) ->
  get_full_mesh self' = get_solution self' /\
  fst (get_solution self') = spaces self /\
  shape (snd (get_solution self')) = sol_shape self /\
  well_shaped self' /\
  sol_shape self' = sol_shape self /\ ndim self' = ndim self /\
  space_meshs self' = space_meshs self /\
  priors self' = priors self /\ pot_grid self' = Some pg /\
  vol self' = vol self /\ spat_dom self' = spat_dom self /\
  time_dom self' = time_dom self /\ time_len self' = time_len self /\
  stop_tol self' = stop_tol self /\ max_iter self' = max_iter self /\
  bd_cond self' = bd_cond self /\ pbc self' = pbc self /\
  variant self' = variant self.
Proof.
  intros Hws Hpg Hsh H.
  destruct (solve_iterate _ _ _ H)
    as (pg' & alpha & sm & _ & Hpg' & Ha & Hsm & Hit).
  rewrite Hpg in Hpg'. injection Hpg' as <-.
  destruct (alpha_beta_agrees _ (step (time_dom self)) pg _
              (agrees_self _ _ Hsh)) as ([Hbs _] & alpha' & Ea & [Has _]).
  rewrite Ha in Ea. injection Ea as <-.
  pose proof (iterate_config _ _ _ _ _ _ _ Hit)
    as (Hv & Hp & Hpr & Hvol & Htl & Hss & Htol & Hmi & Hsd & Hnd & Hpg'
        & _).
  destruct (iterate_frame _ _ _ _ _ _ _ Hit)
    as (_ & _ & Hsp & Hms & Htd & Hbc & _).
  cbn [variant pbc priors vol time_len sol_shape stop_tol max_iter spat_dom
       ndim pot_grid spaces space_meshs time_dom bd_cond
       set_sol_mesh set_mesh set_energy_series set_run] in *.
  assert (Hws' : well_shaped self').
  { apply (iterate_well_shaped _ _ _ _ _ _ _ Hit); cbn; try assumption.
    destruct Hws as [H1 H2 H3 H4]. constructor; cbn; try assumption.
    congruence. }
  split; [reflexivity|]. split; [exact Hsp|].
  split; [cbn [get_solution snd]; rewrite (ws_sol _ Hws'); exact Hss|].
  split; [exact Hws'|].
  repeat (split; [first [assumption|congruence]|]).
  assumption.
Qed.

Lemma solve_keeps_grid_witness :
  exists self',
    solve capped_solver = Ok (self', 1%nat) /\
    fst (get_solution self') = [[0; 1; 2]] /\
    shape (snd (get_solution self')) = [3%nat].
Proof.
  destruct capped_solver_one_pass as (self' & H).
  exists self'. split; [exact H|].
  destruct (solve_keeps_grid capped_solver self' 1 (np_zeros [3%nat])
              capped_solver_well_shaped eq_refl eq_refl H)
    as (_ & Hsp & Hsh & _).
  split; [exact Hsp|exact Hsh].
Defined.

(** ** The sign of the energy estimate *)













(** ** Array objects: what the class does to the array it is handed *)

Lemma store_length (h : heap) (p : loc) (a : ndarray) :
  length (store h p a) = length h.
Proof.
  revert p. induction h as [|b h IH]; intros p; [reflexivity|].
  destruct p; simpl; [reflexivity|]. f_equal. apply IH.
Qed.

Lemma deref_store_eq (h : heap) (p : loc) (a : ndarray) :
  (p < length h)%nat -> deref (store h p a) p = a.
Proof.
  unfold deref. revert p. induction h as [|b h IH]; intros p Hp;
    simpl in Hp; [lia|].
  destruct p; simpl; [reflexivity|]. apply IH. lia.
Qed.

Lemma deref_store_neq (h : heap) (p q : loc) (a : ndarray) :
  q <> p -> deref (store h p a) q = deref h q.
Proof.
  unfold deref. revert p q. induction h as [|b h IH]; intros p q Hq;
    [reflexivity|].
  destruct p, q; simpl; try reflexivity; [contradiction|].
  apply IH. intros ->. apply Hq. reflexivity.
Qed.

Lemma deref_app_new (h : heap) (a : ndarray) :
  deref (h ++ [a]) (length h) = a.
Proof.
  unfold deref. rewrite app_nth2 by lia. rewrite Nat.sub_diag. reflexivity.
Qed.

Lemma deref_app_old (h : heap) (a : ndarray) (q : loc) :
  (q < length h)%nat -> deref (h ++ [a]) q = deref h q.
Proof. intros Hq. unfold deref. apply app_nth1. exact Hq. Qed.

Lemma set_sol_mesh_eta (s : DirichletSystem) :
  set_sol_mesh s (sol_mesh s) = s.
Proof. destruct s. reflexivity. Qed.

(** A method that works in place stores its result in the object of the
    solution and touches no other object. *)
Lemma in_place_inv (f : DirichletSystem -> result DirichletSystem)
  (h h' : heap) (o o' : object) :
  (sol_ref o < length h)%nat ->
  in_place f h o = Ok (h', o') ->
  f (view h o) = Ok (view h' o') /\
  sol_ref o' = sol_ref o /\ length h' = length h /\
  (forall q, q <> sol_ref o -> deref h' q = deref h q).
Proof.
  unfold in_place. intros Hp H. bind_inv H as s E. injection H as <- <-.
  unfold view at 2. cbn [attrs sol_ref].
  rewrite deref_store_eq by exact Hp. rewrite set_sol_mesh_eta.
  split; [exact E|]. split; [reflexivity|].
  split; [apply store_length|].
  intros q Hq. apply deref_store_neq. exact Hq.
Qed.

(** One pass on objects: it is the pass of [iteration] on the values; it
    leaves the pre-update solution in the object the solution was in; when
    it updates, the solution moves to a new object, and otherwise it stays
    where it was.  No other object that existed before is touched. *)
Lemma iteration_obj_inv (alpha beta pg : ndarray) (dt : R) (h h' : heap)
  (o o' : object) (n : nat) (b : bool) :
  (sol_ref o < length h)%nat ->
  iteration_obj alpha beta pg dt h o n = Ok (h', o', b) ->
  iteration alpha beta pg dt (view h o) n = Ok (view h' o', b) /\
  (sol_ref o' < length h')%nat /\ (length h <= length h')%nat /\
  (forall q, (q < length h)%nat -> q <> sol_ref o ->
             deref h' q = deref h q) /\
  exists px kine,
    pre_update (view h o) n
    = Ok (set_sol_mesh (set_counter (view h o) n) px, kine) /\
    deref h' (sol_ref o) = px /\
    ((Z.of_nat n + 1 < time_len (attrs o))%Z ->
     (length h <= sol_ref o')%nat) /\
    ((time_len (attrs o) <= Z.of_nat n + 1)%Z -> sol_ref o' = sol_ref o).
Proof.
  unfold iteration_obj, iteration. intros Hp H.
  bind_inv H as sk E. rewrite E. cbn [bind].
  destruct sk as [s1 kine].
  destruct (pre_update_inv _ _ _ _ E) as (sm & px & _ & _ & Hs1 & _).
  cbn [fst snd] in *.
  bind_inv H as e E0. rewrite E0. cbn [bind].
  bind_inv H as es E1. rewrite E1. cbn [bind].
  assert (Htl : time_len (set_energy_series s1 es) = time_len (attrs o))
    by (subst s1; reflexivity).
  assert (Hpx : sol_mesh s1 = px) by (subst s1; reflexivity).
  rewrite Htl in *.
  destruct (Z.ltb_spec (Z.of_nat n + 1) (time_len (attrs o))) as [Hlt|Hge].
  - bind_inv H as u Eu. rewrite Eu. cbn [bind].
    bind_inv H as s2 E2. rewrite E2. cbn [bind].
    injection H as <- <- <-.
    unfold view. cbn [attrs sol_ref].
    rewrite deref_app_new, set_sol_mesh_eta.
    split; [reflexivity|].
    split; [rewrite !length_app; simpl; lia|].
    split; [rewrite !length_app, store_length; simpl; lia|].
    split.
    { intros q Hq Hne.
      rewrite !deref_app_old
        by (rewrite ?length_app, store_length; simpl; lia).
      apply deref_store_neq. exact Hne. }
    exists px, kine. split; [rewrite Hs1; reflexivity|].
    split.
    { rewrite !deref_app_old
        by (rewrite ?length_app, store_length; simpl; lia).
      rewrite deref_store_eq by exact Hp. exact Hpx. }
    split; [|lia]. intros _.
    rewrite length_app, store_length. lia.
  - injection H as <- <- <-.
    unfold view. cbn [attrs sol_ref].
    rewrite deref_store_eq by exact Hp.
    replace (set_sol_mesh (set_energy_series s1 es) (sol_mesh s1))
      with (set_energy_series s1 es) by (destruct s1; reflexivity).
    split; [reflexivity|].
    split; [rewrite store_length; exact Hp|].
    split; [rewrite store_length; lia|].
    split; [intros q _ Hne; apply deref_store_neq; exact Hne|].
    exists px, kine. split; [rewrite Hs1; reflexivity|].
    split; [exact Hpx|].
    split; [lia|reflexivity].
Qed.

(** A pass on objects returns whenever the pass on the values does. *)
Lemma iteration_obj_total (alpha beta pg : ndarray) (dt : R) (h : heap)
  (o : object) (n : nat) (s' : DirichletSystem) (b : bool) :
  iteration alpha beta pg dt (view h o) n = Ok (s', b) ->
  exists h' o', iteration_obj alpha beta pg dt h o n = Ok (h', o', b).
Proof.
  unfold iteration, iteration_obj. intros H.
  destruct (pre_update (view h o) n) as [[s1 kine]|e]; [|discriminate].
  cbn [bind fst snd] in *.
  destruct (energy pg (sol_mesh s1) kine) as [e|e]; [|discriminate].
  cbn [bind] in *.
  destruct (setitem (energy_series s1) n e) as [es|e']; [|discriminate].
  cbn [bind] in *.
  destruct (Z.of_nat n + 1 <? time_len (set_energy_series s1 es))%Z.
  - destruct (update alpha beta dt (sol_mesh (set_energy_series s1 es)) kine)
      as [u|e']; [|discriminate].
    cbn [bind] in *.
    destruct (renormalize (set_sol_mesh (set_energy_series s1 es) u))
      as [s2|e']; [|discriminate].
    cbn [bind] in *. injection H as <- <-. eexists. eexists. reflexivity.
  - cbn [bind] in H. injection H as <- <-. eexists. eexists. reflexivity.
Qed.

Lemma solve_loop_obj_total (alpha beta pg : ndarray) (dt : R) (fuel : nat) :
  forall (n : nat) (h : heap) (o : object) (s' : DirichletSystem) (K : nat),
    (sol_ref o < length h)%nat ->
    solve_loop alpha beta pg dt fuel n (view h o) = Ok (s', K) ->
    exists h' o',
      solve_loop_obj alpha beta pg dt fuel n h o = Ok (h', o', K).
Proof.
  induction fuel as [|fuel IH]; intros n h o s' K Hp H; simpl in *.
  - injection H as _ <-. eexists. eexists. reflexivity.
  - bind_inv H as sb E. destruct sb as [s1 b].
    destruct (iteration_obj_total _ _ _ _ _ _ _ _ _ E) as (h1 & o1 & E1).
    rewrite E1. cbn [bind fst snd] in *.
    destruct (iteration_obj_inv _ _ _ _ _ _ _ _ _ _ Hp E1)
      as (E' & Hp1 & _).
    rewrite E in E'. injection E' as ->.
    destruct b.
    + injection H as _ <-. eexists. eexists. reflexivity.
    + apply (IH (S n) h1 o1 s' K Hp1 H).
Qed.

(** The loop on objects: it is the loop of [solve_loop] on the values; the
    objects that existed before, other than the one of the solution, keep
    their content; a first pass that updates leaves its pre-update solution
    in the object the solution was in and moves the solution to a new
    object, and a single pass that does not update leaves the solution
    where it was. *)
Lemma solve_loop_obj_inv (alpha beta pg : ndarray) (dt : R) (fuel : nat) :
  forall (n : nat) (h h' : heap) (o o' : object) (K : nat),
    (sol_ref o < length h)%nat ->
    solve_loop_obj alpha beta pg dt fuel n h o = Ok (h', o', K) ->
    solve_loop alpha beta pg dt fuel n (view h o) = Ok (view h' o', K) /\
    (sol_ref o' < length h')%nat /\ (length h <= length h')%nat /\
    (forall q, (q < length h)%nat -> q <> sol_ref o ->
               deref h' q = deref h q) /\
    (sol_ref o' = sol_ref o \/ (length h <= sol_ref o')%nat) /\
    (fuel = O -> h' = h /\ o' = o) /\
    (fuel <> O -> (Z.of_nat n + 1 < time_len (attrs o))%Z ->
     (length h <= sol_ref o')%nat /\
     exists px kine,
       pre_update (view h o) n
       = Ok (set_sol_mesh (set_counter (view h o) n) px, kine) /\
       deref h' (sol_ref o) = px) /\
    (fuel = 1%nat -> (time_len (attrs o) <= Z.of_nat n + 1)%Z ->
     sol_ref o' = sol_ref o /\
     exists px kine,
       pre_update (view h o) n
       = Ok (set_sol_mesh (set_counter (view h o) n) px, kine) /\
       deref h' (sol_ref o) = px).
Proof.
  induction fuel as [|fuel IH]; intros n h h' o o' K Hp H; simpl in H.
  - injection H as <- <- <-. simpl.
    split; [reflexivity|]. split; [exact Hp|]. split; [lia|].
    split; [reflexivity|]. split; [left; reflexivity|].
    split; [split; reflexivity|]. split; [congruence|discriminate].
  - bind_inv H as r E. destruct r as [[h1 o1] b].
    destruct (iteration_obj_inv _ _ _ _ _ _ _ _ _ _ Hp E)
      as (Eit & Hp1 & Hlen1 & Hfr1 & px & kine & Hpre & Hpx & Hup & Hkeep).
    cbn [fst snd] in H. simpl. rewrite Eit. cbn [bind fst snd].
    assert (Hcase : sol_ref o1 = sol_ref o \/ (length h <= sol_ref o1)%nat).
    { destruct (Z.lt_ge_cases (Z.of_nat n + 1) (time_len (attrs o)))
        as [Hlt|Hge]; [right; exact (Hup Hlt)|left; exact (Hkeep Hge)]. }
    destruct b.
    + injection H as <- <- <-.
      split; [reflexivity|]. split; [exact Hp1|]. split; [exact Hlen1|].
      split; [exact Hfr1|]. split; [exact Hcase|].
      split; [discriminate|]. split.
      * intros _ Hlt. split; [exact (Hup Hlt)|].
        exists px, kine. split; [exact Hpre|exact Hpx].
      * intros _ Hge. split; [exact (Hkeep Hge)|].
        exists px, kine. split; [exact Hpre|exact Hpx].
    + destruct (IH (S n) h1 h' o1 o' K Hp1 H)
        as (Eloop & Hp' & Hlen' & Hfr' & Hcase' & Hzero & _).
      split; [exact Eloop|]. split; [exact Hp'|]. split; [lia|].
      split.
      { intros q Hq Hne. rewrite Hfr' by lia. apply Hfr1; assumption. }
      split; [destruct Hcase, Hcase'; first [left; congruence|right; lia]|].
      split; [discriminate|]. split.
      * intros _ Hlt. specialize (Hup Hlt).
        split; [destruct Hcase'; lia|].
        exists px, kine. split; [exact Hpre|].
        rewrite Hfr' by lia. exact Hpx.
      * intros Hf Hge. injection Hf as ->.
        destruct (Hzero eq_refl) as [-> ->].
        split; [exact (Hkeep Hge)|].
        exists px, kine. split; [exact Hpre|exact Hpx].
Qed.

(** [set_psi0_by_grid] keeps no copy of the array it is handed: the
    solution attribute is bound to the caller's array object, so what
    [get_solution] returns next is that object, and the boundary values are
    set to zero in it.  No other array object is touched.  On the values
    the call is [set_psi0_by_grid] of the content of the object. *)
Theorem ingestion_stores_into_callers_array (h h' : heap) (o o' : object)
  (p : loc) :
  (p < length h)%nat ->
  set_psi0_by_grid_obj h o p = Ok (h', o') ->
  set_psi0_by_grid (attrs o) (deref h p) = Ok (view h' o') /\
  snd (get_solution_obj o') = p /\
  length h' = length h /\
  (forall q, q <> p -> deref h' q = deref h q) /\
  shape (deref h' p) = shape (deref h p) /\
  (bd_cond (attrs o) = None -> pbc (attrs o) = false ->
   shape (deref h p) = sol_shape (attrs o) ->
   zero_on_boundary (deref h' p)).
Proof.
  unfold set_psi0_by_grid_obj. intros Hp H. bind_inv H as ho E.
  destruct ho as [h1 o1]. cbn [fst snd] in H. injection H as <- <-.
  destruct (in_place_inv _ h h1 (mk_object (attrs o) p) o1 Hp E)
    as (Eapp & Hr & Hlen & Hfr).
  cbn [sol_ref attrs] in *.
  assert (Hattrs : attrs o1 = view h1 o1).
  { unfold in_place in E. bind_inv E as s Es. injection E as <- <-.
    unfold view. cbn [attrs sol_ref].
    rewrite deref_store_eq by exact Hp. symmetry. apply set_sol_mesh_eta. }
  assert (Hval : set_psi0_by_grid (attrs o) (deref h p)
                 = Ok (view h1 (mk_object
                                  (set_pot_grid (attrs o1)
                                     {| shape := sol_shape (attrs o1);
                                        data := fun idx =>
                                          pot (attrs o1)
                                            (map (fun m => data m idx)
                                               (space_meshs (attrs o1))) |})
                                  (sol_ref o1)))).
  { unfold set_psi0_by_grid, _initialize.
    change (set_sol_mesh (attrs o) (deref h p))
      with (view h (mk_object (attrs o) p)).
    rewrite Eapp. cbn [bind]. rewrite Hattrs. reflexivity. }
  split; [exact Hval|].
  split; [exact Hr|]. split; [exact Hlen|]. split; [exact Hfr|].
  split.
  { pose proof (proj1 (ingestion_spec (attrs o) (deref h p)) _ Hval) as Hs.
    rewrite <- Hs, <- Hr. reflexivity. }
  intros Hbd Hpbc Hsh.
  destruct (apply_boundary_zero (view h (mk_object (attrs o) p)) _
              Hbd Hpbc Hsh Eapp) as (sm & Hsm & _ & Hz).
  assert (Hd : deref h1 p = sm).
  { rewrite <- Hr.
    change (deref h1 (sol_ref o1)) with (sol_mesh (view h1 o1)).
    rewrite Hsm. reflexivity. }
  rewrite Hd. exact Hz.
Qed.

(** [get_solution], before any run, on the object of [[0.6, 0.8, 0.]]: the
    caller's array now starts with 0. *)
Lemma ingestion_stores_witness :
  exists h' o',
    set_psi0_by_grid_obj [edge_prior] (mk_object (fresh_solver Free2D []) 0%nat)
      0%nat = Ok (h', o') /\
    snd (get_solution_obj o') = 0%nat /\
    data (deref [edge_prior] 0%nat) [0%nat] = 3 / 5 /\
    data (deref h' 0%nat) [0%nat] = 0.
Proof.
  assert (E : exists h' o',
            set_psi0_by_grid_obj [edge_prior]
              (mk_object (fresh_solver Free2D []) 0%nat) 0%nat
            = Ok (h', o')).
  { unfold set_psi0_by_grid_obj, in_place, _apply_boundary. cbn.
    eexists. eexists. reflexivity. }
  destruct E as (h' & o' & E). exists h', o'. split; [exact E|].
  destruct (ingestion_stores_into_callers_array [edge_prior] h'
              (mk_object (fresh_solver Free2D []) 0%nat) o' 0%nat
              ltac:(simpl; lia) E) as (_ & Hr & _ & _ & Hs & Hz).
  split; [exact Hr|]. split; [reflexivity|].
  specialize (Hz eq_refl eq_refl eq_refl).
  apply Hz.
  - rewrite Hs. constructor; [simpl; lia|constructor].
  - exists 0%nat. split; [|left; reflexivity].
    rewrite Hs. simpl. lia.
Defined.

Lemma solve_obj_inv (h h' : heap) (o o' : object) (K : nat) :
  (sol_ref o < length h)%nat ->
  solve_obj h o = Ok (h', o', K) ->
  exists pg alpha h1 o1,
    pot_grid (attrs o) = Some pg /\
    alpha_of (step (time_dom (attrs o))) pg
      (beta_of (step (time_dom (attrs o))) pg) = Ok alpha /\
    loop_entry (view h o) = Ok (view h1 o1) /\
    sol_ref o1 = sol_ref o /\ length h1 = length h /\
    (forall q, q <> sol_ref o -> deref h1 q = deref h q) /\
    time_len (attrs o1) = time_len (attrs o) /\
    max_iter (attrs o1) = max_iter (attrs o) /\
    solve_loop_obj alpha (beta_of (step (time_dom (attrs o))) pg) pg
      (step (time_dom (attrs o))) (Z.to_nat (t_len (attrs o1))) 0 h1 o1
    = Ok (h', o', K).
Proof.
  unfold solve_obj. intros Hp H. bind_inv H as es Ees.
  destruct (time_len (attrs o) <? 0)%Z; [discriminate|].
  injection Ees as <-. cbn [attrs sol_ref] in H.
  bind_inv H as pg Epg. unfold get_pot_grid in Epg.
  cbn [pot_grid set_energy_series set_run] in Epg.
  destruct (pot_grid (attrs o)) as [pg'|] eqn:Hpg; [|discriminate].
  injection Epg as ->.
  bind_inv H as alpha Ea. bind_inv H as ho Eho. destruct ho as [h1 o1].
  cbn [fst snd] in H.
  match type of Eho with
  | in_place _ _ ?ob = _ =>
      destruct (in_place_inv _prepare h h1 ob o1 Hp Eho)
        as (Eprep & Hr & Hlen & Hfr)
  end.
  cbn [sol_ref] in Hr, Hfr.
  assert (Hattrs : attrs o1 = view h1 o1).
  { unfold in_place in Eho. bind_inv Eho as s Es. injection Eho as <- <-.
    unfold view. cbn [attrs sol_ref].
    rewrite deref_store_eq by exact Hp. symmetry. apply set_sol_mesh_eta. }
  destruct (prepare_frame _ _ Eprep) as (sm & Hsm & _).
  exists pg, alpha, h1, o1. split; [reflexivity|]. split; [exact Ea|].
  split; [exact Eprep|]. split; [exact Hr|]. split; [exact Hlen|].
  split; [exact Hfr|].
  split; [rewrite Hattrs, Hsm; reflexivity|].
  split; [rewrite Hattrs, Hsm; reflexivity|exact H].
Qed.

(** A run works in the array object it was handed for as long as it can.
    On the values the run is [solve].  No array object that existed before
    the run is touched, except the one the solution was in: the deflation
    (and, in periodic mode, the extrapolation) store into it, so after a
    run of at least one pass it holds the pre-update solution of the first
    pass.  When the time domain has more than one step, that pass binds the
    solution to a new object, and what [get_solution] returns afterwards is
    not the caller's array; when it has one step, [get_solution] returns
    the caller's array itself. *)
Theorem run_works_in_callers_array (h h' : heap) (o o' : object) (K : nat) :
  (sol_ref o < length h)%nat ->
  solve_obj h o = Ok (h', o', K) ->
  solve (view h o) = Ok (view h' o', K) /\
  (forall q, (q < length h)%nat -> q <> sol_ref o ->
             deref h' q = deref h q) /\
  (K = 0%nat -> snd (get_solution_obj o') = sol_ref o) /\
  ((0 < K)%nat ->
   (exists sn px kine,
      state_before (view h o) 0 = Ok sn /\
      pre_update sn 0 = Ok (set_sol_mesh (set_counter sn 0) px, kine) /\
      deref h' (sol_ref o) = px) /\
   ((1 < time_len (attrs o))%Z ->
    (length h <= snd (get_solution_obj o'))%nat) /\
   ((time_len (attrs o) <= 1)%Z ->
    snd (get_solution_obj o') = sol_ref o)).
Proof.
  intros Hp H.
  destruct (solve_obj_inv _ _ _ _ _ Hp H)
    as (pg & alpha & h1 & o1 & Hpg & Ha & Hentry & Hr & Hlen & Hfr & Htl
        & Hmi & Hloop).
  assert (Hp1 : (sol_ref o1 < length h1)%nat) by (rewrite Hr, Hlen; exact Hp).
  destruct (solve_loop_obj_inv _ _ _ _ _ _ _ _ _ _ _ Hp1 Hloop)
    as (Eloop & _ & _ & Hfr' & _ & Hzero & Hup & Hkeep).
  assert (Hsb : state_before (view h o) 0 = Ok (view h1 o1)).
  { unfold state_before, get_pot_grid.
    change (pot_grid (view h o)) with (pot_grid (attrs o)). rewrite Hpg.
    cbn [bind].
    change (step (time_dom (view h o))) with (step (time_dom (attrs o))).
    rewrite Ha. cbn [bind]. rewrite Hentry. reflexivity. }
  split.
  { unfold solve.
    change (time_len (view h o)) with (time_len (attrs o)).
    destruct (Z.ltb_spec (time_len (attrs o)) 0) as [Hneg|Hpos].
    { unfold solve_obj in H.
      destruct (Z.ltb_spec (time_len (attrs o)) 0) as [_|Hc]; [|lia].
      discriminate H. }
    cbn [bind]. unfold get_pot_grid.
    change (pot_grid (set_energy_series (view h o)
                        (repeat 0 (Z.to_nat (time_len (attrs o))))))
      with (pot_grid (attrs o)).
    rewrite Hpg. cbn [bind].
    change (step (time_dom (view h o))) with (step (time_dom (attrs o))).
    rewrite Ha. cbn [bind].
    unfold loop_entry in Hentry.
    change (time_len (view h o)) with (time_len (attrs o)) in Hentry.
    rewrite Hentry. cbn [bind]. exact Eloop. }
  split.
  { intros q Hq Hne. rewrite Hfr' by (rewrite ?Hlen, ?Hr; assumption).
    apply Hfr. exact Hne. }
  assert (Hfuel : (Z.to_nat (t_len (attrs o1)) <= Z.to_nat (time_len (attrs o)))%nat).
  { unfold t_len. rewrite Hmi, Htl.
    destruct (max_iter (attrs o)) as [m|]; [|lia].
    destruct (Z.ltb_spec m (time_len (attrs o))); lia. }
  assert (HK : Z.to_nat (t_len (attrs o1)) = 0%nat -> K = 0%nat).
  { intros Hf. rewrite Hf in Hloop. simpl in Hloop.
    injection Hloop as _ _ <-. reflexivity. }
  split.
  { intros ->. unfold get_solution_obj. cbn [snd].
    destruct (Z.to_nat (t_len (attrs o1))) as [|f] eqn:Hf.
    - destruct (Hzero eq_refl) as [_ ->]. exact Hr.
    - exfalso.
      match type of Eloop with
      | solve_loop ?a ?b ?g ?d ?fu 0 ?s = _ =>
          destruct (solve_loop_spec a b g d fu 0 s s (view h' o') 0
                      eq_refl Eloop) as (_ & Hpos & _)
      end.
      specialize (Hpos ltac:(lia)). lia. }
  intros HKpos.
  assert (Hf0 : Z.to_nat (t_len (attrs o1)) <> 0%nat)
    by (intros Hf; specialize (HK Hf); lia).
  unfold get_solution_obj. cbn [snd].
  destruct (Z.lt_ge_cases 1 (time_len (attrs o))) as [Hlt|Hge].
  - destruct (Hup Hf0 ltac:(rewrite Htl; simpl; lia))
      as (Hnew & px & kine & Hpre & Hpx).
    split.
    + exists (view h1 o1), px, kine. split; [exact Hsb|].
      split; [exact Hpre|]. rewrite <- Hr. exact Hpx.
    + split; [intros _; rewrite <- Hlen; exact Hnew|lia].
  - destruct (Hkeep ltac:(lia) ltac:(rewrite Htl; simpl; lia))
      as (Hsame & px & kine & Hpre & Hpx).
    split.
    + exists (view h1 o1), px, kine. split; [exact Hsb|].
      split; [exact Hpre|]. rewrite <- Hr. exact Hpx.
    + split; [lia|intros _; congruence].
Qed.

(** A run on objects returns whenever the run on the values does. *)
Lemma solve_obj_total (h : heap) (o : object) (s' : DirichletSystem)
  (K : nat) :
  (sol_ref o < length h)%nat ->
  solve (view h o) = Ok (s', K) ->
  exists h' o', solve_obj h o = Ok (h', o', K).
Proof.
  unfold solve, solve_obj. intros Hp H.
  change (time_len (view h o)) with (time_len (attrs o)) in H.
  destruct (time_len (attrs o) <? 0)%Z; [discriminate|].
  cbn [bind attrs sol_ref] in *. unfold get_pot_grid in *.
  change (pot_grid (set_energy_series (view h o)
                      (repeat 0 (Z.to_nat (time_len (attrs o))))))
    with (pot_grid (attrs o)) in H.
  change (pot_grid (set_energy_series (attrs o)
                      (repeat 0 (Z.to_nat (time_len (attrs o))))))
    with (pot_grid (attrs o)).
  destruct (pot_grid (attrs o)) as [pg|]; [|discriminate].
  cbn [bind] in *.
  change (step (time_dom (view h o))) with (step (time_dom (attrs o))) in H.
  destruct (alpha_of (step (time_dom (attrs o))) pg
              (beta_of (step (time_dom (attrs o))) pg)) as [alpha|e];
    [|discriminate].
  cbn [bind] in *. bind_inv H as s Es.
  unfold in_place.
  change (view h {| attrs := set_energy_series (attrs o)
                               (repeat 0 (Z.to_nat (time_len (attrs o))));
                    sol_ref := sol_ref o |})
    with (set_energy_series (view h o)
            (repeat 0 (Z.to_nat (time_len (attrs o))))).
  rewrite Es. cbn [bind fst snd attrs].
  apply (solve_loop_obj_total _ _ _ _ _ 0%nat _ _ s' K).
  - cbn [sol_ref]. rewrite store_length. exact Hp.
  - unfold view. cbn [attrs sol_ref].
    rewrite deref_store_eq by exact Hp. rewrite set_sol_mesh_eta. exact H.
Qed.

Lemma run_works_in_callers_array_witness :
  exists h' o',
    solve_obj [bump3] (mk_object capped_solver 0%nat) = Ok (h', o', 1%nat) /\
    (1 <= snd (get_solution_obj o'))%nat /\
    deref h' 0%nat = bump3.
Proof.
  destruct capped_solver_one_pass as (self' & Hsolve).
  destruct (solve_obj_total [bump3] (mk_object capped_solver 0%nat) self'
              1%nat ltac:(simpl; lia) Hsolve) as (h' & o' & H).
  exists h', o'. split; [exact H|].
  destruct (run_works_in_callers_array [bump3] h'
              (mk_object capped_solver 0%nat) o' 1%nat
              ltac:(simpl; lia) H) as (_ & _ & _ & Hrun).
  destruct (Hrun ltac:(lia)) as ((sn & px & kine & Hsn & Hpre & Hpx) & Hnew & _).
  split; [exact (Hnew ltac:(simpl; lia))|].
  cbn [sol_ref] in Hpx. rewrite Hpx.
  injection Hsn as <-.
  unfold pre_update, _prepare in Hpre. cbn in Hpre.
  injection Hpre as <- _. reflexivity.
Defined.

(** ** Deflating twice *)

Lemma deflated_orthogonal_id (w : R) (sh : list nat) (fs fv : index -> R)
  (idx : index) :
  winner w sh fv fv = 1 -> winner w sh fs fv = 0 ->
  deflated Columb3D w sh fs fv idx = fs idx.
Proof.
  intros H1 H0. unfold deflated. rewrite (unit_norm_of w sh fv H1).
  replace (sum_over sh (fun j => fs j * (fv j * (1 / 1)) * w))
    with (winner w sh fs fv).
  - rewrite H0. ring.
  - unfold winner. rewrite <- sum_over_scal_r. apply sum_over_ext.
    intros; field.
Qed.

Lemma deflated_all_orthogonal_id (w : R) (sh : list nat)
  (vs : list ndarray) :
  forall g : index -> R,
    Forall (fun v => winner w sh (data v) (data v) = 1) vs ->
    Forall (fun v => winner w sh g (data v) = 0) vs ->
    forall idx, deflated_all Columb3D w sh vs g idx = g idx.
Proof.
  unfold deflated_all. induction vs as [|v vs IH]; intros g Hu Ho idx;
    [reflexivity|].
  inversion Hu as [|? ? Hv1 Hu']; subst.
  inversion Ho as [|? ? Hv0 Ho']; subst.
  simpl. rewrite IH.
  - apply deflated_orthogonal_id; assumption.
  - exact Hu'.
  - apply Forall_forall. intros u Hin.
    rewrite (winner_ext w sh _ g (data u) (data u)).
    + exact (proj1 (Forall_forall _ _) Ho' u Hin).
    + intros j _. apply deflated_orthogonal_id; assumption.
    + reflexivity.
Qed.

(** With the norm of "3d columb" and orthonormal priors the deflation is
    idempotent on the grid: a second [_prepare] right after a first one --
    as [solve] runs it, before the loop and again at the start of the first
    pass -- returns and leaves every value of the solution as it was. *)
Theorem deflation_is_idempotent (self s1 : DirichletSystem) :
  variant self = Columb3D -> well_shaped self -> orthonormal_priors self ->
  _prepare self = Ok s1 ->
  exists s2,
    _prepare s1 = Ok s2 /\
    shape (sol_mesh s2) = shape (sol_mesh s1) /\
    forall idx, in_shape idx (sol_shape self) ->
      data (sol_mesh s2) idx = data (sol_mesh s1) idx.
Proof.
  intros Hvar Hws [Hunit Horth] H1.
  destruct (prepare_agrees self Hws) as (sm1 & E1 & A1).
  rewrite H1 in E1. injection E1 as ->.
  assert (Hws1 : well_shaped (set_sol_mesh self sm1)).
  { destruct Hws as [Ha Hb Hc Hd]. constructor; try assumption.
    exact (proj1 A1). }
  destruct (prepare_agrees _ Hws1) as (sm2 & E2 & A2).
  cbn [variant vol sol_shape priors sol_mesh set_sol_mesh set_mesh] in A2.
  eexists. split; [exact E2|].
  cbn [sol_mesh set_sol_mesh set_mesh].
  split; [rewrite (proj1 A1), (proj1 A2); reflexivity|].
  intros idx Hidx. rewrite (proj2 A2 idx Hidx). rewrite Hvar in *.
  apply (deflated_all_orthogonal_id (vol self) (sol_shape self)
           (priors self) (data sm1) Hunit).
  pose proof (deflated_all_orthogonal (vol self) (sol_shape self)
                (priors self) (data (sol_mesh self)) Hunit Horth) as Hall.
  apply Forall_forall. intros v Hin.
  rewrite (winner_ext _ _ _ _ _ (data v) (proj2 A1) (fun _ _ => eq_refl)).
  exact (proj1 (Forall_forall _ _) Hall v Hin).
Qed.

Lemma deflation_is_idempotent_witness :
  exists s1 s2,
    _prepare unit_prior_solver = Ok s1 /\ _prepare s1 = Ok s2 /\
    data (sol_mesh s2) [1%nat] = data (sol_mesh s1) [1%nat].
Proof.
  assert (Hws : well_shaped unit_prior_solver).
  { apply line_solver_well_shaped; [reflexivity|].
    constructor; [reflexivity|constructor]. }
  assert (Hon : orthonormal_priors unit_prior_solver).
  { split.
    - constructor; [|constructor]. unfold winner. cbn. lra.
    - constructor; constructor. }
  destruct (prepare_agrees _ Hws) as (sm1 & E1 & _).
  destruct (deflation_is_idempotent unit_prior_solver _ eq_refl Hws Hon E1)
    as (s2 & E2 & _ & Hsame).
  eexists. exists s2. split; [exact E1|]. split; [exact E2|].
  apply Hsame. constructor; [simpl; lia|constructor].
Defined.

(** ** Deflation in "2d free" against an output of "2d free" *)

(** In "2d free" a prior whose squares sum to 1 -- what [normalize] of that
    notebook returns, so what a run of it leaves -- is not removed by the
    deflation: [_prepare] multiplies the volume-weighted component of the
    solution along the prior by [1 - vol]. *)
Theorem free2d_deflation_scales_component (self s1 : DirichletSystem)
  (v : ndarray) :
  variant self = Free2D -> well_shaped self -> priors self = [v] ->
  sum_over (sol_shape self) (fun idx => data v idx * data v idx) = 1 ->
  _prepare self = Ok s1 ->
  winner (vol self) (sol_shape self) (data (sol_mesh s1)) (data v)
  = (1 - vol self)
    * winner (vol self) (sol_shape self) (data (sol_mesh self)) (data v).
Proof.
  intros Hvar Hws Hpr Hv H1.
  destruct (prepare_agrees self Hws) as (sm & E & A).
  rewrite H1 in E. injection E as ->.
  cbn [sol_mesh set_sol_mesh set_mesh].
  rewrite Hvar, Hpr in A. cbn [map fold_left] in A.
  rewrite (winner_ext _ _ _ _ _ (data v) (proj2 A) (fun _ _ => eq_refl)).
  rewrite winner_deflated.
  assert (Hn : norm_of Free2D (vol self) (sol_shape self) (data v) = 1)
    by (unfold norm_of; rewrite Hv; apply sqrt_1).
  rewrite Hn.
  replace (sum_over (sol_shape self)
             (fun j => data (sol_mesh self) j * (data v j * (1 / 1))
                       * vol self))
    with (winner (vol self) (sol_shape self) (data (sol_mesh self)) (data v)).
  - unfold winner at 3. rewrite Hv. ring.
  - unfold winner. rewrite <- sum_over_scal_r. apply sum_over_ext.
    intros; field.
Qed.

Lemma free2d_deflation_witness :
  exists s1,
    _prepare (line_solver Free2D false [bump3] (mk_Boundary 0 0 1)
                (mk_Boundary 0 1 (1 / 2)) 1 [0; 1 / 2; 1] double_bump None)
    = Ok s1 /\
    winner (1 / 2 * 1) [3%nat] (data (sol_mesh s1)) (data bump3)
    = (1 - 1 / 2 * 1) * winner (1 / 2 * 1) [3%nat] (data double_bump)
                          (data bump3).
Proof.
  assert (Hws : well_shaped
                  (line_solver Free2D false [bump3] (mk_Boundary 0 0 1)
                     (mk_Boundary 0 1 (1 / 2)) 1 [0; 1 / 2; 1] double_bump
                     None)).
  { apply line_solver_well_shaped; [reflexivity|].
    constructor; [reflexivity|constructor]. }
  destruct (prepare_agrees _ Hws) as (sm & E & _).
  eexists. split; [exact E|].
  match type of E with
  | _prepare ?s = Ok ?s1 =>
      apply (free2d_deflation_scales_component s s1 bump3 eq_refl Hws
               eq_refl); [|exact E]
  end.
  cbn. lra.
Defined.

(** ** The periodic branch on two axes *)

(** [t op= p] for a two-axis [t] and a one-axis [p] whose extent is the
    last extent of [t]: [p] is broadcast along the first axis. *)
Lemma np_inplace_row (f : R -> R -> R) (a b : ndarray) (x n : nat) :
  shape a = [x; n] -> shape b = [n] ->
  exists c, np_inplace f a b = Ok c /\ shape c = [x; n].
Proof.
  intros Ha Hb. unfold np_inplace, broadcast_shapes. rewrite Ha, Hb.
  cbn [length Nat.max pad_shape Nat.sub repeat app bc_zip].
  rewrite Nat.eqb_refl.
  assert (E : (if (x =? 1)%nat then Some [x; n]
               else if (x =? 1)%nat then Some [1%nat; n]
                    else if (1 =? 1)%nat then Some [x; n] else None)
              = Some [x; n]).
  { destruct (Nat.eqb_spec x 1) as [->|_]; reflexivity. }
  rewrite E, shape_eqb_refl. eexists. split; reflexivity.
Qed.

(** The same with the extent of [p] equal to the first extent of [t]:
    numpy aligns [p] with the last axis, and the operation fails unless
    the two extents of [t] coincide. *)
Lemma np_inplace_column (f : R -> R -> R) (a b : ndarray) (m k : nat) :
  shape a = [m; k] -> shape b = [m] -> (2 <= m)%nat -> m <> k ->
  np_inplace f a b = Raise ValueError.
Proof.
  intros Ha Hb Hm Hk. unfold np_inplace, broadcast_shapes. rewrite Ha, Hb.
  cbn [length Nat.max pad_shape Nat.sub repeat app bc_zip].
  destruct (Nat.eqb_spec k m) as [He|_]; [congruence|].
  destruct (Nat.eqb_spec m 1) as [He|_]; [lia|].
  destruct (Nat.eqb_spec k 1) as [->|_]; [|reflexivity].
  cbn [Nat.eqb].
  unfold shape_eqb.
  destruct (list_eq_dec Nat.eq_dec [m; m] [m; 1%nat]) as [He|_];
    [|reflexivity].
  injection He as He. lia.
Qed.

Section TwoAxes.

Variables (self : DirichletSystem) (m n : nat).
Hypothesis Hpbc : pbc self = true.
Hypothesis Hndim : ndim self = 2%nat.
Hypothesis Hdoms : length (spat_dom self) = 2%nat.
Hypothesis Hm : (2 <= m)%nat.
Hypothesis Hn : (2 <= n)%nat.

Let sh := [m; n].

(** Along axis 0 the periodic pass goes through. *)
Lemma kinetic_axis_wrap_first (px kine : ndarray) :
  shape px = sh -> shape kine = sh ->
  exists px' kine',
    kinetic_axis self (px, kine) 0 = Ok (px', kine') /\
    shape px' = sh /\ shape kine' = sh.
Proof.
  intros Hpx Hk. unfold kinetic_axis. rewrite Hpbc, Hndim. cbn [fst snd].
  assert (Hnd : 2%nat = length sh) by reflexivity.
  assert (Hi : (0 < 2)%nat) by lia.
  destruct (extrapolate_agrees sh 2 0 Hnd Hi px _ (agrees_self _ _ Hpx) Hm)
    as (px' & Epx & [Hpx' _]).
  rewrite Epx. cbn [bind].
  destruct (stencil_agrees sh 2 0 Hnd Hi px' _ (agrees_self _ _ Hpx'))
    as (t & Et & [Ht _]).
  rewrite Et. cbn [bind].
  change (shape t = [(m - 2)%nat; n]) in Ht.
  unfold wrap_around.
  destruct (take_agrees sh 2 0 Hnd Hi (-2) _ px' _ (agrees_self _ _ Hpx')
              (norm_index_neg2 sh 2 0 Hnd Hi _ Hm) ltac:(simpl; lia))
    as (p3 & E3 & [H3 _]).
  destruct (take_agrees sh 2 0 Hnd Hi 1 _ px' _ (agrees_self _ _ Hpx')
              (norm_index_one sh 2 0 Hnd Hi _ Hm) ltac:(simpl; lia))
    as (p1 & E1 & [H1 _]).
  destruct (take_agrees sh 2 0 Hnd Hi 0 _ px' _ (agrees_self _ _ Hpx')
              (norm_index_zero_ok m ltac:(lia)) ltac:(simpl; lia))
    as (p0 & E0 & [H0 _]).
  destruct (take_agrees sh 2 0 Hnd Hi (-1) _ px' _ (agrees_self _ _ Hpx')
              (norm_index_neg1 sh 2 0 Hnd Hi m ltac:(lia)) ltac:(simpl; lia))
    as (p2 & E2 & [H2 _]).
  change (shape p3 = [n]) in H3. change (shape p1 = [n]) in H1.
  change (shape p0 = [n]) in H0. change (shape p2 = [n]) in H2.
  rewrite E3. cbn [bind].
  destruct (np_inplace_row Rplus t p3 _ _ Ht H3) as (t1 & Et1 & Ht1).
  rewrite Et1. cbn [bind]. rewrite E1. cbn [bind].
  destruct (np_inplace_row Rplus t1 p1 _ _ Ht1 H1) as (t2 & Et2 & Ht2).
  rewrite Et2. cbn [bind]. rewrite E0. cbn [bind].
  destruct (np_inplace_row Rminus t2 p0 _ _ Ht2 H0) as (t3 & Et3 & Ht3).
  rewrite Et3. cbn [bind]. rewrite E2. cbn [bind].
  destruct (np_inplace_row Rminus t3 p2 _ _ Ht3 H2) as (t4 & Et4 & Ht4).
  rewrite Et4. cbn [bind].
  destruct (spat_dom self) as [|dom doms] eqn:Hsd; [discriminate|].
  cbn [nth_error].
  assert (Hv : agrees (np_map (fun x => x / (2 * step dom ^ 2)) t4)
                 (replace_at 0 (slice_len 1 1 (nth 0 sh O)) sh)
                 (data (np_map (fun x => x / (2 * step dom ^ 2)) t4))).
  { apply agrees_self. cbn [shape np_map]. rewrite Ht4.
    unfold slice_len. cbn. f_equal. lia. }
  destruct (iadd_slice_agrees sh 2 0 Hnd Hi 1 1 kine _ _ _
              (agrees_self _ _ Hk) Hv) as (k' & Ek & [Hk' _]).
  rewrite Ek. cbn [bind]. exists px', k'.
  split; [reflexivity|]. split; assumption.
Qed.

(** Along axis 1 it raises [ValueError], at the first in-place update of
    [term], unless the first extent is the second one less two. *)
Lemma kinetic_axis_wrap_second (px kine : ndarray) :
  m <> (n - 2)%nat -> shape px = sh ->
  kinetic_axis self (px, kine) 1 = Raise ValueError.
Proof.
  intros Hmn Hpx. unfold kinetic_axis. rewrite Hpbc, Hndim. cbn [fst snd].
  assert (Hnd : 2%nat = length sh) by reflexivity.
  assert (Hi : (1 < 2)%nat) by lia.
  destruct (extrapolate_agrees sh 2 1 Hnd Hi px _ (agrees_self _ _ Hpx) Hn)
    as (px' & Epx & [Hpx' _]).
  rewrite Epx. cbn [bind].
  destruct (stencil_agrees sh 2 1 Hnd Hi px' _ (agrees_self _ _ Hpx'))
    as (t & Et & [Ht _]).
  rewrite Et. cbn [bind].
  change (shape t = [m; (n - 2)%nat]) in Ht.
  unfold wrap_around.
  destruct (take_agrees sh 2 1 Hnd Hi (-2) _ px' _ (agrees_self _ _ Hpx')
              (norm_index_neg2 sh 2 1 Hnd Hi _ Hn) ltac:(simpl; lia))
    as (p3 & E3 & [H3 _]).
  change (shape p3 = [m]) in H3.
  rewrite E3. cbn [bind].
  rewrite (np_inplace_column Rplus t p3 m (n - 2) Ht H3 Hm Hmn).
  reflexivity.
Qed.

End TwoAxes.

Lemma pre_update_wrap_two_axes (self : DirichletSystem) (m n k : nat) :
  well_shaped self -> pbc self = true -> sol_shape self = [m; n] ->
  (2 <= m)%nat -> (2 <= n)%nat -> m <> (n - 2)%nat ->
  pre_update self k = Raise ValueError.
Proof.
  intros Hws Hpbc Hsh Hm Hn Hmn. unfold pre_update.
  assert (Hws' : well_shaped (set_counter self k))
    by (destruct Hws; constructor; assumption).
  destruct (prepare_agrees _ Hws') as (sm & E & [Hsm _]).
  rewrite E. cbn [bind].
  cbn [sol_shape set_counter set_run] in Hsm. rewrite Hsh in Hsm.
  assert (Hndim : ndim self = 2%nat)
    by (rewrite (ws_ndim _ Hws), Hsh; reflexivity).
  assert (Hdoms : length (spat_dom self) = 2%nat)
    by (rewrite (ws_doms _ Hws); exact Hndim).
  unfold kinetic.
  cbn [ndim sol_mesh sol_shape set_sol_mesh set_mesh set_counter set_run].
  rewrite Hndim, Hsh. cbn [seq foldM].
  destruct (kinetic_axis_wrap_first
              (set_sol_mesh (set_counter self k) sm) m n Hpbc Hndim Hdoms
              Hm Hn sm (np_zeros [m; n]) Hsm eq_refl)
    as (px' & kine' & E0 & Hpx' & _).
  rewrite E0. cbn [bind].
  rewrite (kinetic_axis_wrap_second
             (set_sol_mesh (set_counter self k) sm) m n Hpbc Hndim Hdoms
             Hm Hn px' kine' Hmn Hpx').
  reflexivity.
Qed.

(** The periodic branch does not run on two axes.  On a grid of [m] by [n]
    points, both at least 2 and [m] other than [n - 2] -- every square grid
    is one -- the first in-place update of [term] along the last axis
    raises [ValueError]: [px[:, -2]] has one axis of extent [m] and is
    aligned with the last axis of [term], of extent [n - 2].  So the part
    of a pass before the energy estimate raises, and so does every run
    that schedules a pass. *)
Theorem periodic_pass_fails_on_two_axes (self : DirichletSystem)
  (m n : nat) (pg : ndarray) :
  well_shaped self -> pbc self = true -> sol_shape self = [m; n] ->
  (2 <= m)%nat -> (2 <= n)%nat -> m <> (n - 2)%nat ->
  (forall k, pre_update self k = Raise ValueError) /\
  (pot_grid self = Some pg -> shape pg = sol_shape self ->
   (1 <= scheduled self)%Z -> solve self = Raise ValueError).
Proof.
  intros Hws Hpbc Hsh Hm Hn Hmn. split.
  - intros k. apply (pre_update_wrap_two_axes self m n k); assumption.
  - intros Hpg Hshape Hsched. unfold solve.
    assert (Htl : (1 <= time_len self)%Z).
    { unfold scheduled in Hsched. destruct (max_iter self); lia. }
    destruct (Z.ltb_spec (time_len self) 0) as [Hneg|_]; [lia|].
    cbn [bind]. unfold get_pot_grid.
    cbn [pot_grid set_energy_series set_run]. rewrite Hpg. cbn [bind].
    destruct (alpha_beta_agrees _ (step (time_dom self)) pg _
                (agrees_self _ _ Hshape)) as (_ & alpha & Ea & _).
    cbn [time_dom set_energy_series set_run]. rewrite Ea. cbn [bind].
    match goal with
    | |- context [_prepare ?s] =>
        assert (Hws0 : well_shaped s)
          by (destruct Hws; constructor; assumption);
        destruct (prepare_agrees s Hws0) as (sm & E & [Hsm _]);
        rewrite E
    end.
    cbn [bind]. rewrite t_len_scheduled.
    change (scheduled (set_sol_mesh (set_energy_series self
              (repeat 0 (Z.to_nat (time_len self)))) sm))
      with (scheduled self).
    destruct (Z.to_nat (scheduled self)) as [|f] eqn:Hf; [lia|].
    cbn [solve_loop]. unfold iteration.
    match goal with
    | |- context [pre_update ?s 0] =>
        assert (Hpre : pre_update s 0 = Raise ValueError)
    end.
    { apply (pre_update_wrap_two_axes _ m n 0); try assumption.
      all: destruct Hws as [H1 H2 H3 H4]; constructor; try assumption.
      all: exact Hsm. }
    rewrite Hpre. reflexivity.
Qed.

Lemma periodic_pass_fails_witness :
  pre_update square_wrap 0 = Raise ValueError /\
  solve square_wrap = Raise ValueError.
Proof.
  assert (Hws : well_shaped square_wrap).
  { constructor; try reflexivity. constructor. }
  destruct (periodic_pass_fails_on_two_axes square_wrap 2 2
              (np_zeros [2%nat; 2%nat]) Hws eq_refl eq_refl
              ltac:(lia) ltac:(lia) ltac:(simpl; lia)) as [Hpre Hsolve].
  split; [exact (Hpre 0%nat)|].
  apply Hsolve; first [reflexivity|simpl; lia].
Defined.

(** ** Grids without interior points *)

(** In Dirichlet mode, on a grid with an axis of one or two points every
    grid point is a boundary point: whatever field of the grid shape is
    ingested, the stored solution is zero at every grid point. *)
Theorem thin_grid_holds_only_zeros (self s1 : DirichletSystem)
  (psi0 : ndarray) (i : nat) :
  bd_cond self = None -> pbc self = false ->
  shape psi0 = sol_shape self ->
  (i < length (sol_shape self))%nat ->
  (nth i (sol_shape self) O <= 2)%nat ->
  set_psi0_by_grid self psi0 = Ok s1 ->
  forall idx, in_shape idx (sol_shape self) -> data (sol_mesh s1) idx = 0.
Proof.
  intros Hbd Hpbc Hpsi Hi Hthin H idx Hidx.
  destruct (set_psi0_by_grid_inv _ _ _ H) as (s & pg & Happ & -> & _).
  destruct (apply_boundary_zero (set_sol_mesh self psi0) s Hbd Hpbc Hpsi Happ)
    as (sm & -> & Hsm & Hz).
  cbn [sol_mesh set_pot_grid set_run set_sol_mesh set_mesh].
  cbn [sol_shape set_sol_mesh set_mesh] in Hsm.
  apply Hz; rewrite Hsm; [exact Hidx|].
  exists i. split; [exact Hi|].
  pose proof (in_shape_nth _ _ i Hidx Hi). lia.
Qed.

Lemma thin_grid_witness :
  exists s1,
    set_psi0_by_grid two_point_line step2 = Ok s1 /\
    data step2 [0%nat] = 1 /\ data (sol_mesh s1) [0%nat] = 0.
Proof.
  assert (E : exists s1, set_psi0_by_grid two_point_line step2 = Ok s1).
  { unfold set_psi0_by_grid, _initialize, _apply_boundary. cbn.
    eexists. reflexivity. }
  destruct E as (s1 & E). exists s1. split; [exact E|].
  split; [reflexivity|].
  apply (thin_grid_holds_only_zeros two_point_line s1 step2 0%nat
           eq_refl eq_refl eq_refl ltac:(simpl; lia) ltac:(simpl; lia) E).
  constructor; [simpl; lia|constructor].
Defined.

(** ** The periodic branch on one axis *)

(** [t op= p] for a one-axis [t] and a zero-axis [p]: [p] is added to
    every element. *)
Lemma np_inplace_scalar (f : R -> R -> R) (a b : ndarray) (x : nat)
  (fa : index -> R) :
  agrees a [x] fa -> shape b = [] ->
  exists c, np_inplace f a b = Ok c /\
            agrees c [x] (fun idx => f (fa idx) (data b [])).
Proof.
  intros [Ha Hd] Hb. unfold np_inplace, broadcast_shapes. rewrite Ha, Hb.
  cbn [length Nat.max pad_shape Nat.sub repeat app bc_zip].
  assert (E : (if (x =? 1)%nat then Some [x]
               else if (x =? 1)%nat then Some [1%nat]
                    else if (1 =? 1)%nat then Some [x] else None)
              = Some [x]).
  { destruct (Nat.eqb_spec x 1) as [->|_]; reflexivity. }
  rewrite E, shape_eqb_refl. eexists. split; [reflexivity|].
  split; [reflexivity|].
  intros idx Hidx. cbn [data]. rewrite (Hd idx Hidx). reflexivity.
Qed.

Section OneAxis.

Variables (self : DirichletSystem) (m : nat) (dom : Boundary).
Hypothesis Hpbc : pbc self = true.
Hypothesis Hndim : ndim self = 1%nat.
Hypothesis Hdom : spat_dom self = [dom].
Hypothesis Hm : (2 <= m)%nat.

Let sh := [m].

Lemma kinetic_axis_wrap_line (px kine : ndarray) (f fk : index -> R) :
  agrees px sh f -> agrees kine sh fk ->
  exists px' kine',
    kinetic_axis self (px, kine) 0 = Ok (px', kine') /\
    agrees px' sh (extrapolated sh 0 f) /\
    agrees kine' sh
      (fun idx => fk idx
                  + wrap_second_diff m (step dom) (extrapolated sh 0 f) idx).
Proof.
  intros Hpx Hk. unfold kinetic_axis. rewrite Hpbc, Hndim. cbn [fst snd].
  assert (Hnd : 1%nat = length sh) by reflexivity.
  assert (Hi : (0 < 1)%nat) by lia.
  destruct (extrapolate_agrees sh 1 0 Hnd Hi px _ Hpx Hm)
    as (px' & Epx & Apx).
  rewrite Epx. cbn [bind].
  set (g := extrapolated sh 0 f) in *.
  destruct (stencil_agrees sh 1 0 Hnd Hi px' _ Apx) as (t & Et & At).
  rewrite Et. cbn [bind].
  change (replace_at 0 (nth 0 sh O - 2) sh) with [(m - 2)%nat] in At.
  unfold wrap_around.
  destruct (take_agrees sh 1 0 Hnd Hi (-2) _ px' _ Apx
              (norm_index_neg2 sh 1 0 Hnd Hi _ Hm) ltac:(simpl; lia))
    as (p3 & E3 & [H3 D3]).
  destruct (take_agrees sh 1 0 Hnd Hi 1 _ px' _ Apx
              (norm_index_one sh 1 0 Hnd Hi _ Hm) ltac:(simpl; lia))
    as (p1 & E1 & [H1 D1]).
  destruct (take_agrees sh 1 0 Hnd Hi 0 _ px' _ Apx
              (norm_index_zero_ok m ltac:(lia)) ltac:(simpl; lia))
    as (p0 & E0 & [H0 D0]).
  destruct (take_agrees sh 1 0 Hnd Hi (-1) _ px' _ Apx
              (norm_index_neg1 sh 1 0 Hnd Hi m ltac:(lia)) ltac:(simpl; lia))
    as (p2 & E2 & [H2 D2]).
  change (remove_at 0 sh) with (@nil nat) in *.
  assert (Hnil : in_shape [] (@nil nat)) by constructor.
  specialize (D3 [] Hnil). specialize (D1 [] Hnil).
  specialize (D0 [] Hnil). specialize (D2 [] Hnil).
  cbn [insert_at firstn skipn app] in D3, D1, D0, D2.
  rewrite E3. cbn [bind].
  destruct (np_inplace_scalar Rplus t p3 _ _ At H3) as (t1 & Et1 & At1).
  rewrite Et1. cbn [bind]. rewrite E1. cbn [bind].
  destruct (np_inplace_scalar Rplus t1 p1 _ _ At1 H1) as (t2 & Et2 & At2).
  rewrite Et2. cbn [bind]. rewrite E0. cbn [bind].
  destruct (np_inplace_scalar Rminus t2 p0 _ _ At2 H0) as (t3 & Et3 & At3).
  rewrite Et3. cbn [bind]. rewrite E2. cbn [bind].
  destruct (np_inplace_scalar Rminus t3 p2 _ _ At3 H2) as (t4 & Et4 & At4).
  rewrite Et4. cbn [bind]. rewrite Hdom. cbn [nth_error].
  pose proof (np_map_agrees _ (fun x => x / (2 * step dom ^ 2)) t4 _ At4)
    as Au.
  assert (Hsl : [(m - 2)%nat]
                = replace_at 0 (slice_len 1 1 (nth 0 sh O)) sh).
  { unfold sh, slice_len, replace_at. cbn. f_equal. lia. }
  rewrite Hsl in Au.
  destruct (iadd_slice_agrees sh 1 0 Hnd Hi 1 1 kine _ fk _ Hk Au)
    as (k' & Ek & Ak).
  rewrite Ek. cbn [bind]. exists px', k'.
  split; [reflexivity|]. split; [exact Apx|].
  apply (agrees_ext _ _ _ _ Ak). intros idx Hidx.
  inversion Hidx as [|j ? rest ? Hj Hrest]; subst.
  inversion Hrest; subst. unfold wrap_second_diff, sh.
  cbn [nth].
  destruct ((1 <=? j) && (j <? m - 1))%nat eqn:Hc; [|lra].
  apply andb_prop in Hc. destruct Hc as [Hc1 Hc2].
  apply Nat.leb_le in Hc1. apply Nat.ltb_lt in Hc2.
  rewrite D3, D1, D0, D2.
  cbn [replace_at firstn skipn app nth].
  replace (j - 1 + 0)%nat with (j - 1)%nat by lia.
  replace (j - 1 + 2)%nat with (j + 1)%nat by lia.
  replace (j - 1 + 1)%nat with j by lia.
  unfold Rdiv. ring.
Qed.

End OneAxis.

(** On one axis of two points or more the periodic pass goes through.  The
    part of the pass before the energy estimate leaves as solution the
    deflated solution with its last value extrapolated, and as kinetic term,
    at every interior point, the second difference of that solution plus
    the same four wrap-around terms [px[-2] + px[1] - px[0] - px[-1]], over
    twice the squared step; the kinetic term of the two end points is 0. *)
Theorem periodic_pass_on_one_axis (self : DirichletSystem) (m k : nat)
  (dom : Boundary) :
  well_shaped self -> pbc self = true -> sol_shape self = [m] ->
  spat_dom self = [dom] -> (2 <= m)%nat ->
  let P := deflated_all (variant self) (vol self) [m] (priors self)
             (data (sol_mesh self)) in
  exists px kine,
    pre_update self k = Ok (set_sol_mesh (set_counter self k) px, kine) /\
    agrees px [m] (extrapolated [m] 0 P) /\
    agrees kine [m]
      (wrap_second_diff m (step dom) (extrapolated [m] 0 P)).
Proof.
  intros Hws Hpbc Hsh Hdom Hm P. unfold pre_update.
  assert (Hws' : well_shaped (set_counter self k))
    by (destruct Hws; constructor; assumption).
  destruct (prepare_agrees _ Hws') as (sm & E & Asm).
  rewrite E. cbn [bind].
  cbn [variant vol sol_shape priors sol_mesh set_counter set_run] in Asm.
  rewrite Hsh in Asm. fold (deflated_all (variant self) (vol self) [m]
                              (priors self) (data (sol_mesh self))) in Asm.
  fold P in Asm.
  assert (Hndim : ndim self = 1%nat)
    by (rewrite (ws_ndim _ Hws), Hsh; reflexivity).
  unfold kinetic.
  cbn [ndim sol_mesh sol_shape set_sol_mesh set_mesh set_counter set_run].
  rewrite Hndim, Hsh. cbn [seq foldM].
  destruct (kinetic_axis_wrap_line
              (set_sol_mesh (set_counter self k) sm) m dom Hpbc Hndim Hdom
              Hm sm (np_zeros [m]) P (fun _ => 0) Asm (np_zeros_agrees _))
    as (px' & kine' & E0 & Apx & Ak).
  rewrite E0. cbn [bind fst snd].
  exists px', kine'. split; [reflexivity|]. split; [exact Apx|].
  apply (agrees_ext _ _ _ _ Ak). intros idx _. lra.
Qed.

Lemma periodic_pass_on_one_axis_witness :
  exists px kine,
    pre_update four_point_wrap 0
    = Ok (set_sol_mesh (set_counter four_point_wrap 0) px, kine) /\
    agrees kine [4%nat]
      (wrap_second_diff 4 1 (extrapolated [4%nat] 0 (data step4))).
Proof.
  destruct (periodic_pass_on_one_axis four_point_wrap 4 0 (mk_Boundary 0 3 1))
    as (px & kine & E & _ & Ak); try reflexivity.
  - apply line_solver_well_shaped; [reflexivity|constructor].
  - lia.
  - exists px, kine. split; [exact E|exact Ak].
Defined.
